(** * Codama Go renderer: type manifests, value literals, import maps

    A shallow embedding of the TypeScript sources
      - [src/ImportMap.ts]                (the import accumulator),
      - [src/getTypeManifestVisitor.ts]   (schema type -> Go type syntax),
      - [src/renderValueNodeVisitor.ts]   (schema value -> Go literal),
      - [src/getRenderMapVisitor.ts]      (instruction arguments and
                                           account/argument name conflicts),
    followed by the properties checked against them.

    JavaScript [Set<string>] and [Map<string,string>] iterate in insertion
    order, and [resolveDependencyMap] depends on that order, so both are
    lists here: a set is a duplicate-free list, a map an association list
    with distinct keys.  The visitor's closure variables are an explicit
    state record, and [throw] is an error result that keeps the state the
    closure variables had when the exception left the visitor. *)

From Stdlib Require Import String Ascii List Bool ZArith NArith Lia DecimalString.
From Stdlib Require Import Orders Sorted Permutation Mergesort.
Import ListNotations.

#[local] Set Warnings "-register-all".

Local Open Scope list_scope.
Local Open Scope string_scope.

(* ===================================================================== *)
(** ** JavaScript primitives used by the sources *)
(* ===================================================================== *)

Module JS.

(** [s.startsWith(p)] *)
Definition startsWith (s p : string) : bool := String.prefix p s.

(** [s.slice(n)] for [0 <= n] *)
Fixpoint slice (s : string) (n : nat) : string :=
  match n, s with
  | O, _ => s
  | S _, EmptyString => EmptyString
  | S n', String _ s' => slice s' n'
  end.

(** [xs.join(sep)] *)
Definition join (sep : string) (xs : list string) : string :=
  String.concat sep xs.

(** [xs.map((x, index) => f(x, index))] *)
Fixpoint mapi_from {A B} (f : A -> nat -> B) (i : nat) (xs : list A) : list B :=
  match xs with
  | [] => []
  | x :: xs' => f x i :: mapi_from f (S i) xs'
  end.

Definition mapi {A B} (f : A -> nat -> B) (xs : list A) : list B :=
  mapi_from f 0 xs.

(** [xs.includes(x)] on strings *)
Definition includes (xs : list string) (x : string) : bool :=
  existsb (String.eqb x) xs.

(** [xs.indexOf(x)]: the first position of [x]; [None] stands for -1. *)
Fixpoint indexOf (xs : list string) (x : string) : option nat :=
  match xs with
  | [] => None
  | y :: ys => if String.eqb y x then Some 0
               else option_map S (indexOf ys x)
  end.

(** [set.add(x)] on an insertion-ordered [Set<string>] *)
Definition Set_add (x : string) (s : list string) : list string :=
  if includes s x then s else app s [x].

(** [set.delete(x)] *)
Definition Set_delete (x : string) (s : list string) : list string :=
  filter (fun y => negb (String.eqb y x)) s.

(** [map.set(k, v)] on an insertion-ordered [Map<string,string>]: an
    existing key keeps its position and takes the new value. *)
Fixpoint Map_set (k v : string) (m : list (string * string)) : list (string * string) :=
  match m with
  | [] => [(k, v)]
  | (k', v') :: m' =>
      if String.eqb k' k then (k', v) :: m' else (k', v') :: Map_set k v m'
  end.

(** [map.get(k)] *)
Fixpoint Map_get (m : list (string * string)) (k : string) : option string :=
  match m with
  | [] => None
  | (k', v') :: m' => if String.eqb k' k then Some v' else Map_get m' k
  end.

(** [entries.forEach(([k, v]) => m.set(k, v))] *)
Definition setAll (entries m : list (string * string)) : list (string * string) :=
  fold_left (fun acc '(k, v) => Map_set k v acc) entries m.

(** [n.toString()] for an integer [n] *)
Definition N_toString (n : N) : string :=
  NilEmpty.string_of_uint (N.to_uint n).

Definition Z_toString (z : Z) : string :=
  match z with
  | Z0 => "0"
  | Zpos p => N_toString (Npos p)
  | Zneg p => "-" ++ N_toString (Npos p)
  end.

(** Characters that a Rocq string literal cannot hold directly. *)
Definition tab : string := String (ascii_of_nat 9) EmptyString.
Definition nl : string := String (ascii_of_nat 10) EmptyString.
Definition dq : string := String (ascii_of_nat 34) EmptyString.

End JS.

(* ===================================================================== *)
(** ** ImportMap.ts *)
(* ===================================================================== *)

Module ImportMap.

(** A plain object [Record<string, string>] in the order [Object.keys]
    enumerates it (keys are not array indices, so this is insertion
    order). *)
Definition Obj := list (string * string).

Definition DEFAULT_MODULE_MAP : Obj :=
  [ ("generated", "");
    ("generatedAccounts", "");
    ("generatedErrors", "");
    ("generatedInstructions", "");
    ("generatedTypes", "");
    ("hooked", "") ].

Definition GO_PACKAGE_ALIASES : Obj :=
  [ ("github.com/gagliardetto/binary", "ag_binary");
    ("github.com/gagliardetto/solana-go", "ag_solanago");
    ("github.com/gagliardetto/solana-go/rpc", "ag_rpc");
    ("github.com/gagliardetto/treeout", "ag_treeout") ].

Record t := mk {
  _imports : list string;
  _aliases : list (string * string)
}.

(** [new ImportMap()] *)
Definition new : t := mk [] [].

(** [add(imports)], the argument given as the sequence [forEach] walks. *)
Definition add (this : t) (imports : list string) : t :=
  fold_left (fun acc i => mk (JS.Set_add i (_imports acc)) (_aliases acc))
            imports this.

Definition add1 (this : t) (i : string) : t := add this [i].

Definition remove (this : t) (imports : list string) : t :=
  fold_left (fun acc i => mk (JS.Set_delete i (_imports acc)) (_aliases acc))
            imports this.

Definition addAlias (this : t) (importName alias : string) : t :=
  mk (_imports this) (JS.Map_set importName alias (_aliases this)).

(** [mergeWith(...others)] *)
Definition mergeWith (this : t) (others : list t) : t :=
  fold_left
    (fun acc other =>
       fold_left (fun acc' '(importName, alias) => addAlias acc' importName alias)
                 (_aliases other)
                 (add acc (_imports other)))
    others this.

Definition isEmpty (this : t) : bool :=
  match _imports this with [] => true | _ => false end.

(** [toString], which sorts and prints the resolved map, is not embedded:
    nothing below depends on the text of the import block. *)

(** [{ ...a, ...b }] *)
Definition spread (a b : Obj) : Obj :=
  fold_left (fun acc '(k, v) => JS.Map_set k v acc) b a.

(** The closure [resolveDependency] of [resolveDependencyMap].  A found
    key that is the empty string is falsy, so [!dependencyKey] sends it
    down the not-found branch. *)
Definition resolveDependency (dependencyMap : Obj) (i : string) : string :=
  match find (fun key => JS.startsWith i (key ++ "::")) (map fst dependencyMap) with
  | None => i
  | Some dependencyKey =>
      if String.eqb dependencyKey "" then i
      else
        match JS.Map_get dependencyMap dependencyKey with
        | None => i (* not reached: the key was found among the keys *)
        | Some dependencyValue =>
            if String.eqb dependencyValue "" then ""
            else dependencyValue ++ JS.slice i (String.length dependencyKey)
        end
  end.

Definition resolveDependencyMap (this : t) (dependencies : Obj) : t :=
  let dependencyMap := spread DEFAULT_MODULE_MAP dependencies in
  let newImportMap := new in
  let newImportMap :=
    fold_left
      (fun acc i =>
         let resolved := resolveDependency dependencyMap i in
         if String.eqb resolved "" then acc else add1 acc resolved)
      (_imports this) newImportMap in
  fold_left
    (fun acc '(i, alias) =>
       let resolved := resolveDependency dependencyMap i in
       if String.eqb resolved "" then acc else addAlias acc resolved alias)
    (_aliases this) newImportMap.

(** The two [forEach] passes of [resolveDependencyMap], each seen on the
    field it writes. *)
Definition resolveImports (dm : Obj) (l acc : list string) : list string :=
  fold_left
    (fun acc i =>
       let resolved := resolveDependency dm i in
       if String.eqb resolved "" then acc else JS.Set_add resolved acc)
    l acc.

Definition resolveAliases (dm : Obj) (l acc : list (string * string))
  : list (string * string) :=
  fold_left
    (fun acc '(i, alias) =>
       let resolved := resolveDependency dm i in
       if String.eqb resolved "" then acc else JS.Map_set resolved alias acc)
    l acc.

(** Some key of the dependency map, followed by [::], starts [i]. *)
Definition matchesKey (dependencyMap : Obj) (i : string) : bool :=
  existsb (fun key => JS.startsWith i (key ++ "::")) (map fst dependencyMap).

(** No import and no aliased identifier of [this] starts with a key of
    the effective dependency map followed by [::]. *)
Definition settled (this : t) (dependencies : Obj) : bool :=
  let dependencyMap := spread DEFAULT_MODULE_MAP dependencies in
  forallb (fun i => negb (matchesKey dependencyMap i))
          (app (_imports this) (map fst (_aliases this))).

(** Representation invariant of a [Set] and a [Map]: no repeated element,
    no repeated key.  Every value built from [new] by the methods above
    satisfies it. *)
Definition wf (this : t) : Prop :=
  NoDup (_imports this) /\ NoDup (map fst (_aliases this)).

End ImportMap.

(* ===================================================================== *)
(** ** Helpers the sources import *)
(* ===================================================================== *)

(** What a [throw] carries: [new Error(message)] or
    [new CodamaError(CODAMA_ERROR__RENDERERS__UNSUPPORTED_NODE, { kind })]. *)
Inductive Error :=
| JsError (message : string)
| UnsupportedNode (kind : string).

Inductive result (A : Type) :=
| Ok (a : A)
| Throw (e : Error).

Arguments Ok {A} a.
Arguments Throw {A} e.

(** The sources call a few functions that live outside the files embedded
    here: [pascalCase] (package [@codama/nodes]), [goDocComment] composed
    with [parseDocs], [getBytesFromBytesValueNode] (module [./utils]) and
    [JSON.stringify] on strings.  The embedding is parametric in them.
    [getBytesFromBytesValueNode] decodes the text of a bytes value in its
    encoding and throws on a text the encoding does not admit: it returns
    the bytes or the error. *)
Class Helpers := {
  pascalCase : string -> string;
  goDocComment : list string -> string;
  getBytesFromBytesValueNode : string -> string -> result (list N);
  JSON_stringify : string -> string
}.
Arguments Ok {A} a.
Arguments Throw {A} e.

(* ===================================================================== *)
(** ** The schema trees *)
(* ===================================================================== *)

Inductive Endian := le | be.

Record NumberTypeNode := mkNumber { format : string; endian : Endian }.

Inductive CountNode :=
| fixedCountNode (value : N)
| prefixedCountNode (prefix : NumberTypeNode)
| remainderCountNode.

(** The nodes the type manifest visitor has a method for.  [visit]
    dispatches on the node's kind, so fields, variants and types share one
    type, as they share the [Node] union in the sources.  The [size] of a
    boolean and the [prefix] of a size-prefix node are given as the number
    node [resolveNestedTypeNode] finds in them.  The kinds the visitor
    leaves to the default of [mergeVisitor] (amounts, date-times, offsets,
    sentinels, hidden prefixes and suffixes) are not part of the tree. *)
Inductive Node :=
| accountNode (name : string) (data : Node)
| arrayTypeNode (item : Node) (count : CountNode)
| booleanTypeNode (size : NumberTypeNode)
| bytesTypeNode
| definedTypeNode (name : string) (type : Node)
| definedTypeLinkNode (name : string)
| enumEmptyVariantTypeNode (name : string)
| enumStructVariantTypeNode (name : string) (struct : Node)
| enumTupleVariantTypeNode (name : string) (tuple : Node)
| enumTypeNode (variants : list Node)
| fixedSizeTypeNode (type : Node) (size : N)
| mapTypeNode (key value : Node)
| numberTypeNode (format : string) (endian : Endian)
| optionTypeNode (item : Node)
| publicKeyTypeNode
| remainderOptionTypeNode (item : Node)
| setTypeNode (item : Node)
| sizePrefixTypeNode (type : Node) (prefix : NumberTypeNode)
| stringTypeNode (encoding : string)
| structFieldTypeNode (name : string) (docs : list string) (type : Node)
| structTypeNode (fields : list Node)
| tupleTypeNode (items : list Node)
| zeroableOptionTypeNode (item : Node).

(** [isNode(node, 'enumEmptyVariantTypeNode')] and the like *)
Definition isEnumEmptyVariant (n : Node) : bool :=
  match n with enumEmptyVariantTypeNode _ => true | _ => false end.

Definition isEnumOrStruct (n : Node) : bool :=
  match n with enumTypeNode _ | structTypeNode _ => true | _ => false end.

Definition isOptionTypeNode (n : Node) : bool :=
  match n with optionTypeNode _ => true | _ => false end.

(** [isScalarEnum] of [@codama/nodes]: every variant is an empty variant. *)
Definition isScalarEnum (variants : list Node) : bool :=
  forallb isEnumEmptyVariant variants.

Inductive ValueNode :=
| arrayValueNode (items : list ValueNode)
| booleanValueNode (boolean : bool)
| bytesValueNode (encoding : string) (data : string)
| constantValueNode (type : Node) (value : ValueNode)
| enumValueNode (enum : string) (variant : string) (value : option ValueNode)
| mapEntryValueNode (key value : ValueNode)
| mapValueNode (entries : list ValueNode)
| noneValueNode
| numberValueNode (number : Z)
| publicKeyValueNode (publicKey : string)
| setValueNode (items : list ValueNode)
| someValueNode (value : ValueNode)
| stringValueNode (string_ : string)
| structFieldValueNode (name : string) (value : ValueNode)
| structValueNode (fields : list ValueNode)
| tupleValueNode (items : list ValueNode).

(* ===================================================================== *)
(** ** getTypeManifestVisitor.ts *)
(* ===================================================================== *)

Module TypeManifest.

Record t := mk {
  imports : ImportMap.t;
  nestedStructs : list string;
  type : string
}.

(** [{ ...manifest, type: ty }] *)
Definition withType (m : t) (ty : string) : t :=
  mk (imports m) (nestedStructs m) ty.

(** [mergeManifests] returns the two merged fields. *)
Definition mergeManifests (manifests : list t) : ImportMap.t * list string :=
  (ImportMap.mergeWith ImportMap.new (map imports manifests),
   flat_map nestedStructs manifests).

End TypeManifest.

Definition NUMBER_FORMAT_MAP : list (string * string) :=
  [ ("f32", "float32");
    ("f64", "float64");
    ("i8", "int8");
    ("i16", "int16");
    ("i32", "int32");
    ("i64", "int64");
    ("i128", "ag_binary.Int128");
    ("u8", "uint8");
    ("u16", "uint16");
    ("u32", "uint32");
    ("u64", "uint64");
    ("u128", "ag_binary.Uint128");
    ("shortU16", "uint16") ].

(** [parentSize: NumberTypeNode | number | null] *)
Inductive ParentSize :=
| PSNull
| PSNumber (n : N)
| PSNode (node : NumberTypeNode).

(** The closure variables of [getTypeManifestVisitor]. *)
Record Ctx := mkCtx {
  parentName : option string;
  nestedStruct : bool;
  inlineStruct : bool;
  parentSize : ParentSize;
  isOptionField : bool
}.

(** [getTypeManifestVisitor({ nestedStruct, parentName })]: the initial
    values of the closure variables. *)
Definition initCtx (optParentName : option string) (optNestedStruct : option bool) : Ctx :=
  mkCtx optParentName
        (match optNestedStruct with Some b => b | None => false end)
        false PSNull false.

(** A visitor method: it reads and writes the closure variables and either
    returns or throws; a throw leaves the variables as they are. *)
Definition M (A : Type) : Type := Ctx -> Ctx * result A.

Definition ret {A} (a : A) : M A := fun c => (c, Ok a).
Definition throw {A} (e : Error) : M A := fun c => (c, Throw e).
Definition bind {A B} (m : M A) (f : A -> M B) : M B :=
  fun c => match m c with
           | (c', Ok a) => f a c'
           | (c', Throw e) => (c', Throw e)
           end.
Definition gets {A} (f : Ctx -> A) : M A := fun c => (c, Ok (f c)).
Definition modify (f : Ctx -> Ctx) : M unit := fun c => (f c, Ok tt).

Declare Scope visitor_scope.
Delimit Scope visitor_scope with visitor.
Notation "x <- m ;; k" := (bind m (fun x => k))
  (at level 61, m at next level, right associativity) : visitor_scope.
Notation "m ;; k" := (bind m (fun _ => k))
  (at level 61, right associativity) : visitor_scope.

(** Assignments to the closure variables. *)
Definition withParentName (v : option string) (c : Ctx) : Ctx :=
  mkCtx v (nestedStruct c) (inlineStruct c) (parentSize c) (isOptionField c).
Definition withNestedStruct (v : bool) (c : Ctx) : Ctx :=
  mkCtx (parentName c) v (inlineStruct c) (parentSize c) (isOptionField c).
Definition withInlineStruct (v : bool) (c : Ctx) : Ctx :=
  mkCtx (parentName c) (nestedStruct c) v (parentSize c) (isOptionField c).
Definition withParentSize (v : ParentSize) (c : Ctx) : Ctx :=
  mkCtx (parentName c) (nestedStruct c) (inlineStruct c) v (isOptionField c).
Definition withIsOptionField (v : bool) (c : Ctx) : Ctx :=
  mkCtx (parentName c) (nestedStruct c) (inlineStruct c) (parentSize c) v.

Definition set_parentName (v : option string) : M unit := modify (withParentName v).
Definition set_nestedStruct (v : bool) : M unit := modify (withNestedStruct v).
Definition set_inlineStruct (v : bool) : M unit := modify (withInlineStruct v).
Definition set_parentSize (v : ParentSize) : M unit := modify (withParentSize v).
Definition set_isOptionField (v : bool) : M unit := modify (withIsOptionField v).

(** [xs.map(x => visit(x, self))]: left to right, stopping at the first
    throw. *)
Definition mapM {A B} (f : A -> M B) : list A -> M (list B) :=
  fix go (xs : list A) : M (list B) :=
    match xs with
    | [] => ret []
    | x :: xs' =>
        bind (f x) (fun y => bind (go xs') (fun ys => ret (y :: ys)))
    end.

(** [!originalParentName] holds for [null] and for the empty string. *)
Definition truthyName (n : option string) : option string :=
  match n with
  | None => None
  | Some s => if String.eqb s "" then None else Some s
  end.

Section TypeManifestVisitor.

Context {helpers : Helpers}.

Local Open Scope visitor_scope.

Import TypeManifest.

Definition emptyManifest (ty : string) : TypeManifest.t :=
  TypeManifest.mk ImportMap.new [] ty.

Definition visitAccount (name : string) (visitData : M TypeManifest.t)
  : M TypeManifest.t :=
  set_parentName (Some (pascalCase name)) ;;
  manifest <- visitData ;;
  set_parentName None ;;
  ret manifest.

Definition visitArrayType (count : CountNode) (visitItem : M TypeManifest.t)
  : M TypeManifest.t :=
  childManifest <- visitItem ;;
  match count with
  | fixedCountNode value =>
      ret (withType childManifest
             ("[" ++ JS.N_toString value ++ "]" ++ type childManifest))
  | _ =>
      ret (withType childManifest ("[]" ++ type childManifest))
  end.

Definition visitBooleanType (size : NumberTypeNode) : M TypeManifest.t :=
  let resolvedSize := size in
  if (String.eqb (format resolvedSize) "u8" &&
      match endian resolvedSize with le => true | be => false end)%bool
  then ret (emptyManifest "bool")
  else throw (JsError "Bool size not supported by Borsh").

Definition visitNumberType (format : string) (endian : Endian)
  : M TypeManifest.t :=
  match endian with
  | be => throw (JsError "Number endianness not supported by Borsh")
  | le =>
      match JS.Map_get NUMBER_FORMAT_MAP format with
      | None => throw (JsError ("Number format not supported: " ++ format))
      | Some goType =>
          let imports := ImportMap.new in
          let imports :=
            if JS.startsWith goType "ag_binary."
            then ImportMap.add1 imports "github.com/gagliardetto/binary"
            else imports in
          ret (TypeManifest.mk imports [] goType)
      end
  end.

(** [visitBytesType] builds [arrayTypeNode(numberTypeNode('u8'), arraySize)]
    and visits it: [visitArrayType] on that count, its item visited by
    [visitNumberType] ([numberTypeNode('u8')] is little-endian). *)
Definition visitBytesType : M TypeManifest.t :=
  ps <- gets parentSize ;;
  let arraySize :=
    match ps with
    | PSNumber n => fixedCountNode n
    | PSNode node => prefixedCountNode node
    | PSNull => remainderCountNode
    end in
  visitArrayType arraySize (visitNumberType "u8" le).

Definition visitDefinedType (name : string) (typeNode : Node)
    (visitType : M TypeManifest.t) : M TypeManifest.t :=
  set_parentName (Some (pascalCase name)) ;;
  manifest <- visitType ;;
  set_parentName None ;;
  let renderedType :=
    if isEnumOrStruct typeNode then type manifest
    else "type " ++ pascalCase name ++ " = " ++ type manifest in
  ret (withType manifest renderedType).

Definition visitDefinedTypeLink (name : string) : M TypeManifest.t :=
  let pascalCaseDefinedType := pascalCase name in
  ret (emptyManifest pascalCaseDefinedType).

Definition visitEnumEmptyVariantType (name : string) : M TypeManifest.t :=
  ret (emptyManifest (pascalCase name)).

Definition visitEnumStructVariantType (variantName : string)
    (visitStruct : M TypeManifest.t) : M TypeManifest.t :=
  let name := pascalCase variantName in
  originalParentName <- gets parentName ;;
  match truthyName originalParentName with
  | None => throw (JsError "Enum struct variant type must have a parent name.")
  | Some opn =>
      set_inlineStruct true ;;
      set_parentName (Some (pascalCase opn ++ name)) ;;
      typeManifest <- visitStruct ;;
      set_inlineStruct false ;;
      set_parentName originalParentName ;;
      ret (withType typeManifest (name ++ " " ++ type typeManifest))
  end.

Definition visitEnumTupleVariantType (variantName : string)
    (visitTuple : M TypeManifest.t) : M TypeManifest.t :=
  let name := pascalCase variantName in
  originalParentName <- gets parentName ;;
  match truthyName originalParentName with
  | None => throw (JsError "Enum tuple variant type must have a parent name.")
  | Some opn =>
      set_parentName (Some (pascalCase opn ++ name)) ;;
      childManifest <- visitTuple ;;
      set_parentName originalParentName ;;
      ret (withType childManifest (name ++ " " ++ type childManifest))
  end.

(** The lines of the [const ( ... )] block of a scalar enum. *)
Definition constLines (typeName : string) (variants : list TypeManifest.t)
  : list string :=
  JS.mapi (fun variant index =>
             let variantName := typeName ++ "_" ++ type variant in
             if Nat.eqb index 0
             then JS.tab ++ variantName ++ " " ++ typeName ++ " = iota"
             else JS.tab ++ variantName)
          variants.

Definition visitEnumType (variantNodes : list Node)
    (visitVariants : M (list TypeManifest.t)) : M TypeManifest.t :=
  originalParentName <- gets parentName ;;
  match truthyName originalParentName with
  | None => throw (JsError "Enum type must have a parent name.")
  | Some opn =>
      let typeName := pascalCase opn in
      if isScalarEnum variantNodes then
        variants <- visitVariants ;;
        let mergedManifest := mergeManifests variants in
        let typeDecl := "type " ++ typeName ++ " uint8" in
        let constDecl :=
          "const (" ++ JS.nl ++ JS.join JS.nl (constLines typeName variants)
                    ++ JS.nl ++ ")" in
        ret (TypeManifest.mk (fst mergedManifest) (snd mergedManifest)
               (typeDecl ++ JS.nl ++ JS.nl ++ constDecl))
      else
        variants <- visitVariants ;;
        let mergedManifest := mergeManifests variants in
        let mergedImports :=
          ImportMap.add1 (fst mergedManifest) "github.com/gagliardetto/binary" in
        let fieldLines :=
          (JS.tab ++ "Enum ag_binary.BorshEnum `borsh_enum:" ++ JS.dq ++ "true"
                  ++ JS.dq ++ "`")
          :: map (fun variant => JS.tab ++ type variant) variants in
        ret (TypeManifest.mk mergedImports (snd mergedManifest)
               ("type " ++ typeName ++ " struct {" ++ JS.nl
                        ++ JS.join JS.nl fieldLines ++ JS.nl ++ "}"))
  end.

Definition visitFixedSizeType (size : N) (visitType : M TypeManifest.t)
  : M TypeManifest.t :=
  set_parentSize (PSNumber size) ;;
  manifest <- visitType ;;
  set_parentSize PSNull ;;
  ret manifest.

Definition visitMapType (visitKey visitValue : M TypeManifest.t)
  : M TypeManifest.t :=
  key <- visitKey ;;
  value <- visitValue ;;
  let mergedManifest := mergeManifests [key; value] in
  ret (TypeManifest.mk (fst mergedManifest) (snd mergedManifest)
         ("map[" ++ type key ++ "]" ++ type value)).

Definition visitOptionType (visitItem : M TypeManifest.t) : M TypeManifest.t :=
  set_isOptionField true ;;
  childManifest <- visitItem ;;
  set_isOptionField false ;;
  ret (withType childManifest ("*" ++ type childManifest)).

Definition visitPublicKeyType : M TypeManifest.t :=
  ret (TypeManifest.mk
         (ImportMap.add1 ImportMap.new "github.com/gagliardetto/solana-go")
         [] "ag_solanago.PublicKey").

Definition visitRemainderOptionType : M TypeManifest.t :=
  throw (UnsupportedNode "remainderOptionTypeNode").

Definition visitSetType (visitItem : M TypeManifest.t) : M TypeManifest.t :=
  childManifest <- visitItem ;;
  ret (withType childManifest ("map[" ++ type childManifest ++ "]struct{}")).

Definition visitSizePrefixType (prefix : NumberTypeNode)
    (visitType : M TypeManifest.t) : M TypeManifest.t :=
  set_parentSize (PSNode prefix) ;;
  manifest <- visitType ;;
  set_parentSize PSNull ;;
  ret manifest.

(** [!parentSize] holds for [null] and for the number 0. *)
Definition visitStringType : M TypeManifest.t :=
  ps <- gets parentSize ;;
  match ps with
  | PSNull => ret (emptyManifest "string")
  | PSNumber n =>
      if N.eqb n 0 then ret (emptyManifest "string")
      else ret (emptyManifest ("[" ++ JS.N_toString n ++ "]byte"))
  | PSNode _ => ret (emptyManifest "string")
  end.

Definition visitStructFieldType (name : string) (docs : list string)
    (visitType : M TypeManifest.t) : M TypeManifest.t :=
  originalParentName <- gets parentName ;;
  originalInlineStruct <- gets inlineStruct ;;
  originalNestedStruct <- gets nestedStruct ;;
  match truthyName originalParentName with
  | None => throw (JsError "Struct field type must have a parent name.")
  | Some opn =>
      set_parentName (Some (pascalCase opn ++ pascalCase name)) ;;
      set_nestedStruct true ;;
      set_inlineStruct false ;;
      fieldManifest <- visitType ;;
      set_parentName originalParentName ;;
      set_inlineStruct originalInlineStruct ;;
      set_nestedStruct originalNestedStruct ;;
      let fieldName := pascalCase name in
      let docblock := goDocComment docs in
      opt <- gets isOptionField ;;
      tags <- (if opt : bool
               then set_isOptionField false ;;
                    ret ["bin:" ++ JS.dq ++ "optional" ++ JS.dq]
               else ret []) ;;
      let tagStr :=
        if Nat.ltb 0 (List.length tags)
        then " `" ++ JS.join " " tags ++ "`" else "" in
      ret (withType fieldManifest
             (docblock ++ JS.tab ++ fieldName ++ " " ++ type fieldManifest
                       ++ tagStr))
  end.

Definition visitStructType (visitFields : M (list TypeManifest.t))
  : M TypeManifest.t :=
  originalParentName <- gets parentName ;;
  match truthyName originalParentName with
  | None => throw (JsError "Struct type must have a parent name.")
  | Some opn =>
      fields <- visitFields ;;
      let fieldTypes := JS.join JS.nl (map type fields) in
      let mergedManifest := mergeManifests fields in
      nested <- gets nestedStruct ;;
      inline <- gets inlineStruct ;;
      if nested : bool then
        ret (TypeManifest.mk (fst mergedManifest)
               (app (snd mergedManifest)
                    ["type " ++ pascalCase opn ++ " struct {" ++ JS.nl
                             ++ fieldTypes ++ JS.nl ++ "}"])
               (pascalCase opn))
      else if inline : bool then
        ret (TypeManifest.mk (fst mergedManifest) (snd mergedManifest)
               ("struct {" ++ JS.nl ++ fieldTypes ++ JS.nl ++ "}"))
      else
        ret (TypeManifest.mk (fst mergedManifest) (snd mergedManifest)
               ("type " ++ pascalCase opn ++ " struct {" ++ JS.nl
                        ++ fieldTypes ++ JS.nl ++ "}"))
  end.

Definition visitTupleType (visitItems : M (list TypeManifest.t))
  : M TypeManifest.t :=
  items <- visitItems ;;
  let mergedManifest := mergeManifests items in
  match items with
  | [item0] =>
      ret (TypeManifest.mk (fst mergedManifest) (snd mergedManifest) (type item0))
  | _ =>
      let fieldLines :=
        JS.mapi (fun item i =>
                   JS.tab ++ "Field" ++ JS.N_toString (N.of_nat i) ++ " "
                          ++ type item)
                items in
      ret (TypeManifest.mk (fst mergedManifest) (snd mergedManifest)
             ("struct {" ++ JS.nl ++ JS.join JS.nl fieldLines ++ JS.nl ++ "}"))
  end.

Definition visitZeroableOptionType : M TypeManifest.t :=
  throw (UnsupportedNode "zeroableOptionTypeNode").

(** [visit(node, self)]: dispatch on the kind of the node. *)
Fixpoint visit (node : Node) : M TypeManifest.t :=
  match node with
  | accountNode name data => visitAccount name (visit data)
  | arrayTypeNode item count => visitArrayType count (visit item)
  | booleanTypeNode size => visitBooleanType size
  | bytesTypeNode => visitBytesType
  | definedTypeNode name ty => visitDefinedType name ty (visit ty)
  | definedTypeLinkNode name => visitDefinedTypeLink name
  | enumEmptyVariantTypeNode name => visitEnumEmptyVariantType name
  | enumStructVariantTypeNode name struct =>
      visitEnumStructVariantType name (visit struct)
  | enumTupleVariantTypeNode name tuple =>
      visitEnumTupleVariantType name (visit tuple)
  | enumTypeNode variants => visitEnumType variants (mapM visit variants)
  | fixedSizeTypeNode ty size => visitFixedSizeType size (visit ty)
  | mapTypeNode key value => visitMapType (visit key) (visit value)
  | numberTypeNode format endian => visitNumberType format endian
  | optionTypeNode item => visitOptionType (visit item)
  | publicKeyTypeNode => visitPublicKeyType
  | remainderOptionTypeNode _ => visitRemainderOptionType
  | setTypeNode item => visitSetType (visit item)
  | sizePrefixTypeNode ty prefix => visitSizePrefixType prefix (visit ty)
  | stringTypeNode _ => visitStringType
  | structFieldTypeNode name docs ty => visitStructFieldType name docs (visit ty)
  | structTypeNode fields => visitStructType (mapM visit fields)
  | tupleTypeNode items => visitTupleType (mapM visit items)
  | zeroableOptionTypeNode _ => visitZeroableOptionType
  end.

End TypeManifestVisitor.

(** *** What a visit leaves in the closure variables *)

(** No [accountNode] and no [definedTypeNode] occurs in the tree: the tree
    is a type, a field or a variant. *)
Fixpoint isTypeTree (node : Node) : bool :=
  match node with
  | accountNode _ _ | definedTypeNode _ _ => false
  | arrayTypeNode item _ => isTypeTree item
  | enumStructVariantTypeNode _ struct => isTypeTree struct
  | enumTupleVariantTypeNode _ tuple => isTypeTree tuple
  | enumTypeNode variants => forallb isTypeTree variants
  | fixedSizeTypeNode ty _ => isTypeTree ty
  | mapTypeNode key value => (isTypeTree key && isTypeTree value)%bool
  | optionTypeNode item => isTypeTree item
  | remainderOptionTypeNode item => isTypeTree item
  | setTypeNode item => isTypeTree item
  | sizePrefixTypeNode ty _ => isTypeTree ty
  | structFieldTypeNode _ _ ty => isTypeTree ty
  | structTypeNode fields => forallb isTypeTree fields
  | tupleTypeNode items => forallb isTypeTree items
  | zeroableOptionTypeNode item => isTypeTree item
  | booleanTypeNode _ | bytesTypeNode | definedTypeLinkNode _
  | enumEmptyVariantTypeNode _ | numberTypeNode _ _ | publicKeyTypeNode
  | stringTypeNode _ => true
  end.

(** [after] keeps [nestedStruct] of [before], and keeps each of the other
    variables that had its initial value ([null], [false]) in [before]. *)
Definition keepsDefaults (before after : Ctx) : Prop :=
  nestedStruct after = nestedStruct before
  /\ (parentName before = None -> parentName after = None)
  /\ (inlineStruct before = false -> inlineStruct after = false)
  /\ (parentSize before = PSNull -> parentSize after = PSNull)
  /\ (isOptionField before = false -> isOptionField after = false).

(** What a normal return of [visit node] guarantees about the closure
    variables. *)
Definition Framed {helpers : Helpers} (node : Node) : Prop :=
  forall c c' m,
    visit node c = (c', Ok m) ->
    keepsDefaults c c' /\ (isTypeTree node = true -> parentName c' = parentName c).

Definition isStructField (node : Node) : bool :=
  match node with structFieldTypeNode _ _ _ => true | _ => false end.

(** *** What a data enum emits, variant by variant *)







(* ===================================================================== *)
(** ** renderValueNodeVisitor.ts *)
(* ===================================================================== *)

Module ValueManifest.

Record t := mk {
  imports : ImportMap.t;
  render : string
}.

End ValueManifest.

(** The value visitor has no closure variables: a method returns or throws. *)
Definition rbind {A B} (r : result A) (f : A -> result B) : result B :=
  match r with
  | Ok a => f a
  | Throw e => Throw e
  end.

Definition mapR {A B} (f : A -> result B) : list A -> result (list B) :=
  fix go (xs : list A) : result (list B) :=
    match xs with
    | [] => Ok []
    | x :: xs' => rbind (f x) (fun y => rbind (go xs') (fun ys => Ok (y :: ys)))
    end.

Section RenderValueNodeVisitor.

Context {helpers : Helpers}.

Import ValueManifest.

Definition mergedImports (list : list ValueManifest.t) : ImportMap.t :=
  ImportMap.mergeWith ImportMap.new (map imports list).

Definition visitArrayValue (list : list ValueManifest.t) : ValueManifest.t :=
  mk (mergedImports list)
     ("[]byte{" ++ JS.join ", " (map render list) ++ "}").

Definition visitBooleanValue (boolean : bool) : ValueManifest.t :=
  mk ImportMap.new (if boolean then "true" else "false").

Definition visitNumberValue (number : Z) : ValueManifest.t :=
  mk ImportMap.new (JS.Z_toString number).

(** [visitBytesValue] decodes the text (the decoder may throw), wraps
    every byte in a [numberValueNode] and visits the [arrayValueNode] of
    them. *)
Definition visitBytesValue (encoding data : string) : result ValueManifest.t :=
  rbind (getBytesFromBytesValueNode encoding data) (fun bytes =>
  let numbers := map Z.of_N bytes in
  Ok (visitArrayValue (map visitNumberValue numbers))).

Definition visitConstantNumber (format : string) (endian : Endian)
    (numberManifest : ValueManifest.t) : ValueManifest.t :=
  let goEndian := match endian with le => "LittleEndian" | be => "BigEndian" end in
  if String.eqb format "u8"
  then mk (imports numberManifest) ("byte(" ++ render numberManifest ++ ")")
  else mk (ImportMap.add1 (imports numberManifest) "encoding/binary")
          ("binary." ++ goEndian ++ ".AppendUint" ++ JS.slice format 1
                     ++ "(nil, " ++ render numberManifest ++ ")").

Definition visitConstantValue (ty : Node) (value : ValueNode)
  : result ValueManifest.t :=
  match value, ty with
  | bytesValueNode encoding data, _ => visitBytesValue encoding data
  | stringValueNode s, stringTypeNode encoding => visitBytesValue encoding s
  | numberValueNode number, numberTypeNode format endian =>
      Ok (visitConstantNumber format endian (visitNumberValue number))
  | _, _ => Throw (JsError "Unsupported constant value type.")
  end.

Definition visitEnumValue (enumLinkName variant : string)
    (visitedValue : option (result ValueManifest.t)) : result ValueManifest.t :=
  let imports := ImportMap.new in
  let enumName := pascalCase enumLinkName in
  let variantName := pascalCase variant in
  match visitedValue with
  | None => Ok (mk imports (enumName ++ "_" ++ variantName))
  | Some visited =>
      rbind visited (fun enumValue =>
        let fields := render enumValue in
        Ok (mk (ImportMap.mergeWith imports [ValueManifest.imports enumValue])
               (enumName ++ "_" ++ variantName ++ " " ++ fields)))
  end.

Definition visitMapEntryValue (mapKey mapValue : ValueManifest.t)
  : ValueManifest.t :=
  mk (ImportMap.mergeWith (imports mapKey) [imports mapValue])
     (render mapKey ++ ": " ++ render mapValue).

Definition visitMapValue (map_ : list ValueManifest.t) : ValueManifest.t :=
  mk (mergedImports map_)
     ("map[string]interface{}{" ++ JS.join ", " (map render map_) ++ "}").

Definition visitNoneValue : ValueManifest.t := mk ImportMap.new "nil".

Definition visitPublicKeyValue (publicKey : string) : ValueManifest.t :=
  mk (ImportMap.add1 ImportMap.new "github.com/gagliardetto/solana-go")
     ("ag_solanago.MustPublicKeyFromBase58(" ++ JS.dq ++ publicKey ++ JS.dq ++ ")").

Definition visitSetValue (set : list ValueManifest.t) : ValueManifest.t :=
  mk (mergedImports set)
     ("map[interface{}]struct{}{"
        ++ JS.join ", " (map (fun c => render c ++ ": {}") set) ++ "}").

Definition visitSomeValue (child : ValueManifest.t) : ValueManifest.t :=
  mk (imports child)
     ("func() *interface{} { v := " ++ render child ++ "; return &v }()").

Definition visitStringValue (s : string) : ValueManifest.t :=
  mk ImportMap.new (JSON_stringify s).

Definition visitStructFieldValue (name : string) (structValue : ValueManifest.t)
  : ValueManifest.t :=
  mk (imports structValue) (pascalCase name ++ ": " ++ render structValue).

Definition visitStructValue (struct : list ValueManifest.t) : ValueManifest.t :=
  mk (mergedImports struct) ("{" ++ JS.join ", " (map render struct) ++ "}").

Definition visitTupleValue (tuple : list ValueManifest.t) : ValueManifest.t :=
  mk (mergedImports tuple)
     (match tuple with
      | [c] => render c
      | _ => "[" ++ JS.join ", " (map render tuple) ++ "]"
      end).

(** [renderValueNode(value)] = [visit(value, renderValueNodeVisitor())] *)
Fixpoint renderValueNode (value : ValueNode) : result ValueManifest.t :=
  match value with
  | arrayValueNode items =>
      rbind (mapR renderValueNode items) (fun l => Ok (visitArrayValue l))
  | booleanValueNode b => Ok (visitBooleanValue b)
  | bytesValueNode encoding data => visitBytesValue encoding data
  | constantValueNode ty v => visitConstantValue ty v
  | enumValueNode enum variant v =>
      visitEnumValue enum variant (option_map renderValueNode v)
  | mapEntryValueNode k v =>
      rbind (renderValueNode k) (fun mapKey =>
      rbind (renderValueNode v) (fun mapValue =>
      Ok (visitMapEntryValue mapKey mapValue)))
  | mapValueNode entries =>
      rbind (mapR renderValueNode entries) (fun l => Ok (visitMapValue l))
  | noneValueNode => Ok visitNoneValue
  | numberValueNode n => Ok (visitNumberValue n)
  | publicKeyValueNode pk => Ok (visitPublicKeyValue pk)
  | setValueNode items =>
      rbind (mapR renderValueNode items) (fun l => Ok (visitSetValue l))
  | someValueNode v =>
      rbind (renderValueNode v) (fun child => Ok (visitSomeValue child))
  | stringValueNode s => Ok (visitStringValue s)
  | structFieldValueNode name v =>
      rbind (renderValueNode v) (fun sv => Ok (visitStructFieldValue name sv))
  | structValueNode fields =>
      rbind (mapR renderValueNode fields) (fun l => Ok (visitStructValue l))
  | tupleValueNode items =>
      rbind (mapR renderValueNode items) (fun l => Ok (visitTupleValue l))
  end.

End RenderValueNodeVisitor.

(** The type part of a composite literal: the text before its opening
    brace ([[]byte] in [[]byte{1, 2}]). *)
Fixpoint literalType (literal : string) : string :=
  match literal with
  | EmptyString => EmptyString
  | String ch rest =>
      if Ascii.eqb ch "{"%char then EmptyString else String ch (literalType rest)
  end.

(* ===================================================================== *)
(** ** getRenderMapVisitor.ts: instructions *)
(* ===================================================================== *)

Inductive DefaultValueStrategy := omitted | optional.

(** [argument.defaultValue]: a value node, or one of the contextual nodes
    ([accountValueNode], [pdaValueNode], ...) outside [VALUE_NODES]. *)
Inductive InstructionInputValueNode :=
| inputValue (value : ValueNode)
| inputContextual (kind : string).

Record InstructionAccountNode := mkAccountInput {
  account_name : string
}.

Record InstructionArgumentNode := mkArgument {
  argument_name : string;
  argument_type : Node;
  argument_docs : list string;
  argument_defaultValue : option InstructionInputValueNode;
  argument_defaultValueStrategy : option DefaultValueStrategy
}.

Inductive DiscriminatorNode :=
| constantDiscriminatorNode (constant : ValueNode) (offset : N)
| fieldDiscriminatorNode (name : string) (offset : N)
| sizeDiscriminatorNode (size : N).

Record InstructionNode := mkInstruction {
  instruction_name : string;
  instruction_accounts : list InstructionAccountNode;
  instruction_arguments : list InstructionArgumentNode;
  instruction_discriminators : list DiscriminatorNode
}.

(** One entry of [instructionArgs]. *)
Record InstructionArg := mkInstructionArg {
  arg_default : bool;
  arg_innerOptionType : option string;
  arg_name : string;
  arg_optional : bool;
  arg_type : string;
  arg_value : option string
}.

(** What [visitInstruction] hands to the page template, the import block
    still as an [ImportMap] (before [toString(dependencyMap)]). *)
Record InstructionPage := mkInstructionPage {
  page_discriminatorConstants : string;
  page_hasArgs : bool;
  page_hasOptional : bool;
  page_imports : ImportMap.t;
  page_instructionArgs : list InstructionArg;
  page_typeManifest : TypeManifest.t
}.

(** [a.indexOf(e) !== i], for the element [e] at position [i] *)
Definition notFirstAt (a : list string) (ei : string * nat) : bool :=
  match JS.indexOf a (fst ei) with
  | Some j => negb (Nat.eqb j (snd ei))
  | None => true
  end.

(** [xs.filter((e, i, a) => a.indexOf(e) !== i)] *)
Definition duplicatesOf (allNames : list string) : list string :=
  map fst (filter (notFirstAt allNames) (JS.mapi (fun e i => (e, i)) allNames)).

(** [[...new Set(xs)]] *)
Definition uniq (xs : list string) : list string :=
  fold_left (fun s x => JS.Set_add x s) xs [].

Definition getConflictsForInstructionAccountsAndArgs (instruction : InstructionNode)
  : list string :=
  let allNames :=
    app (map account_name (instruction_accounts instruction))
        (map argument_name (instruction_arguments instruction)) in
  let duplicates := duplicatesOf allNames in
  uniq duplicates.

Definition isOk {A} (r : result A) : bool :=
  match r with Ok _ => true | Throw _ => false end.

(** The instruction with its account list emptied. *)
Definition withoutAccounts (node : InstructionNode) : InstructionNode :=
  mkInstruction (instruction_name node) [] (instruction_arguments node)
                (instruction_discriminators node).

Section RenderMapVisitor.

Context {helpers : Helpers}.

(** [getDiscriminatorConstants] of [./utils], at the discriminators, the
    fields and the prefix it is called with. *)
Variable getDiscriminatorConstants :
  list DiscriminatorNode -> list InstructionArgumentNode -> string ->
  result ValueManifest.t.

Definition conflictWarning (name : string) (conflicts : list string) : string :=
  "[Go] Accounts and args of instruction [" ++ name ++ "] have the following "
    ++ "conflicting attributes [" ++ JS.join ", " conflicts ++ "]. "
    ++ "Thus, the conflicting arguments will be suffixed with " ++ JS.dq
    ++ "Arg" ++ JS.dq ++ ". "
    ++ "You may want to rename the conflicting attributes.".

(** The name an argument is rendered under. *)
Definition renderedArgumentName (accountsAndArgsConflicts : list string)
    (argument : InstructionArgumentNode) : string :=
  if JS.includes accountsAndArgsConflicts (argument_name argument)
  then argument_name argument ++ "Arg"
  else argument_name argument.

(** [structTypeNodeFromInstructionArgumentNodes] of [@codama/nodes] *)
Definition structTypeNodeFromInstructionArgumentNodes
    (arguments : list InstructionArgumentNode) : Node :=
  structTypeNode
    (map (fun a => structFieldTypeNode (argument_name a) (argument_docs a)
                                       (argument_type a))
         arguments).

(** The variables the [forEach] over the arguments updates. *)
Record ArgsLoop := mkArgsLoop {
  loop_imports : ImportMap.t;
  loop_instructionArgs : list InstructionArg;
  loop_hasArgs : bool;
  loop_hasOptional : bool
}.

Definition isOmitted (s : option DefaultValueStrategy) : bool :=
  match s with Some omitted => true | _ => false end.

(** The body of [node.arguments.forEach(argument => ...)]. *)
Definition argumentStep (nodeName : string) (accountsAndArgsConflicts : list string)
    (acc : ArgsLoop) (argument : InstructionArgumentNode) : result ArgsLoop :=
  let argumentVisitor :=
    initCtx (Some (pascalCase nodeName ++ "InstructionData")) (Some true) in
  match snd (visit (argument_type argument) argumentVisitor) with
  | Throw e => Throw e
  | Ok manifest =>
      let imports :=
        ImportMap.mergeWith (loop_imports acc) [TypeManifest.imports manifest] in
      let innerOptionType :=
        if isOptionTypeNode (argument_type argument)
        then Some (JS.slice (TypeManifest.type manifest) 1)
        else None in
      let rendered :=
        match argument_defaultValue argument with
        | Some (inputValue v) => Some (renderValueNode v)
        | _ => None
        end in
      let hasDefaultValue :=
        match rendered with Some _ => true | None => false end in
      rbind
        (match rendered with
         | Some r =>
             rbind r (fun vm =>
               Ok (ImportMap.mergeWith imports [ValueManifest.imports vm],
                   Some (ValueManifest.render vm)))
         | None => Ok (imports, None)
         end)
        (fun '(imports, renderValue) =>
           let strategy := argument_defaultValueStrategy argument in
           let hasArgs := (loop_hasArgs acc || negb (isOmitted strategy))%bool in
           let hasOptional :=
             (loop_hasOptional acc
              || (hasDefaultValue && negb (isOmitted strategy)))%bool in
           let name := renderedArgumentName accountsAndArgsConflicts argument in
           Ok (mkArgsLoop imports
                 (app (loop_instructionArgs acc)
                      [mkInstructionArg
                         (hasDefaultValue && isOmitted strategy)%bool
                         innerOptionType
                         name
                         (hasDefaultValue && negb (isOmitted strategy))%bool
                         (TypeManifest.type manifest)
                         renderValue])
                 hasArgs hasOptional))
  end.

Fixpoint forEachArgument (nodeName : string) (conflicts : list string)
    (arguments : list InstructionArgumentNode) (acc : ArgsLoop) : result ArgsLoop :=
  match arguments with
  | [] => Ok acc
  | argument :: rest =>
      rbind (argumentStep nodeName conflicts acc argument)
            (forEachArgument nodeName conflicts rest)
  end.

(** [visitInstruction]: the warnings passed to [logWarn], and the template
    context or the error thrown. *)
Definition visitInstruction (node : InstructionNode)
  : list string * result InstructionPage :=
  let imports := ImportMap.new in
  let imports := ImportMap.add1 imports "github.com/gagliardetto/solana-go" in
  let imports := ImportMap.add1 imports "github.com/gagliardetto/binary" in
  let imports :=
    if Nat.ltb 0 (List.length (instruction_accounts node))
    then ImportMap.add1 imports "fmt" else imports in
  let accountsAndArgsConflicts := getConflictsForInstructionAccountsAndArgs node in
  let warnings :=
    if Nat.ltb 0 (List.length accountsAndArgsConflicts)
    then [conflictWarning (instruction_name node) accountsAndArgsConflicts]
    else [] in
  (warnings,
   rbind (getDiscriminatorConstants (instruction_discriminators node)
            (instruction_arguments node) (instruction_name node))
     (fun discriminatorConstants =>
   rbind (forEachArgument (instruction_name node) accountsAndArgsConflicts
            (instruction_arguments node)
            (mkArgsLoop imports [] false false))
     (fun loop =>
   let struct :=
     structTypeNodeFromInstructionArgumentNodes (instruction_arguments node) in
   let structVisitor :=
     initCtx (Some (pascalCase (instruction_name node) ++ "InstructionData")) None in
   match snd (visit struct structVisitor) with
   | Throw e => Throw e
   | Ok typeManifest =>
       Ok (mkInstructionPage
             (ValueManifest.render discriminatorConstants)
             (loop_hasArgs loop)
             (loop_hasOptional loop)
             (ImportMap.mergeWith (loop_imports loop)
                [ValueManifest.imports discriminatorConstants])
             (loop_instructionArgs loop)
             typeManifest)
   end))).

End RenderMapVisitor.

(* ===================================================================== *)
(** ** An instance of the helpers, for running the embedding *)
(* ===================================================================== *)

Module GoHelpers.

Definition isUpper (c : ascii) : bool :=
  let n := nat_of_ascii c in (Nat.leb 65 n && Nat.leb n 90)%bool.
Definition isLower (c : ascii) : bool :=
  let n := nat_of_ascii c in (Nat.leb 97 n && Nat.leb n 122)%bool.
Definition isDigit (c : ascii) : bool :=
  let n := nat_of_ascii c in (Nat.leb 48 n && Nat.leb n 57)%bool.
Definition toUpper (c : ascii) : ascii :=
  if isLower c then ascii_of_nat (nat_of_ascii c - 32) else c.

(** [pascalCase] of [@codama/nodes] on ASCII text: a word starts at every
    capital and after every run of characters outside [a-zA-Z0-9]; the
    first character of a word is upper-cased, the words are joined. *)
Fixpoint pascalScan (atWordStart : bool) (s : string) : string :=
  match s with
  | EmptyString => EmptyString
  | String c s' =>
      if isUpper c then String c (pascalScan false s')
      else if isLower c
           then String (if atWordStart then toUpper c else c) (pascalScan false s')
      else if isDigit c then String c (pascalScan false s')
      else pascalScan true s'
  end.

(** A doc block: one [//] line per doc string, nothing for no docs. *)
Definition docComment (docs : list string) : string :=
  String.concat "" (map (fun d => "// " ++ d ++ JS.nl) docs).

Definition isHexDigit (c : ascii) : bool :=
  let n := nat_of_ascii c in
  (isDigit c || (Nat.leb 97 n && Nat.leb n 102) || (Nat.leb 65 n && Nat.leb n 70))%bool.

Definition hexDigit (c : ascii) : N :=
  let n := N_of_ascii c in
  if isDigit c then (n - 48)%N
  else if isLower c then (n - 87)%N
  else (n - 55)%N.

(** The bytes of a [base16] text: two hex digits per byte; a character
    that is no hex digit, or a digit left alone at the end, is an error. *)
Fixpoint base16 (s : string) : result (list N) :=
  match s with
  | EmptyString => Ok []
  | String h (String l s') =>
      if (isHexDigit h && isHexDigit l)%bool
      then rbind (base16 s') (fun bytes =>
             Ok ((16 * hexDigit h + hexDigit l)%N :: bytes))
      else Throw (JsError "Invalid value for base 16.")
  | String _ EmptyString => Throw (JsError "Invalid value for base 16.")
  end.

(** A decoder for running the embedding: [base16] as above, any other
    encoding read one byte per ASCII character. *)
Definition bytesOf (encoding data : string) : result (list N) :=
  if String.eqb encoding "base16" then base16 data
  else Ok (map N_of_ascii (list_ascii_of_string data)).

(** [JSON.stringify] on a string without characters to escape. *)
Definition quote (s : string) : string := JS.dq ++ s ++ JS.dq.

Definition instance : Helpers :=
  {| pascalCase := pascalScan true;
     goDocComment := docComment;
     getBytesFromBytesValueNode := bytesOf;
     JSON_stringify := quote |}.

(** An instruction without discriminators has no discriminator
    constants. *)
Definition noDiscriminatorConstants
    (_ : list DiscriminatorNode) (_ : list InstructionArgumentNode) (_ : string)
  : result ValueManifest.t :=
  Ok (ValueManifest.mk ImportMap.new "").

End GoHelpers.

(* ===================================================================== *)
(** ** Sample schemas *)
(* ===================================================================== *)

Module Examples.

Definition u8 : Node := numberTypeNode "u8" le.

(** [Point = struct { x: u8, y: option<u8> }] *)
Definition point : Node :=
  definedTypeNode "point"
    (structTypeNode
       [ structFieldTypeNode "x" [] u8;
         structFieldTypeNode "y" [] (optionTypeNode u8) ]).

(** [Holder = struct { inner: option<struct { a: u8, b: u8 }> }] *)
Definition holder : Node :=
  definedTypeNode "holder"
    (structTypeNode
       [ structFieldTypeNode "inner" []
           (optionTypeNode
              (structTypeNode
                 [ structFieldTypeNode "a" [] u8;
                   structFieldTypeNode "b" [] u8 ])) ]).

(** [Shape = enum { Circle { radius: u8 } }], and a literal of it *)
Definition circleFields : list Node := [ structFieldTypeNode "radius" [] u8 ].






(** [Color = enum { Red, Green, Blue }] *)
Definition colorVariants : list Node :=
  [ enumEmptyVariantTypeNode "red";
    enumEmptyVariantTypeNode "green";
    enumEmptyVariantTypeNode "blue" ].

(** An instruction with the account [Authority] and the argument
    [Authority]. *)
Definition transfer : InstructionNode :=
  mkInstruction "transfer"
    [ mkAccountInput "Authority" ]
    [ mkArgument "Authority" u8 [] None None ]
    [].

(** An instruction that names two accounts alike. *)
Definition twoPayers : InstructionNode :=
  mkInstruction "settle"
    [ mkAccountInput "payer"; mkAccountInput "payer" ]
    [ mkArgument "amount" u8 [] None None ]
    [].

(** A field whose type is a big-endian number. *)
Definition bigEndianField : Node :=
  structFieldTypeNode "x" [] (numberTypeNode "u32" be).

(** The context inside a fixed-size wrapper of 4 under the name [P]. *)
Definition inFixedSize4 : Ctx := mkCtx (Some "P") false false (PSNumber 4) false.

End Examples.

(* ===================================================================== *)
(** ** ImportMap.ts: the rest of the class *)
(* ===================================================================== *)

(** The order of [Array.prototype.sort()] without a comparator, on ASCII
    text: strings compared code unit by code unit. *)
Module StringOrder <: Orders.TotalLeBool.
Definition t := string.
Definition leb (x y : string) : bool := String.leb x y.
Definition leb_total : forall x y, leb x y = true \/ leb y x = true :=
  String.leb_total.
End StringOrder.

Module StringSort := Mergesort.Sort StringOrder.

Module ImportMapText.

Import ImportMap.

(** [mergeWithManifest(manifest)] *)
Definition mergeWithManifest (this : t) (manifest : TypeManifest.t) : t :=
  mergeWith this [TypeManifest.imports manifest].

(** [imp.split('/')[0]] *)
Fixpoint firstSegment (imp : string) : string :=
  match imp with
  | EmptyString => EmptyString
  | String c rest =>
      if Ascii.eqb c "/" then EmptyString else String c (firstSegment rest)
  end.

(** [s.includes('.')] *)
Fixpoint includesDot (s : string) : bool :=
  match s with
  | EmptyString => false
  | String c rest => if Ascii.eqb c "." then true else includesDot rest
  end.

(** A value used as a condition: [undefined] and the empty string are
    falsy. *)
Definition truthy (v : option string) : option string :=
  match v with
  | Some s => if String.eqb s "" then None else Some s
  | None => None
  end.

(** [resolvedMap.aliases.get(imp) || GO_PACKAGE_ALIASES[imp]], then tested
    by [alias ? ... : ...]. *)
Definition aliasFor (resolvedMap : t) (imp : string) : option string :=
  match truthy (JS.Map_get (_aliases resolvedMap) imp) with
  | Some alias => Some alias
  | None => truthy (JS.Map_get GO_PACKAGE_ALIASES imp)
  end.

Definition importLine (resolvedMap : t) (imp : string) : string :=
  match aliasFor resolvedMap imp with
  | Some alias => JS.tab ++ alias ++ " " ++ JS.dq ++ imp ++ JS.dq
  | None => JS.tab ++ JS.dq ++ imp ++ JS.dq
  end.

(** Whether the line goes to [extImports]. *)
Definition isThirdParty (imp : string) : bool := includesDot (firstSegment imp).

(** The [for] loop of [toString] over the sorted imports: the pair is
    [(stdImports, extImports)]. *)
Definition splitImportLines (resolvedMap : t) (sortedImports : list string)
  : list string * list string :=
  fold_left
    (fun (acc : list string * list string) imp =>
       let importLine := importLine resolvedMap imp in
       if isThirdParty imp
       then (fst acc, app (snd acc) [importLine])
       else (app (fst acc) [importLine], snd acc))
    sortedImports ([], []).

Definition nonEmpty {A} (l : list A) : bool :=
  match l with [] => false | _ => true end.

(** [toString(dependencies)] *)
Definition toString (this : t) (dependencies : Obj) : string :=
  let resolvedMap := resolveDependencyMap this dependencies in
  if isEmpty resolvedMap then ""
  else
    let sortedImports := StringSort.sort (_imports resolvedMap) in
    let '(stdImports, extImports) := splitImportLines resolvedMap sortedImports in
    let groups := [] in
    let groups :=
      if nonEmpty stdImports then app groups [JS.join JS.nl stdImports] else groups in
    let groups :=
      if nonEmpty extImports then app groups [JS.join JS.nl extImports] else groups in
    if nonEmpty groups
    then "import (" ++ JS.nl ++ JS.join (JS.nl ++ JS.nl) groups ++ JS.nl ++ ")"
    else "".

(** What resolution keeps when no dependency map is given. *)
Definition keptByDefault (i : string) : bool :=
  (negb (matchesKey DEFAULT_MODULE_MAP i) && negb (String.eqb i ""))%bool.

End ImportMapText.

(* ===================================================================== *)
(** ** Predicates on schema trees and manifests *)
(* ===================================================================== *)

Definition isSome {A} (o : option A) : bool :=
  match o with Some _ => true | None => false end.

(** No node the visitor descends into is one it throws at where it
    stands: a number that is not little-endian or has an unknown format, a
    boolean whose size is not [u8] little-endian, a remainder option, a
    zeroable option.  (The prefix of a size-prefix wrapper and the count of
    an array are not visited and not looked at.) *)
Fixpoint supportedShapes (node : Node) : bool :=
  match node with
  | numberTypeNode format endian =>
      match endian with
      | le => isSome (JS.Map_get NUMBER_FORMAT_MAP format)
      | be => false
      end
  | booleanTypeNode size =>
      (String.eqb (format size) "u8"
       && match endian size with le => true | be => false end)%bool
  | remainderOptionTypeNode _ | zeroableOptionTypeNode _ => false
  | accountNode _ data => supportedShapes data
  | definedTypeNode _ ty => supportedShapes ty
  | arrayTypeNode item _ => supportedShapes item
  | enumStructVariantTypeNode _ struct => supportedShapes struct
  | enumTupleVariantTypeNode _ tuple => supportedShapes tuple
  | enumTypeNode variants => forallb supportedShapes variants
  | fixedSizeTypeNode ty _ => supportedShapes ty
  | mapTypeNode key value => (supportedShapes key && supportedShapes value)%bool
  | optionTypeNode item => supportedShapes item
  | setTypeNode item => supportedShapes item
  | sizePrefixTypeNode ty _ => supportedShapes ty
  | structFieldTypeNode _ _ ty => supportedShapes ty
  | structTypeNode fields => forallb supportedShapes fields
  | tupleTypeNode items => forallb supportedShapes items
  | bytesTypeNode | definedTypeLinkNode _ | enumEmptyVariantTypeNode _
  | publicKeyTypeNode | stringTypeNode _ => true
  end.

(** The tree has no node that needs a parent name: no struct, field, enum
    or variant, and no account or defined type. *)
Fixpoint nameFree (node : Node) : bool :=
  match node with
  | accountNode _ _ | definedTypeNode _ _ | enumEmptyVariantTypeNode _
  | enumStructVariantTypeNode _ _ | enumTupleVariantTypeNode _ _
  | enumTypeNode _ | structFieldTypeNode _ _ _ | structTypeNode _ => false
  | arrayTypeNode item _ => nameFree item
  | fixedSizeTypeNode ty _ => nameFree ty
  | mapTypeNode key value => (nameFree key && nameFree value)%bool
  | optionTypeNode item => nameFree item
  | remainderOptionTypeNode item => nameFree item
  | setTypeNode item => nameFree item
  | sizePrefixTypeNode ty _ => nameFree ty
  | tupleTypeNode items => forallb nameFree items
  | zeroableOptionTypeNode item => nameFree item
  | booleanTypeNode _ | bytesTypeNode | definedTypeLinkNode _
  | numberTypeNode _ _ | publicKeyTypeNode | stringTypeNode _ => true
  end.

(** The two packages type manifests refer to. *)
Definition manifestPackages : list string :=
  [ "github.com/gagliardetto/binary"; "github.com/gagliardetto/solana-go" ].

(** An import map with no alias, no repeated identifier, and identifiers
    among [packages] only. *)
Definition importsWithin (packages : list string) (i : ImportMap.t) : Prop :=
  NoDup (ImportMap._imports i)
  /\ ImportMap._aliases i = []
  /\ forall x, In x (ImportMap._imports i) -> In x packages.

(** The text is a named struct declaration. *)
Definition isStructDeclaration (d : string) : Prop :=
  exists name body,
    d = "type " ++ name ++ " struct {" ++ JS.nl ++ body ++ JS.nl ++ "}".

Section SupportedValues.

Context {helpers : Helpers}.

(** The decoder accepts the text in the encoding. *)
Definition decodes (encoding data : string) : bool :=
  isOk (getBytesFromBytesValueNode encoding data).

(** The constants [visitConstantValue] folds: a bytes value under any
    type and a string value under a string type, when the text decodes; a
    number value under a number type. *)
Definition supportedConstant (ty : Node) (value : ValueNode) : bool :=
  match value, ty with
  | bytesValueNode encoding data, _ => decodes encoding data
  | stringValueNode s, stringTypeNode encoding => decodes encoding s
  | numberValueNode _, numberTypeNode _ _ => true
  | _, _ => false
  end.

(** Every constant the value visitor reaches is one it folds, and every
    bytes value it reaches decodes.  (The value inside a constant is not
    visited as a value of its own.) *)
Fixpoint supportedValue (value : ValueNode) : bool :=
  match value with
  | constantValueNode ty v => supportedConstant ty v
  | bytesValueNode encoding data => decodes encoding data
  | arrayValueNode items => forallb supportedValue items
  | enumValueNode _ _ (Some v) => supportedValue v
  | enumValueNode _ _ None => true
  | mapEntryValueNode k v => (supportedValue k && supportedValue v)%bool
  | mapValueNode entries => forallb supportedValue entries
  | setValueNode items => forallb supportedValue items
  | someValueNode v => supportedValue v
  | structFieldValueNode _ v => supportedValue v
  | structValueNode fields => forallb supportedValue fields
  | tupleValueNode items => forallb supportedValue items
  | booleanValueNode _ | noneValueNode | numberValueNode _
  | publicKeyValueNode _ | stringValueNode _ => true
  end.

End SupportedValues.

(** The two packages value literals refer to. *)
Definition valuePackages : list string :=
  [ "github.com/gagliardetto/solana-go"; "encoding/binary" ].

(** ** Instruction arguments *)

(** The argument has a default value that is a value node. *)
Definition hasValueDefault (a : InstructionArgumentNode) : bool :=
  match argument_defaultValue a with
  | Some (inputValue _) => true
  | _ => false
  end.

(** The packages an instruction page can import on its own account. *)
Definition instructionPackages : list string :=
  [ "github.com/gagliardetto/solana-go"; "github.com/gagliardetto/binary";
    "fmt"; "encoding/binary" ].

(** All names of an instruction, accounts first. *)
Definition allNames (node : InstructionNode) : list string :=
  app (map account_name (instruction_accounts node))
      (map argument_name (instruction_arguments node)).

(** How an entry of [instructionArgs] relates to its argument. *)
Definition renderedFrom (a : InstructionArgumentNode) (r : InstructionArg) : Prop :=
  arg_default r = (hasValueDefault a && isOmitted (argument_defaultValueStrategy a))%bool
  /\ arg_optional r
     = (hasValueDefault a && negb (isOmitted (argument_defaultValueStrategy a)))%bool
  /\ isSome (arg_value r) = hasValueDefault a
  /\ (if isOptionTypeNode (argument_type a)
      then exists inner, arg_type r = "*" ++ inner /\ arg_innerOptionType r = Some inner
      else arg_innerOptionType r = None).

(** An instruction with an account, a plain argument, an optional
    argument of option type and an omitted argument with a default. *)
Definition depositInstruction : InstructionNode :=
  mkInstruction "deposit"
    [ mkAccountInput "payer" ]
    [ mkArgument "amount" (numberTypeNode "u64" le) [] None None;
      mkArgument "memo" (optionTypeNode (numberTypeNode "u8" le)) []
                 (Some (inputValue noneValueNode)) (Some optional);
      mkArgument "version" (numberTypeNode "u8" le) []
                 (Some (inputValue (numberValueNode 1))) (Some omitted) ]
    [].

(* ===================================================================== *)
(** * Properties *)
(* ===================================================================== *)

(** ** Sets and maps in insertion order *)

Module JSFacts.

Import JS.

Lemma includes_In (xs : list string) (x : string) :
  includes xs x = true <-> In x xs.
Proof.
  unfold includes. rewrite existsb_exists. split.
  - intros [y [Hy He]]. apply String.eqb_eq in He. now subst.
  - intros H. exists x. split; [assumption | apply String.eqb_refl].
Qed.

Lemma includes_not_In (xs : list string) (x : string) :
  includes xs x = false <-> ~ In x xs.
Proof.
  rewrite <- includes_In. destruct (includes xs x); split; congruence.
Qed.

Lemma Set_add_In (x y : string) (s : list string) :
  In y (Set_add x s) <-> y = x \/ In y s.
Proof.
  unfold Set_add. destruct (includes s x) eqn:E.
  - apply includes_In in E. split; [now right | intros [-> | H]; assumption].
  - rewrite in_app_iff. simpl. intuition congruence.
Qed.

Lemma Set_add_NoDup (x : string) (s : list string) :
  NoDup s -> NoDup (Set_add x s).
Proof.
  intros H. unfold Set_add. destruct (includes s x) eqn:E; [assumption |].
  apply includes_not_In in E.
  apply NoDup_app; [assumption | repeat constructor; intros [] |].
  intros a Ha [<- | []]. exact (E Ha).
Qed.

Lemma Set_add_fresh (x : string) (s : list string) :
  ~ In x s -> Set_add x s = app s [x].
Proof.
  intros H. unfold Set_add. apply includes_not_In in H. now rewrite H.
Qed.

Lemma Map_get_set_same (k v : string) (m : list (string * string)) :
  Map_get (Map_set k v m) k = Some v.
Proof.
  induction m as [| [k' v'] m IH]; simpl.
  - now rewrite String.eqb_refl.
  - destruct (String.eqb k' k) eqn:E; simpl; rewrite E; [reflexivity | exact IH].
Qed.

Lemma Map_get_set_other (k k' v : string) (m : list (string * string)) :
  k <> k' -> Map_get (Map_set k v m) k' = Map_get m k'.
Proof.
  intros Hne. induction m as [| [k0 v0] m IH]; simpl.
  - apply String.eqb_neq in Hne. now rewrite Hne.
  - destruct (String.eqb k0 k) eqn:E; simpl.
    + apply String.eqb_eq in E. subst k0.
      apply String.eqb_neq in Hne. now rewrite Hne.
    + now rewrite IH.
Qed.

Lemma Map_set_keys_In (k v x : string) (m : list (string * string)) :
  In x (map fst (Map_set k v m)) <-> x = k \/ In x (map fst m).
Proof.
  induction m as [| [k0 v0] m IH]; simpl.
  - intuition congruence.
  - destruct (String.eqb k0 k) eqn:E; simpl.
    + apply String.eqb_eq in E. subst k0. intuition congruence.
    + rewrite IH. intuition congruence.
Qed.

Lemma Map_set_NoDup (k v : string) (m : list (string * string)) :
  NoDup (map fst m) -> NoDup (map fst (Map_set k v m)).
Proof.
  induction m as [| [k0 v0] m IH]; simpl; intros H.
  - repeat constructor. intros [].
  - inversion H as [| ? ? Hn Hd]; subst.
    destruct (String.eqb k0 k) eqn:E; simpl.
    + now constructor.
    + constructor; [| now apply IH].
      rewrite Map_set_keys_In. intros [-> | Hin]; [| now apply Hn].
      now rewrite String.eqb_refl in E.
Qed.

Lemma Map_set_fresh (k v : string) (m : list (string * string)) :
  ~ In k (map fst m) -> Map_set k v m = app m [(k, v)].
Proof.
  induction m as [| [k0 v0] m IH]; simpl; intros H; [reflexivity |].
  destruct (String.eqb k0 k) eqn:E.
  - apply String.eqb_eq in E. subst. exfalso. apply H. now left.
  - rewrite IH; [reflexivity | intros Hin; apply H; now right].
Qed.

Lemma Map_get_None (m : list (string * string)) (k : string) :
  ~ In k (map fst m) -> Map_get m k = None.
Proof.
  induction m as [| [k0 v0] m IH]; simpl; intros H; [reflexivity |].
  destruct (String.eqb k0 k) eqn:E.
  - apply String.eqb_eq in E. subst. exfalso. apply H. now left.
  - apply IH. intros Hin. apply H. now right.
Qed.

Lemma setAll_other (entries m : list (string * string)) (k : string) :
  ~ In k (map fst entries) -> Map_get (setAll entries m) k = Map_get m k.
Proof.
  revert m. induction entries as [| [k0 v0] es IH]; simpl; intros m H;
    [reflexivity |].
  unfold setAll in *. simpl. rewrite IH by tauto.
  apply Map_get_set_other. intros ->. apply H. now left.
Qed.

(** After the entries of a map are all set, a key of that map holds the
    value it has there. *)
Lemma setAll_get (entries m : list (string * string)) (k v : string) :
  NoDup (map fst entries) ->
  Map_get entries k = Some v ->
  Map_get (setAll entries m) k = Some v.
Proof.
  revert m. induction entries as [| [k0 v0] es IH]; simpl; intros m Hnd Hget;
    [discriminate |].
  inversion Hnd as [| ? ? Hn Hd]; subst.
  unfold setAll in *. simpl.
  destruct (String.eqb k0 k) eqn:E.
  - apply String.eqb_eq in E. subst k0. injection Hget as ->.
    change (Map_get (setAll es (Map_set k v m)) k = Some v).
    rewrite setAll_other by assumption. apply Map_get_set_same.
  - now apply IH.
Qed.

Lemma setAll_NoDup (entries m : list (string * string)) :
  NoDup (map fst m) -> NoDup (map fst (setAll entries m)).
Proof.
  revert m. induction entries as [| [k0 v0] es IH]; simpl; intros m H;
    [assumption |].
  apply IH. now apply Map_set_NoDup.
Qed.

End JSFacts.

(** ** ImportMap *)

Module ImportMapFacts.

Import JS JSFacts ImportMap.

Lemma add_imports (this : t) (l : list string) :
  _imports (add this l) = fold_left (fun s i => Set_add i s) l (_imports this).
Proof.
  unfold add. revert this. induction l as [| i l IH]; intros this; simpl;
    [reflexivity | now rewrite IH].
Qed.

Lemma add_aliases (this : t) (l : list string) :
  _aliases (add this l) = _aliases this.
Proof.
  unfold add. revert this. induction l as [| i l IH]; intros this; simpl;
    [reflexivity | now rewrite IH].
Qed.

Lemma addAll_aliases (entries : list (string * string)) (this : t) :
  _aliases (fold_left (fun acc' '(importName, alias) => addAlias acc' importName alias)
                      entries this)
  = setAll entries (_aliases this).
Proof.
  revert this. induction entries as [| [k v] es IH]; intros this; simpl;
    [reflexivity | now rewrite IH].
Qed.

Lemma addAll_imports (entries : list (string * string)) (this : t) :
  _imports (fold_left (fun acc' '(importName, alias) => addAlias acc' importName alias)
                      entries this)
  = _imports this.
Proof.
  revert this. induction entries as [| [k v] es IH]; intros this; simpl;
    [reflexivity | now rewrite IH].
Qed.

Lemma mergeWith_app (this : t) (l1 l2 : list t) :
  mergeWith this (app l1 l2) = mergeWith (mergeWith this l1) l2.
Proof. unfold mergeWith. apply fold_left_app. Qed.

Lemma mergeWith_one_aliases (this other : t) :
  _aliases (mergeWith this [other]) = setAll (_aliases other) (_aliases this).
Proof.
  unfold mergeWith. simpl. now rewrite addAll_aliases, add_aliases.
Qed.

Lemma mergeWith_one_imports (this other : t) :
  _imports (mergeWith this [other])
  = fold_left (fun s i => Set_add i s) (_imports other) (_imports this).
Proof.
  unfold mergeWith. simpl. now rewrite addAll_imports, add_imports.
Qed.

(** *** The two passes of [resolveDependencyMap] *)

Lemma resolve_pass1 (dm : Obj) (l : list string) (acc : t) :
  fold_left
    (fun acc i =>
       let resolved := resolveDependency dm i in
       if String.eqb resolved "" then acc else add1 acc resolved)
    l acc
  = mk (resolveImports dm l (_imports acc)) (_aliases acc).
Proof.
  unfold resolveImports. revert acc.
  induction l as [| i l IH]; intros [imps als]; simpl; [reflexivity |].
  rewrite IH. destruct (String.eqb (resolveDependency dm i) ""); reflexivity.
Qed.

Lemma resolve_pass2 (dm : Obj) (l : list (string * string)) (acc : t) :
  fold_left
    (fun acc '(i, alias) =>
       let resolved := resolveDependency dm i in
       if String.eqb resolved "" then acc else addAlias acc resolved alias)
    l acc
  = mk (_imports acc) (resolveAliases dm l (_aliases acc)).
Proof.
  unfold resolveAliases. revert acc.
  induction l as [| [i al] l IH]; intros [imps als]; simpl; [reflexivity |].
  rewrite IH. destruct (String.eqb (resolveDependency dm i) ""); reflexivity.
Qed.

Lemma resolveDependencyMap_fields (this : t) (dependencies : Obj) :
  resolveDependencyMap this dependencies
  = mk (resolveImports (spread DEFAULT_MODULE_MAP dependencies) (_imports this) [])
       (resolveAliases (spread DEFAULT_MODULE_MAP dependencies) (_aliases this) []).
Proof.
  unfold resolveDependencyMap. cbv zeta. rewrite resolve_pass2, resolve_pass1.
  reflexivity.
Qed.

Lemma resolveImports_inv (dm : Obj) (l acc : list string) :
  NoDup acc -> ~ In "" acc ->
  NoDup (resolveImports dm l acc) /\ ~ In "" (resolveImports dm l acc).
Proof.
  unfold resolveImports. revert acc.
  induction l as [| i l IH]; intros acc Hnd Hne; simpl; [now split |].
  destruct (String.eqb (resolveDependency dm i) "") eqn:E; [now apply IH |].
  apply IH; [now apply Set_add_NoDup |].
  rewrite Set_add_In. intros [H | H]; [| now apply Hne].
  rewrite <- H in E. discriminate.
Qed.

Lemma resolveAliases_inv (dm : Obj) (l acc : list (string * string)) :
  NoDup (map fst acc) -> ~ In "" (map fst acc) ->
  NoDup (map fst (resolveAliases dm l acc))
  /\ ~ In "" (map fst (resolveAliases dm l acc)).
Proof.
  unfold resolveAliases. revert acc.
  induction l as [| [i al] l IH]; intros acc Hnd Hne; simpl; [now split |].
  destruct (String.eqb (resolveDependency dm i) "") eqn:E; [now apply IH |].
  apply IH; [now apply Map_set_NoDup |].
  rewrite Map_set_keys_In. intros [H | H]; [| now apply Hne].
  rewrite <- H in E. discriminate.
Qed.

(** An identifier that no key matches resolves to itself. *)
Lemma resolveDependency_unmatched (dm : Obj) (i : string) :
  matchesKey dm i = false -> resolveDependency dm i = i.
Proof.
  unfold matchesKey, resolveDependency. intros H.
  destruct (find (fun key => startsWith i (key ++ "::")) (map fst dm)) eqn:F;
    [| reflexivity].
  apply find_some in F. destruct F as [Hin Hs].
  assert (existsb (fun key => startsWith i (key ++ "::")) (map fst dm) = true)
    by (apply existsb_exists; eauto).
  congruence.
Qed.

Lemma resolveImports_fixed (dm : Obj) (l acc : list string) :
  NoDup (app acc l) ->
  Forall (fun i => matchesKey dm i = false /\ i <> "") l ->
  resolveImports dm l acc = app acc l.
Proof.
  unfold resolveImports. revert acc.
  induction l as [| i l IH]; intros acc Hnd Hall; simpl.
  - now rewrite app_nil_r.
  - inversion Hall as [| ? ? [Hm Hne] Hall']; subst.
    rewrite (resolveDependency_unmatched _ _ Hm).
    apply String.eqb_neq in Hne. rewrite Hne.
    rewrite Set_add_fresh.
    + rewrite IH; [now rewrite <- app_assoc | now rewrite <- app_assoc | assumption].
    + apply NoDup_remove_2 in Hnd. intros Hin. apply Hnd.
      apply in_or_app. now left.
Qed.

Lemma resolveAliases_fixed (dm : Obj) (l acc : list (string * string)) :
  NoDup (map fst (app acc l)) ->
  Forall (fun i => matchesKey dm i = false /\ i <> "") (map fst l) ->
  resolveAliases dm l acc = app acc l.
Proof.
  unfold resolveAliases. revert acc.
  induction l as [| [i al] l IH]; intros acc Hnd Hall; simpl.
  - now rewrite app_nil_r.
  - simpl in Hall. inversion Hall as [| ? ? [Hm Hne] Hall']; subst.
    rewrite (resolveDependency_unmatched _ _ Hm).
    apply String.eqb_neq in Hne. rewrite Hne.
    rewrite Map_set_fresh.
    + rewrite IH; [now rewrite <- app_assoc | now rewrite <- app_assoc | assumption].
    + rewrite map_app in Hnd. simpl in Hnd.
      apply NoDup_remove_2 in Hnd. intros Hin. apply Hnd.
      apply in_or_app. now left.
Qed.

(** Resolving a set that is settled for the map gives the set back. *)
Lemma resolve_settled (r : t) (dependencies : Obj) :
  wf r -> ~ In "" (_imports r) -> ~ In "" (map fst (_aliases r)) ->
  settled r dependencies = true ->
  resolveDependencyMap r dependencies = r.
Proof.
  intros [Hi Ha] Hei Hea Hs. rewrite resolveDependencyMap_fields.
  unfold settled in Hs. cbv zeta in Hs. rewrite forallb_forall in Hs.
  destruct r as [imps als]. simpl in *. f_equal.
  - apply (resolveImports_fixed _ imps []); [assumption |].
    apply Forall_forall. intros i Hin. split.
    + apply negb_true_iff, Hs, in_or_app. now left.
    + intros ->. now apply Hei.
  - apply (resolveAliases_fixed _ als []); [assumption |].
    apply Forall_forall. intros i Hin. split.
    + apply negb_true_iff, Hs, in_or_app. now right.
    + intros ->. now apply Hea.
Qed.

Lemma resolved_wf (this : t) (dependencies : Obj) :
  let r := resolveDependencyMap this dependencies in
  wf r /\ ~ In "" (_imports r) /\ ~ In "" (map fst (_aliases r)).
Proof.
  cbv zeta. rewrite resolveDependencyMap_fields. unfold wf. simpl.
  destruct (resolveImports_inv (spread DEFAULT_MODULE_MAP dependencies)
              (_imports this) []) as [H1 H2];
    [constructor | intros [] |].
  destruct (resolveAliases_inv (spread DEFAULT_MODULE_MAP dependencies)
              (_aliases this) []) as [H3 H4];
    [constructor | intros [] |].
  tauto.
Qed.

(** With no dependency map given, whatever a resolution keeps matches no
    key: a matched identifier is a same-package reference and is dropped. *)
Lemma resolveDependency_default (i : string) :
  let r := resolveDependency DEFAULT_MODULE_MAP i in
  r = "" \/ matchesKey DEFAULT_MODULE_MAP r = false.
Proof.
  cbv zeta. unfold resolveDependency, matchesKey.
  destruct (find (fun key => startsWith i (key ++ "::"))
                 (map fst DEFAULT_MODULE_MAP)) as [k |] eqn:F.
  - apply find_some in F. destruct F as [Hin _]. left.
    simpl in Hin.
    destruct Hin as [<- | [<- | [<- | [<- | [<- | [<- | []]]]]]]; reflexivity.
  - right. destruct (existsb _ _) eqn:E; [| reflexivity].
    apply existsb_exists in E. destruct E as [k [Hin Hk]].
    pose proof (find_none _ _ F k Hin) as Hn. simpl in Hn. congruence.
Qed.

Lemma resolveImports_default (l acc : list string) :
  Forall (fun r => matchesKey DEFAULT_MODULE_MAP r = false) acc ->
  Forall (fun r => matchesKey DEFAULT_MODULE_MAP r = false)
         (resolveImports DEFAULT_MODULE_MAP l acc).
Proof.
  unfold resolveImports. revert acc.
  induction l as [| i l IH]; intros acc Hacc; simpl; [assumption |].
  destruct (String.eqb (resolveDependency DEFAULT_MODULE_MAP i) "") eqn:E;
    [now apply IH |].
  apply IH. apply Forall_forall. intros r Hr. apply Set_add_In in Hr.
  destruct Hr as [-> | Hr]; [| now apply (proj1 (Forall_forall _ _) Hacc)].
  destruct (resolveDependency_default i) as [H | H]; [| exact H].
  apply String.eqb_neq in E. contradiction.
Qed.

Lemma resolveAliases_default (l acc : list (string * string)) :
  Forall (fun r => matchesKey DEFAULT_MODULE_MAP r = false) (map fst acc) ->
  Forall (fun r => matchesKey DEFAULT_MODULE_MAP r = false)
         (map fst (resolveAliases DEFAULT_MODULE_MAP l acc)).
Proof.
  unfold resolveAliases. revert acc.
  induction l as [| [i al] l IH]; intros acc Hacc; simpl; [assumption |].
  destruct (String.eqb (resolveDependency DEFAULT_MODULE_MAP i) "") eqn:E;
    [now apply IH |].
  apply IH. apply Forall_forall. intros r Hr. apply Map_set_keys_In in Hr.
  destruct Hr as [-> | Hr]; [| now apply (proj1 (Forall_forall _ _) Hacc)].
  destruct (resolveDependency_default i) as [H | H]; [| exact H].
  apply String.eqb_neq in E. contradiction.
Qed.

(** Without a dependency map, resolution is idempotent on every set. *)
Lemma resolveDependencyMap_default_idempotent (S : t) :
  resolveDependencyMap (resolveDependencyMap S []) []
  = resolveDependencyMap S [].
Proof.
  destruct (resolved_wf S []) as [Hwf [Hi Ha]].
  apply resolve_settled; try assumption.
  rewrite resolveDependencyMap_fields. unfold settled. cbv zeta.
  change (spread DEFAULT_MODULE_MAP []) with DEFAULT_MODULE_MAP. cbn [_imports _aliases].
  apply forallb_forall. intros r Hr. apply negb_true_iff.
  apply in_app_or in Hr. destruct Hr as [Hr | Hr].
  - exact (proj1 (Forall_forall _ _)
                 (resolveImports_default (_imports S) [] (Forall_nil _)) r Hr).
  - exact (proj1 (Forall_forall _ _)
                 (resolveAliases_default (_aliases S) [] (Forall_nil _)) r Hr).
Qed.

(** The methods keep the representation invariant. *)
Lemma wf_new : wf new.
Proof. split; constructor. Qed.

Lemma wf_add (this : t) (l : list string) : wf this -> wf (add this l).
Proof.
  intros [Hi Ha]. split; [| now rewrite add_aliases].
  rewrite add_imports. revert Hi. generalize (_imports this).
  induction l as [| i l IH]; intros s Hs; simpl; [assumption |].
  apply IH. now apply Set_add_NoDup.
Qed.

Lemma wf_addAlias (this : t) (k v : string) : wf this -> wf (addAlias this k v).
Proof. intros [Hi Ha]. split; [assumption | now apply Map_set_NoDup]. Qed.

Lemma wf_mergeWith (this : t) (others : list t) :
  wf this -> wf (mergeWith this others).
Proof.
  revert this. induction others as [| o os IH]; intros this Hwf; [assumption |].
  change (mergeWith this (o :: os)) with (mergeWith this (app [o] os)).
  rewrite mergeWith_app. apply IH.
  destruct (wf_add this (_imports o) Hwf) as [Hi Ha]. split.
  - unfold mergeWith. simpl. now rewrite addAll_imports.
  - rewrite mergeWith_one_aliases. apply setAll_NoDup. now destruct Hwf.
Qed.

(** C6, as amended.  Dependency resolution is idempotent on every
    Dependency Set whose resolved form is settled for the map: when no
    import and no aliased identifier of [resolve(S, m)] starts with a key
    of the effective dependency map (the defaults overridden by [m])
    followed by [::], then [resolve(resolve(S, m), m) = resolve(S, m)],
    on the identifier set and on the alias map. *)
Theorem resolveDependencyMap_idempotent (S : t) (m : Obj) :
  settled (resolveDependencyMap S m) m = true ->
  resolveDependencyMap (resolveDependencyMap S m) m = resolveDependencyMap S m.
Proof.
  intros Hs. destruct (resolved_wf S m) as [Hwf [Hi Ha]].
  now apply resolve_settled.
Qed.

(** C6 fails as stated: with the map [{ a: 'generated' }] the import
    [a::X] resolves to [generated::X], which a second resolution strips
    as a same-package reference. *)
Lemma resolveDependencyMap_not_idempotent :
  let S := mk ["a::X"; "fmt"] [("a::X", "x")] in
  let m := [("a", "generated")] in
  resolveDependencyMap S m = mk ["generated::X"; "fmt"] [("generated::X", "x")]
  /\ resolveDependencyMap (resolveDependencyMap S m) m = mk ["fmt"] []
  /\ resolveDependencyMap (resolveDependencyMap S m) m <> resolveDependencyMap S m.
Proof.
  cbv zeta. split; [reflexivity | split; [reflexivity | discriminate]].
Qed.

(** C10.  When [a] and [b] give the same identifier different aliases,
    [a.mergeWith(b)] maps the identifier to the alias of [b]; and whatever
    is merged before it, the map merged last decides the alias of every
    identifier it aliases. *)
Theorem mergeWith_last_alias_wins (a b : t) (id x y : string) :
  wf b ->
  Map_get (_aliases a) id = Some x ->
  Map_get (_aliases b) id = Some y ->
  x <> y ->
  Map_get (_aliases (mergeWith a [b])) id = Some y
  /\ forall earlier : list t,
       Map_get (_aliases (mergeWith a (app earlier [b]))) id = Some y.
Proof.
  intros [_ Hb] _ Hy _. split.
  - rewrite mergeWith_one_aliases. now apply setAll_get.
  - intros earlier. rewrite mergeWith_app, mergeWith_one_aliases.
    now apply setAll_get.
Qed.

End ImportMapFacts.

(** ** The type manifest visitor *)

(** Induction on schema trees, the children held in lists included. *)
Section NodeInduction.

Variable P : Node -> Prop.

Hypothesis H_account : forall name data, P data -> P (accountNode name data).
Hypothesis H_array : forall item count, P item -> P (arrayTypeNode item count).
Hypothesis H_boolean : forall size, P (booleanTypeNode size).
Hypothesis H_bytes : P bytesTypeNode.
Hypothesis H_defined : forall name ty, P ty -> P (definedTypeNode name ty).
Hypothesis H_link : forall name, P (definedTypeLinkNode name).
Hypothesis H_empty : forall name, P (enumEmptyVariantTypeNode name).
Hypothesis H_structVariant :
  forall name struct, P struct -> P (enumStructVariantTypeNode name struct).
Hypothesis H_tupleVariant :
  forall name tuple, P tuple -> P (enumTupleVariantTypeNode name tuple).
Hypothesis H_enum : forall variants, Forall P variants -> P (enumTypeNode variants).
Hypothesis H_fixedSize : forall ty size, P ty -> P (fixedSizeTypeNode ty size).
Hypothesis H_map : forall key value, P key -> P value -> P (mapTypeNode key value).
Hypothesis H_number : forall format endian, P (numberTypeNode format endian).
Hypothesis H_option : forall item, P item -> P (optionTypeNode item).
Hypothesis H_publicKey : P publicKeyTypeNode.
Hypothesis H_remainderOption : forall item, P item -> P (remainderOptionTypeNode item).
Hypothesis H_set : forall item, P item -> P (setTypeNode item).
Hypothesis H_sizePrefix : forall ty prefix, P ty -> P (sizePrefixTypeNode ty prefix).
Hypothesis H_string : forall encoding, P (stringTypeNode encoding).
Hypothesis H_field : forall name docs ty, P ty -> P (structFieldTypeNode name docs ty).
Hypothesis H_struct : forall fields, Forall P fields -> P (structTypeNode fields).
Hypothesis H_tuple : forall items, Forall P items -> P (tupleTypeNode items).
Hypothesis H_zeroableOption : forall item, P item -> P (zeroableOptionTypeNode item).

Lemma Node_nested_ind : forall node, P node.
Proof.
  fix IH 1. intros node.
  assert (all : forall l : list Node, Forall P l).
  { induction l as [| x l IHl]; constructor; [apply IH | exact IHl]. }
  destruct node.
  - apply H_account, IH.
  - apply H_array, IH.
  - apply H_boolean.
  - apply H_bytes.
  - apply H_defined, IH.
  - apply H_link.
  - apply H_empty.
  - apply H_structVariant, IH.
  - apply H_tupleVariant, IH.
  - apply H_enum, all.
  - apply H_fixedSize, IH.
  - apply H_map; apply IH.
  - apply H_number.
  - apply H_option, IH.
  - apply H_publicKey.
  - apply H_remainderOption, IH.
  - apply H_set, IH.
  - apply H_sizePrefix, IH.
  - apply H_string.
  - apply H_field, IH.
  - apply H_struct, all.
  - apply H_tuple, all.
  - apply H_zeroableOption, IH.
Qed.

End NodeInduction.

Section TypeManifestFacts.

Context {helpers : Helpers}.

(** *** Running the visitor monad *)

Lemma bind_Ok {A B} (m : M A) (f : A -> M B) (c c' : Ctx) (b : B) :
  bind m f c = (c', Ok b) ->
  exists c1 a, m c = (c1, Ok a) /\ f a c1 = (c', Ok b).
Proof.
  unfold bind. destruct (m c) as [c1 [a | e]]; intros H; [eauto | discriminate].
Qed.

Lemma bind_run {A B} (m : M A) (f : A -> M B) (c c1 : Ctx) (a : A) :
  m c = (c1, Ok a) -> bind m f c = f a c1.
Proof. unfold bind. now intros ->. Qed.

Lemma bind_Throw {A B} (m : M A) (f : A -> M B) (c c1 : Ctx) (e : Error) :
  m c = (c1, Throw e) -> bind m f c = (c1, Throw e).
Proof. unfold bind. now intros ->. Qed.

Lemma keepsDefaults_refl (c : Ctx) : keepsDefaults c c.
Proof. unfold keepsDefaults. tauto. Qed.

Lemma keepsDefaults_trans (c1 c2 c3 : Ctx) :
  keepsDefaults c1 c2 -> keepsDefaults c2 c3 -> keepsDefaults c1 c3.
Proof. unfold keepsDefaults. intuition congruence. Qed.

Lemma mapM_framed (l : list Node) :
  Forall Framed l ->
  forall c c' ms,
    mapM visit l c = (c', Ok ms) ->
    keepsDefaults c c'
    /\ (forallb isTypeTree l = true -> parentName c' = parentName c).
Proof.
  intros Hall. induction Hall as [| x l Hx Hl IH]; intros c c' ms H; simpl in H.
  - injection H as <- _. split; [apply keepsDefaults_refl | reflexivity].
  - apply bind_Ok in H. destruct H as (c1 & y & Hy & H).
    apply bind_Ok in H. destruct H as (c2 & ys & Hys & H).
    injection H as <- _.
    destruct (Hx _ _ _ Hy) as [K1 N1]. destruct (IH _ _ _ Hys) as [K2 N2].
    split; [eapply keepsDefaults_trans; eassumption |].
    simpl. intros Ht. apply andb_prop in Ht. destruct Ht as [T1 T2].
    rewrite (N2 T2). now apply N1.
Qed.

(** Splits a visitor run that returned normally into its steps. *)
Ltac visitor_steps H :=
  repeat match type of H with
         | bind _ _ _ = (_, Ok _) =>
             let c1 := fresh "c" in
             let a := fresh "a" in
             let Ha := fresh "Run" in
             apply bind_Ok in H; destruct H as (c1 & a & Ha & H);
             try (unfold gets, modify, set_parentName, set_nestedStruct,
                   set_inlineStruct, set_parentSize, set_isOptionField, ret in Ha;
                  injection Ha as <- <-)
         | (match ?x with _ => _ end) _ = (_, Ok _) => destruct x eqn:?
         | (if ?x then _ else _) _ = (_, Ok _) => destruct x eqn:?
         | throw _ _ = (_, Ok _) => discriminate H
         | ret _ _ = (_, Ok _) => unfold ret in H; injection H as <- <-
         end.

(** Closes a frame goal from the frames of the children that ran. *)
Ltac frame_finish :=
  repeat match goal with
         | IH : Framed ?n, R : visit ?n _ = (_, Ok _) |- _ =>
             apply IH in R; destruct R as [? ?]
         | IH : Forall _ ?l, R : mapM visit ?l _ = (_, Ok _) |- _ =>
             apply (mapM_framed l IH) in R; destruct R as [? ?]
         end;
  unfold keepsDefaults in *; cbn [isTypeTree] in *; simpl in *;
  repeat match goal with
         | |- _ /\ _ => split
         | |- _ -> _ => intro
         | H : (_ && _)%bool = true |- _ => apply andb_prop in H; destruct H
         end;
  intuition (try congruence).

Lemma visit_framed (node : Node) : Framed node.
Proof.
  induction node using Node_nested_ind; intros c c' m Hrun; cbn [visit] in Hrun.
  all: try (unfold visitAccount, visitArrayType, visitBooleanType, visitBytesType,
            visitDefinedType, visitDefinedTypeLink, visitEnumEmptyVariantType,
            visitEnumStructVariantType, visitEnumTupleVariantType, visitEnumType,
            visitFixedSizeType, visitMapType, visitNumberType, visitOptionType,
            visitPublicKeyType, visitRemainderOptionType, visitSetType,
            visitSizePrefixType, visitStringType, visitStructFieldType,
            visitStructType, visitTupleType,
            visitZeroableOptionType in Hrun).
  all: visitor_steps Hrun.
  all: try solve [frame_finish].
  - unfold visitArrayType, visitNumberType in Hrun. simpl in Hrun.
    visitor_steps Hrun; frame_finish.
  - destruct (isOptionField c0) eqn:Hopt; visitor_steps Run0; frame_finish.
Qed.

(** C8, as amended.  On every normal return of a visit, [nestedStruct]
    holds the value it had before the visit, and so does [parentName]
    when the node is a type, field or variant tree; each of [parentName],
    [inlineStruct], [parentSize] and [isOptionField] that had its initial
    value ([null] or [false]) before the visit has it after; so a visit of
    such a tree that starts in the context of a fresh visitor and returns
    normally ends in that context.  (Nothing is claimed after a throw.) *)
Theorem context_kept_on_normal_return (node : Node) (c c' : Ctx) (m : TypeManifest.t) :
  visit node c = (c', Ok m) ->
  nestedStruct c' = nestedStruct c
  /\ (isTypeTree node = true -> parentName c' = parentName c)
  /\ (parentName c = None -> parentName c' = None)
  /\ (inlineStruct c = false -> inlineStruct c' = false)
  /\ (parentSize c = PSNull -> parentSize c' = PSNull)
  /\ (isOptionField c = false -> isOptionField c' = false)
  /\ (forall name nested,
        isTypeTree node = true -> c = initCtx name nested -> c' = c).
Proof.
  intros Hrun. destruct (visit_framed node c c' m Hrun) as [K Hn].
  unfold keepsDefaults in K. destruct K as (K1 & K2 & K3 & K4 & K5).
  repeat split; try assumption.
  intros name nested Ht ->. specialize (Hn Ht).
  unfold initCtx in *. simpl in *.
  destruct c' as [pn ns il ps io]. simpl in *.
  rewrite K1, Hn, K3, K4, K5 by reflexivity. reflexivity.
Qed.

(** C9, as amended.  A fixed-size wrapper and a size-prefix wrapper set
    [parentSize] for the visit of their child, hand back the manifest of
    the child unchanged, and on a normal return leave [parentSize] at
    [null], whatever it was before; when the child throws, [parentSize]
    stays as the child left it. *)
Theorem size_wrappers_install_then_clear (ty : Node) (size : N)
    (prefix : NumberTypeNode) (c : Ctx) :
  visit (fixedSizeTypeNode ty size) c
  = (match visit ty (withParentSize (PSNumber size) c) with
     | (c1, Ok manifest) => (withParentSize PSNull c1, Ok manifest)
     | (c1, Throw e) => (c1, Throw e)
     end)
  /\ visit (sizePrefixTypeNode ty prefix) c
     = (match visit ty (withParentSize (PSNode prefix) c) with
        | (c1, Ok manifest) => (withParentSize PSNull c1, Ok manifest)
        | (c1, Throw e) => (c1, Throw e)
        end).
Proof.
  split; cbn [visit]; unfold visitFixedSizeType, visitSizePrefixType,
    set_parentSize, bind, modify, ret.
  - destruct (visit ty (withParentSize (PSNumber size) c)) as [c1 [m | e]];
      reflexivity.
  - destruct (visit ty (withParentSize (PSNode prefix) c)) as [c1 [m | e]];
      reflexivity.
Qed.

(** C3.  A number node whose endianness is not little-endian makes the
    visitor throw, in every context, and no manifest is returned for it. *)
Theorem number_not_little_endian_throws (format : string) (endian : Endian) (c : Ctx) :
  endian <> le ->
  visit (numberTypeNode format endian) c
  = (c, Throw (JsError "Number endianness not supported by Borsh"))
  /\ forall c' manifest, visit (numberTypeNode format endian) c <> (c', Ok manifest).
Proof.
  intros Hne. destruct endian; [contradiction |].
  cbn [visit]. unfold visitNumberType, throw. split; [reflexivity | discriminate].
Qed.

(** *** Scalar enums *)

Lemma mapi_from_nth_error {A B} (f : A -> nat -> B) (k : nat) (l : list A) (i : nat) :
  nth_error (JS.mapi_from f k l) i = option_map (fun x => f x (k + i)) (nth_error l i).
Proof.
  revert k i. induction l as [| x l IH]; intros k i; destruct i; simpl;
    try reflexivity.
  - now rewrite Nat.add_0_r.
  - rewrite IH. now rewrite Nat.add_succ_r.
Qed.

Lemma mapi_from_length {A B} (f : A -> nat -> B) (k : nat) (l : list A) :
  List.length (JS.mapi_from f k l) = List.length l.
Proof. revert k. induction l; intros k; simpl; [reflexivity | now rewrite IHl]. Qed.

Lemma isScalarEnum_names (variants : list Node) :
  isScalarEnum variants = true ->
  exists names, variants = map enumEmptyVariantTypeNode names.
Proof.
  unfold isScalarEnum. induction variants as [| v vs IH]; simpl; intros H.
  - now exists [].
  - apply andb_prop in H. destruct H as [Hv Hvs].
    destruct (IH Hvs) as [names ->].
    destruct v; try discriminate. now exists (name :: names).
Qed.

Lemma mapM_empty_variants (names : list string) (c : Ctx) :
  mapM visit (map enumEmptyVariantTypeNode names) c
  = (c, Ok (map (fun name => emptyManifest (pascalCase name)) names)).
Proof.
  induction names as [| n ns IH]; simpl; [reflexivity |].
  unfold bind at 1. unfold visitEnumEmptyVariantType at 1. unfold ret at 1.
  unfold bind. simpl in IH. rewrite IH. reflexivity.
Qed.

Lemma mergeWith_new_all (l : list ImportMap.t) :
  Forall (fun i => i = ImportMap.new) l ->
  ImportMap.mergeWith ImportMap.new l = ImportMap.new.
Proof.
  induction 1 as [| x l -> _ IH]; [reflexivity |]. exact IH.
Qed.

Lemma mergeManifests_empty (tys : list string) :
  TypeManifest.mergeManifests (map emptyManifest tys) = (ImportMap.new, []).
Proof.
  unfold TypeManifest.mergeManifests. f_equal.
  - apply mergeWith_new_all. rewrite map_map. simpl.
    induction tys; constructor; auto.
  - induction tys; simpl; auto.
Qed.

(** C4.  For a scalar enum visited under a parent name, the visitor
    returns a [uint8] type and one [const] block; the block has one line
    per variant, line [i] declares the constant of the variant declared
    [i]-th, line 0 is the one that carries [= iota] and no other line
    carries a value: in Go the constant on line [i] of such a block is
    [i]. *)
Theorem scalar_enum_ordinals_follow_declaration (variants : list Node) (c : Ctx)
    (parent : string) :
  isScalarEnum variants = true ->
  truthyName (parentName c) = Some parent ->
  let typeName := pascalCase parent in
  exists names lines,
    variants = map enumEmptyVariantTypeNode names
    /\ visit (enumTypeNode variants) c
       = (c, Ok (TypeManifest.mk ImportMap.new []
                   (("type " ++ typeName ++ " uint8") ++ JS.nl ++ JS.nl
                      ++ "const (" ++ JS.nl ++ JS.join JS.nl lines ++ JS.nl ++ ")")))
    /\ List.length lines = List.length names
    /\ forall i name,
         nth_error names i = Some name ->
         nth_error lines i
         = Some (if Nat.eqb i 0
                 then JS.tab ++ (typeName ++ "_" ++ pascalCase name)
                             ++ " " ++ typeName ++ " = iota"
                 else JS.tab ++ (typeName ++ "_" ++ pascalCase name)).
Proof.
  intros Hscalar Hparent typeName.
  destruct (isScalarEnum_names variants Hscalar) as [names Hnames].
  exists names.
  exists (constLines typeName (map (fun name => emptyManifest (pascalCase name)) names)).
  split; [assumption |]. split; [| split].
  - cbn [visit]. unfold visitEnumType.
    unfold bind at 1. unfold gets at 1. rewrite Hparent, Hscalar.
    rewrite Hnames at 1. unfold bind. rewrite mapM_empty_variants.
    unfold ret. do 2 f_equal.
    rewrite <- (map_map pascalCase emptyManifest), mergeManifests_empty.
    reflexivity.
  - unfold constLines, JS.mapi. now rewrite mapi_from_length, length_map.
  - intros i name Hi. unfold constLines, JS.mapi.
    rewrite mapi_from_nth_error, nth_error_map, Hi. reflexivity.
Qed.

(** *** Fixed-size bytes *)

Lemma Z_toString_of_N (b : N) : JS.Z_toString (Z.of_N b) = JS.N_toString b.
Proof. destruct b; reflexivity. Qed.

(** C7, as amended.  A fixed-size wrapper of 4 around a bytes node yields
    the type [[4]uint8], a 4-element fixed-length byte array.  A bytes
    value that decodes to four bytes is rendered as [[]byte{b0, b1, b2,
    b3}]: the literal lists exactly the four bytes, in order, and its type
    part is the length-free [[]byte], not the [[4]uint8] of the type. *)
Theorem fixed_size_four_bytes (c : Ctx) (encoding data : string) (b0 b1 b2 b3 : N) :
  getBytesFromBytesValueNode encoding data = Ok [b0; b1; b2; b3] ->
  let literal :=
    "[]byte{" ++ (JS.N_toString b0 ++ ", " ++ JS.N_toString b1 ++ ", "
                  ++ JS.N_toString b2 ++ ", " ++ JS.N_toString b3)
              ++ "}" in
  visit (fixedSizeTypeNode bytesTypeNode 4) c
  = (withParentSize PSNull c, Ok (TypeManifest.mk ImportMap.new [] "[4]uint8"))
  /\ renderValueNode (bytesValueNode encoding data)
     = Ok (ValueManifest.mk ImportMap.new literal)
  /\ literalType literal = "[]byte".
Proof.
  intros Hbytes literal. split; [| split].
  - reflexivity.
  - cbn [renderValueNode]. unfold visitBytesValue. rewrite Hbytes.
    cbn [rbind map]. unfold visitNumberValue. rewrite !Z_toString_of_N.
    reflexivity.
  - reflexivity.
Qed.

(** *** Struct fields *)

Lemma struct_field_restores (name : string) (docs : list string) (ty : Node)
    (c c' : Ctx) (m : TypeManifest.t) :
  visit (structFieldTypeNode name docs ty) c = (c', Ok m) ->
  parentName c' = parentName c
  /\ nestedStruct c' = nestedStruct c
  /\ inlineStruct c' = inlineStruct c.
Proof.
  intros Hrun. cbn [visit] in Hrun. unfold visitStructFieldType in Hrun.
  visitor_steps Hrun.
  destruct (isOptionField c0) eqn:Hopt; visitor_steps Run0; simpl; auto.
Qed.

Lemma struct_fields_restore (fields : list Node) :
  forallb isStructField fields = true ->
  forall c c' ms,
    mapM visit fields c = (c', Ok ms) ->
    parentName c' = parentName c
    /\ nestedStruct c' = nestedStruct c
    /\ inlineStruct c' = inlineStruct c.
Proof.
  induction fields as [| f fs IH]; intros Hall c c' ms Hrun; simpl in *.
  - injection Hrun as <- _. auto.
  - apply andb_prop in Hall. destruct Hall as [Hf Hfs].
    apply bind_Ok in Hrun. destruct Hrun as (c1 & y & Hy & Hrun).
    apply bind_Ok in Hrun. destruct Hrun as (c2 & ys & Hys & Hrun).
    injection Hrun as <- _.
    destruct f; try discriminate.
    destruct (struct_field_restores _ _ _ _ _ _ Hy) as (P1 & N1 & I1).
    destruct (IH Hfs _ _ _ Hys) as (P2 & N2 & I2).
    repeat split; congruence.
Qed.

Lemma visitOptionType_Ok (visitItem : M TypeManifest.t) (c c' : Ctx)
    (m : TypeManifest.t) :
  visitOptionType visitItem c = (c', Ok m) ->
  isOptionField c' = false
  /\ exists child, TypeManifest.type m = "*" ++ TypeManifest.type child.
Proof.
  intros Hrun. unfold visitOptionType in Hrun. visitor_steps Hrun.
  split; [reflexivity | now exists a].
Qed.

(** A field whose type is an option comes back without a tag:
    [visitOptionType] has reset [isOptionField] before
    [visitStructFieldType] reads it. *)
Lemma option_field_untagged (name : string) (docs : list string) (item : Node)
    (c c' : Ctx) (m : TypeManifest.t) :
  visit (structFieldTypeNode name docs (optionTypeNode item)) c = (c', Ok m) ->
  exists child,
    TypeManifest.type m
    = goDocComment docs ++ JS.tab ++ pascalCase name ++ " "
        ++ ("*" ++ TypeManifest.type child) ++ "".
Proof.
  intros Hrun. cbn [visit] in Hrun.
  unfold visitStructFieldType in Hrun.
  visitor_steps Hrun.
  all: apply visitOptionType_Ok in Run; destruct Run as [Hopt [child Hchild]].
  rewrite Hopt in Run0. unfold ret in Run0. injection Run0 as <- <-.
  exists child. cbn. now rewrite Hchild.
Qed.

(** *** Data enums *)

Lemma truthyName_Some (s s' : string) :
  truthyName (Some s) = Some s' -> s' = s.
Proof.
  unfold truthyName. destruct (String.eqb s ""); [discriminate |].
  now intros [= ->].
Qed.





End TypeManifestFacts.

(** ** Instructions: account and argument names *)

Module ConflictFacts.

Import JS JSFacts.

Lemma indexOf_fresh (pre suf : list string) (x : string) :
  ~ In x pre -> indexOf (app pre (x :: suf)) x = Some (List.length pre).
Proof.
  induction pre as [| y pre IH]; simpl; intros Hn.
  - now rewrite String.eqb_refl.
  - destruct (String.eqb y x) eqn:E.
    + apply String.eqb_eq in E. subst. exfalso. apply Hn. now left.
    + rewrite IH; [reflexivity | intros H; apply Hn; now right].
Qed.

Lemma indexOf_earlier (pre suf : list string) (x : string) :
  In x pre -> exists j, indexOf (app pre suf) x = Some j /\ j < List.length pre.
Proof.
  induction pre as [| y pre IH]; simpl; intros Hin; [contradiction |].
  destruct (String.eqb y x) eqn:E.
  - exists 0. split; [reflexivity | lia].
  - destruct Hin as [-> | Hin]; [now rewrite String.eqb_refl in E |].
    destruct (IH Hin) as [j [Hj Hlt]]. exists (S j). rewrite Hj.
    split; [reflexivity | lia].
Qed.

Lemma duplicates_from (suf pre : list string) (n : string) :
  In n (map fst (filter (notFirstAt (app pre suf))
                        (mapi_from (fun e i => (e, i)) (List.length pre) suf)))
  <-> exists s1 s2, suf = app s1 (n :: s2) /\ In n (app pre s1).
Proof.
  revert pre. induction suf as [| x suf IH]; intros pre.
  - simpl. split; [contradiction |].
    intros (s1 & s2 & H & _). destruct s1; discriminate.
  - cbn [mapi_from filter].
    assert (Hshift : app pre (x :: suf) = app (app pre [x]) suf)
      by (now rewrite <- app_assoc).
    assert (Hlen : S (List.length pre) = List.length (app pre [x]))
      by (rewrite length_app; simpl; lia).
    specialize (IH (app pre [x])). rewrite <- Hshift, <- Hlen in IH.
    destruct (in_dec string_dec x pre) as [Hin | Hout].
    + destruct (indexOf_earlier pre (x :: suf) x Hin) as [j [Hj Hlt]].
      unfold notFirstAt at 1. cbn [fst snd]. rewrite Hj.
      replace (Nat.eqb j (List.length pre)) with false
        by (symmetry; apply Nat.eqb_neq; lia).
      cbn [negb map fst In]. rewrite IH. split.
      * intros [-> | (s1 & s2 & -> & Hs)].
        -- exists [], suf. rewrite app_nil_r. now split.
        -- exists (x :: s1), s2. split; [reflexivity |].
           rewrite <- app_assoc in Hs. exact Hs.
      * intros (s1 & s2 & Heq & Hs). destruct s1 as [| y s1].
        -- left. simpl in Heq. congruence.
        -- right. injection Heq as <- ->. exists s1, s2.
           split; [reflexivity |]. now rewrite <- app_assoc.
    + unfold notFirstAt at 1. cbn [fst snd].
      rewrite (indexOf_fresh pre suf x Hout), Nat.eqb_refl.
      cbn [negb]. rewrite IH. split.
      * intros (s1 & s2 & -> & Hs). exists (x :: s1), s2.
        split; [reflexivity |]. rewrite <- app_assoc in Hs. exact Hs.
      * intros (s1 & s2 & Heq & Hs). destruct s1 as [| y s1].
        -- simpl in Heq. injection Heq as <- _. rewrite app_nil_r in Hs.
           contradiction.
        -- injection Heq as <- ->. exists s1, s2.
           split; [reflexivity |]. now rewrite <- app_assoc.
Qed.

(** A name is among the duplicates exactly when one of its occurrences
    has an earlier one. *)
Lemma duplicatesOf_In (allNames : list string) (n : string) :
  In n (duplicatesOf allNames)
  <-> exists s1 s2, allNames = app s1 (n :: s2) /\ In n s1.
Proof. exact (duplicates_from allNames [] n). Qed.

Lemma uniq_from_In (xs acc : list string) (n : string) :
  In n (fold_left (fun s x => Set_add x s) xs acc) <-> In n acc \/ In n xs.
Proof.
  revert acc. induction xs as [| x xs IH]; intros acc; simpl; [tauto |].
  rewrite IH, Set_add_In. intuition congruence.
Qed.

Lemma uniq_In (xs : list string) (n : string) : In n (uniq xs) <-> In n xs.
Proof. unfold uniq. rewrite uniq_from_In. simpl. tauto. Qed.

(** The names [getConflictsForInstructionAccountsAndArgs] returns, for
    any instruction: those that occur twice in accounts followed by
    arguments. *)
Lemma conflicts_In (node : InstructionNode) (n : string) :
  In n (getConflictsForInstructionAccountsAndArgs node)
  <-> exists s1 s2,
        app (map account_name (instruction_accounts node))
            (map argument_name (instruction_arguments node))
        = app s1 (n :: s2)
        /\ In n s1.
Proof.
  unfold getConflictsForInstructionAccountsAndArgs.
  now rewrite uniq_In, duplicatesOf_In.
Qed.

Lemma twice_in_distinct_lists (accounts arguments : list string) (n : string) :
  NoDup accounts -> NoDup arguments ->
  (exists s1 s2, app accounts arguments = app s1 (n :: s2) /\ In n s1)
  <-> In n accounts /\ In n arguments.
Proof.
  intros Hacc Harg. split.
  - intros (s1 & s2 & Heq & Hin).
    apply app_eq_app in Heq. destruct Heq as [l [[H1 H2] | [H1 H2]]].
    + destruct l as [| y l].
      * rewrite app_nil_r in H1. simpl in H2. subst.
        split; [assumption | now left].
      * injection H2 as <- ->. subst accounts.
        exfalso. apply NoDup_remove_2 in Hacc. apply Hacc.
        apply in_or_app. now left.
    + subst. split.
      * apply in_app_or in Hin. destruct Hin as [Hin | Hin]; [assumption |].
        exfalso. apply NoDup_remove_2 in Harg. apply Harg.
        apply in_or_app. now left.
      * apply in_or_app. right. now left.
  - intros [Ha Hb]. apply in_split in Hb. destruct Hb as (a1 & a2 & ->).
    exists (app accounts a1), a2. split; [now rewrite <- app_assoc |].
    apply in_or_app. now left.
Qed.

End ConflictFacts.

Section RenderMapFacts.

Context {helpers : Helpers}.

Variable getDiscriminatorConstants :
  list DiscriminatorNode -> list InstructionArgumentNode -> string ->
  result ValueManifest.t.

Import JS JSFacts ConflictFacts.

Lemma argumentStep_isOk (nodeName : string) (conflicts conflicts' : list string)
    (acc acc' : ArgsLoop) (argument : InstructionArgumentNode) :
  isOk (argumentStep nodeName conflicts acc argument)
  = isOk (argumentStep nodeName conflicts' acc' argument).
Proof.
  unfold argumentStep.
  destruct (snd (visit (argument_type argument) _)) as [manifest | e];
    [| reflexivity].
  destruct (argument_defaultValue argument) as [[v | kind] |]; try reflexivity.
  destruct (renderValueNode v) as [vm | e]; reflexivity.
Qed.

Lemma forEachArgument_isOk (nodeName : string) (conflicts conflicts' : list string)
    (arguments : list InstructionArgumentNode) (acc acc' : ArgsLoop) :
  isOk (forEachArgument nodeName conflicts arguments acc)
  = isOk (forEachArgument nodeName conflicts' arguments acc').
Proof.
  revert acc acc'. induction arguments as [| a rest IH]; intros acc acc';
    simpl; [reflexivity |].
  pose proof (argumentStep_isOk nodeName conflicts conflicts' acc acc' a) as Hstep.
  destruct (argumentStep nodeName conflicts acc a) as [l | e];
    destruct (argumentStep nodeName conflicts' acc' a) as [l' | e'];
    simpl in *; try discriminate; [apply IH | reflexivity].
Qed.

Lemma argumentStep_names (nodeName : string) (conflicts : list string)
    (acc acc' : ArgsLoop) (argument : InstructionArgumentNode) :
  argumentStep nodeName conflicts acc argument = Ok acc' ->
  map arg_name (loop_instructionArgs acc')
  = app (map arg_name (loop_instructionArgs acc))
        [renderedArgumentName conflicts argument].
Proof.
  unfold argumentStep.
  destruct (snd (visit (argument_type argument) _)) as [manifest | e];
    [| discriminate].
  destruct (argument_defaultValue argument) as [[v | kind] |];
    try destruct (renderValueNode v) as [vm | e]; simpl;
    try discriminate; intros [= <-]; simpl; now rewrite map_app.
Qed.

Lemma forEachArgument_names (nodeName : string) (conflicts : list string)
    (arguments : list InstructionArgumentNode) (acc loop : ArgsLoop) :
  forEachArgument nodeName conflicts arguments acc = Ok loop ->
  map arg_name (loop_instructionArgs loop)
  = app (map arg_name (loop_instructionArgs acc))
        (map (renderedArgumentName conflicts) arguments).
Proof.
  revert acc. induction arguments as [| a rest IH]; intros acc; simpl.
  - intros [= <-]. now rewrite app_nil_r.
  - destruct (argumentStep nodeName conflicts acc a) as [acc' |] eqn:Hstep;
      simpl; [| discriminate].
    intros Hrest. rewrite (IH _ Hrest), (argumentStep_names _ _ _ _ _ Hstep).
    now rewrite <- app_assoc.
Qed.

(** C5, as amended.  For an instruction whose account names are pairwise
    distinct and whose argument names are pairwise distinct: a name is
    reported as a conflict exactly when it is the name of an account and
    of an argument; one warning that lists the conflicts is logged when
    there is one, none otherwise; the warning is not fatal, the visit
    succeeds exactly when it does for the instruction without its
    accounts; and each argument is rendered under its name followed by
    [Arg] when an account has that name, under its own name otherwise. *)
Theorem account_argument_name_conflicts (node : InstructionNode) :
  let accounts := map account_name (instruction_accounts node) in
  let arguments := map argument_name (instruction_arguments node) in
  let conflicts := getConflictsForInstructionAccountsAndArgs node in
  NoDup accounts ->
  NoDup arguments ->
  (forall n, In n conflicts <-> In n accounts /\ In n arguments)
  /\ ((exists n, In n accounts /\ In n arguments) ->
      fst (visitInstruction getDiscriminatorConstants node)
      = [conflictWarning (instruction_name node) conflicts])
  /\ ((forall n, ~ (In n accounts /\ In n arguments)) ->
      fst (visitInstruction getDiscriminatorConstants node) = [])
  /\ isOk (snd (visitInstruction getDiscriminatorConstants node))
     = isOk (snd (visitInstruction getDiscriminatorConstants (withoutAccounts node)))
  /\ forall page,
       snd (visitInstruction getDiscriminatorConstants node) = Ok page ->
       map arg_name (page_instructionArgs page)
       = map (fun a => if includes accounts a then a ++ "Arg" else a) arguments.
Proof.
  intros accounts arguments conflicts Hacc Harg.
  assert (Hconf : forall n, In n conflicts <-> In n accounts /\ In n arguments).
  { intros n. subst conflicts. rewrite conflicts_In.
    now apply twice_in_distinct_lists. }
  split; [exact Hconf |]. split; [| split; [| split]].
  - intros [n Hn]. apply Hconf in Hn. unfold visitInstruction. cbn [fst].
    fold conflicts. destruct conflicts; [contradiction | reflexivity].
  - intros Hnone. unfold visitInstruction. cbn [fst]. fold conflicts.
    destruct conflicts as [| n rest]; [reflexivity |].
    exfalso. apply (Hnone n), Hconf. now left.
  - unfold visitInstruction, withoutAccounts. cbn [snd instruction_name
      instruction_arguments instruction_discriminators instruction_accounts].
    destruct (getDiscriminatorConstants _ _ _) as [dc | e]; [| reflexivity].
    cbn [rbind].
    match goal with
    | |- isOk (rbind ?r1 _) = isOk (rbind ?r2 _) =>
        assert (Hloop : isOk r1 = isOk r2) by apply forEachArgument_isOk;
        destruct r1 as [l1 | e1]; destruct r2 as [l2 | e2];
        simpl in Hloop; try discriminate; [| reflexivity]
    end.
    cbn [rbind]. destruct (snd (visit _ _)); reflexivity.
  - intros page Hpage. unfold visitInstruction in Hpage. cbn [snd] in Hpage.
    fold conflicts in Hpage.
    destruct (getDiscriminatorConstants _ _ _) as [dc | e]; [| discriminate].
    cbn [rbind] in Hpage.
    destruct (forEachArgument _ _ _ _) as [loop | e] eqn:Hloop; [| discriminate].
    cbn [rbind] in Hpage.
    destruct (snd (visit _ _)) as [tm | e]; [| discriminate].
    injection Hpage as <-. cbn [page_instructionArgs].
    rewrite (forEachArgument_names _ _ _ _ _ Hloop). cbn [loop_instructionArgs map app].
    subst arguments. rewrite map_map. apply map_ext_in.
    intros a Ha. unfold renderedArgumentName.
    assert (Hsame : includes conflicts (argument_name a)
                    = includes accounts (argument_name a)).
    { apply eq_true_iff_eq. rewrite !includes_In, Hconf.
      assert (In (argument_name a) (map argument_name (instruction_arguments node)))
        by (now apply in_map).
      tauto. }
    now rewrite Hsame.
Qed.

End RenderMapFacts.

(** ** The properties at sample schemas *)

Module Samples.

Import Examples.

#[local] Existing Instance GoHelpers.instance.

(** C1.  [Point = struct { x: u8, y: option<u8> }]: the declaration has
    the two fields, the second typed [*uint8], and no field carries the
    [bin:"optional"] tag, the option-typed one included. *)
Theorem point_option_field_not_annotated :
  visit point (initCtx None None)
  = (initCtx None None,
     Ok (TypeManifest.mk ImportMap.new []
           ("type Point struct {" ++ JS.nl
              ++ JS.tab ++ "X uint8" ++ JS.nl
              ++ JS.tab ++ "Y *uint8" ++ JS.nl
              ++ "}"))).
Proof. vm_compute. reflexivity. Qed.

(** Where the tag does appear: on the first field of a struct that sits
    directly under an option, not on the option-typed field. *)
Example holder_tag_on_inner_field :
  snd (visit holder (initCtx None None))
  = Ok (TypeManifest.mk ImportMap.new
          [ "type HolderInner struct {" ++ JS.nl
              ++ JS.tab ++ "A uint8 `bin:" ++ JS.dq ++ "optional" ++ JS.dq ++ "`" ++ JS.nl
              ++ JS.tab ++ "B uint8" ++ JS.nl
              ++ "}" ]
          ("type Holder struct {" ++ JS.nl
             ++ JS.tab ++ "Inner *HolderInner" ++ JS.nl
             ++ "}")).
Proof. vm_compute. reflexivity. Qed.



Lemma number_not_little_endian_throws_witness :
  be <> le
  /\ visit (numberTypeNode "u32" be) (initCtx None None)
     = (initCtx None None, Throw (JsError "Number endianness not supported by Borsh"))
  /\ forall c' manifest,
       visit (numberTypeNode "u32" be) (initCtx None None) <> (c', Ok manifest).
Proof.
  split; [discriminate |].
  apply (number_not_little_endian_throws "u32" be (initCtx None None)).
  discriminate.
Defined.

Lemma scalar_enum_ordinals_witness :
  isScalarEnum colorVariants = true
  /\ truthyName (parentName (initCtx (Some "Color") None)) = Some "Color"
  /\ exists names lines,
       colorVariants = map enumEmptyVariantTypeNode names
       /\ visit (enumTypeNode colorVariants) (initCtx (Some "Color") None)
          = (initCtx (Some "Color") None,
             Ok (TypeManifest.mk ImportMap.new []
                   (("type " ++ "Color" ++ " uint8") ++ JS.nl ++ JS.nl
                      ++ "const (" ++ JS.nl ++ JS.join JS.nl lines ++ JS.nl ++ ")")))
       /\ List.length lines = List.length names
       /\ forall i name,
            nth_error names i = Some name ->
            nth_error lines i
            = Some (if Nat.eqb i 0
                    then JS.tab ++ ("Color" ++ "_" ++ pascalCase name)
                                ++ " " ++ "Color" ++ " = iota"
                    else JS.tab ++ ("Color" ++ "_" ++ pascalCase name)).
Proof.
  split; [reflexivity | split; [reflexivity |]].
  exact (scalar_enum_ordinals_follow_declaration colorVariants
           (initCtx (Some "Color") None) "Color" eq_refl eq_refl).
Defined.

(** The sample scalar enum, as text. *)
Example color_rendered :
  snd (visit (definedTypeNode "color" (enumTypeNode colorVariants)) (initCtx None None))
  = Ok (TypeManifest.mk ImportMap.new []
          ("type Color uint8" ++ JS.nl ++ JS.nl
             ++ "const (" ++ JS.nl
             ++ JS.tab ++ "Color_Red Color = iota" ++ JS.nl
             ++ JS.tab ++ "Color_Green" ++ JS.nl
             ++ JS.tab ++ "Color_Blue" ++ JS.nl
             ++ ")")).
Proof. vm_compute. reflexivity. Qed.

(** C7 fails as stated.  The type of a fixed-size wrapper of 4 around
    bytes is [[4]uint8], but the literal of a 4-byte value is
    [[]byte{1, 2, 10, 255}]: its type part is [[]byte], with no length, as
    for a value of three bytes; it is not the [[4]uint8] of the type. *)
Lemma fixed_size_literal_has_no_length :
  snd (visit (fixedSizeTypeNode bytesTypeNode 4) (initCtx None None))
  = Ok (TypeManifest.mk ImportMap.new [] "[4]uint8")
  /\ renderValueNode (bytesValueNode "base16" "01020aff")
     = Ok (ValueManifest.mk ImportMap.new "[]byte{1, 2, 10, 255}")
  /\ literalType "[]byte{1, 2, 10, 255}" = "[]byte"
  /\ "[]byte" <> "[4]uint8"
  /\ JS.startsWith "[]byte{1, 2, 10, 255}" "[4]" = false
  /\ renderValueNode (bytesValueNode "base16" "010203")
     = Ok (ValueManifest.mk ImportMap.new "[]byte{1, 2, 3}")
  /\ literalType "[]byte{1, 2, 3}" = "[]byte".
Proof.
  split; [reflexivity |]. split; [vm_compute; reflexivity |].
  split; [reflexivity |]. split; [discriminate |].
  split; [reflexivity |]. split; [vm_compute; reflexivity | reflexivity].
Qed.

Lemma fixed_size_four_bytes_witness :
  getBytesFromBytesValueNode "base16" "01020aff" = Ok [1; 2; 10; 255]%N
  /\ visit (fixedSizeTypeNode bytesTypeNode 4) (initCtx None None)
     = (initCtx None None, Ok (TypeManifest.mk ImportMap.new [] "[4]uint8"))
  /\ renderValueNode (bytesValueNode "base16" "01020aff")
     = Ok (ValueManifest.mk ImportMap.new "[]byte{1, 2, 10, 255}")
  /\ literalType "[]byte{1, 2, 10, 255}" = "[]byte".
Proof.
  split; [reflexivity |].
  exact (fixed_size_four_bytes (initCtx None None) "base16" "01020aff" 1 2 10 255
           eq_refl).
Defined.

(** C5 fails as stated.  An instruction with two accounts named [payer]
    and no argument of that name reports [payer] as a conflict and logs
    the warning. *)
Lemma duplicate_account_reported_as_conflict :
  getConflictsForInstructionAccountsAndArgs twoPayers = ["payer"]
  /\ ~ In "payer" (map argument_name (instruction_arguments twoPayers))
  /\ fst (visitInstruction GoHelpers.noDiscriminatorConstants twoPayers)
     = [conflictWarning "settle" ["payer"]].
Proof.
  split; [reflexivity | split; [| reflexivity]].
  simpl. intros [H | []]. discriminate H.
Qed.

Lemma account_argument_name_conflicts_witness :
  NoDup (map account_name (instruction_accounts transfer))
  /\ NoDup (map argument_name (instruction_arguments transfer))
  /\ In "Authority" (getConflictsForInstructionAccountsAndArgs transfer)
  /\ fst (visitInstruction GoHelpers.noDiscriminatorConstants transfer)
     = [conflictWarning "transfer" ["Authority"]]
  /\ isOk (snd (visitInstruction GoHelpers.noDiscriminatorConstants transfer)) = true
  /\ forall page,
       snd (visitInstruction GoHelpers.noDiscriminatorConstants transfer) = Ok page ->
       map arg_name (page_instructionArgs page) = ["AuthorityArg"].
Proof.
  assert (Hacc : NoDup (map account_name (instruction_accounts transfer)))
    by (simpl; repeat constructor; simpl; tauto).
  assert (Harg : NoDup (map argument_name (instruction_arguments transfer)))
    by (simpl; repeat constructor; simpl; tauto).
  destruct (account_argument_name_conflicts GoHelpers.noDiscriminatorConstants
              transfer Hacc Harg) as (Hconf & Hwarn & _ & Hok & Hnames).
  split; [exact Hacc | split; [exact Harg |]].
  split; [apply Hconf; simpl; tauto |].
  split; [apply Hwarn; exists "Authority"; simpl; tauto |].
  split; [rewrite Hok; vm_compute; reflexivity |].
  exact Hnames.
Defined.

Lemma resolveDependencyMap_idempotent_witness :
  let S := ImportMap.mk ["generatedTypes::Foo"; "fmt"; "ext::client"]
                        [("ext::client", "client")] in
  let m := [("ext", "github.com/acme/ext")] in
  ImportMap.resolveDependencyMap S m
  = ImportMap.mk ["fmt"; "github.com/acme/ext::client"]
                 [("github.com/acme/ext::client", "client")]
  /\ ImportMap.settled (ImportMap.resolveDependencyMap S m) m = true
  /\ ImportMap.resolveDependencyMap (ImportMap.resolveDependencyMap S m) m
     = ImportMap.resolveDependencyMap S m.
Proof.
  cbv zeta. split; [reflexivity | split; [reflexivity |]].
  apply ImportMapFacts.resolveDependencyMap_idempotent. reflexivity.
Defined.

Lemma mergeWith_last_alias_wins_witness :
  let a := ImportMap.mk ["encoding/binary"] [("encoding/binary", "bin")] in
  let b := ImportMap.mk ["encoding/binary"] [("encoding/binary", "binary")] in
  ImportMap.wf b
  /\ JS.Map_get (ImportMap._aliases a) "encoding/binary" = Some "bin"
  /\ JS.Map_get (ImportMap._aliases b) "encoding/binary" = Some "binary"
  /\ "bin" <> "binary"
  /\ JS.Map_get (ImportMap._aliases (ImportMap.mergeWith a [b])) "encoding/binary"
     = Some "binary"
  /\ forall earlier,
       JS.Map_get (ImportMap._aliases (ImportMap.mergeWith a (app earlier [b])))
                  "encoding/binary"
       = Some "binary".
Proof.
  cbv zeta.
  assert (Hwf : ImportMap.wf
                  (ImportMap.mk ["encoding/binary"] [("encoding/binary", "binary")]))
    by (split; simpl; repeat constructor; simpl; tauto).
  split; [exact Hwf |].
  split; [reflexivity | split; [reflexivity | split; [discriminate |]]].
  apply (ImportMapFacts.mergeWith_last_alias_wins _ _ "encoding/binary" "bin" "binary");
    [exact Hwf | reflexivity | reflexivity | discriminate].
Defined.

(** C8 fails as stated.  A throw leaves the closure variables as they
    were when it happened: after the field [x] of [Point] throws for its
    big-endian type, [parentName] is still [PointX] and [nestedStruct] is
    still set.  And a normal return can leave a variable changed: an
    option visited while [isOptionField] is set (an option inside an
    option) returns with it cleared. *)
Lemma context_not_restored :
  visit bigEndianField (initCtx (Some "Point") None)
  = (mkCtx (Some "PointX") true false PSNull false,
     Throw (JsError "Number endianness not supported by Borsh"))
  /\ mkCtx (Some "PointX") true false PSNull false <> initCtx (Some "Point") None
  /\ visit (optionTypeNode u8) (mkCtx None false false PSNull true)
     = (mkCtx None false false PSNull false,
        Ok (TypeManifest.mk ImportMap.new [] "*uint8"))
  /\ mkCtx None false false PSNull false <> mkCtx None false false PSNull true.
Proof.
  split; [vm_compute; reflexivity |]. split; [discriminate |].
  split; [vm_compute; reflexivity | discriminate].
Qed.

Lemma context_kept_on_normal_return_witness :
  let node := structTypeNode circleFields in
  let c := initCtx (Some "Circle") None in
  let m := TypeManifest.mk ImportMap.new []
             ("type Circle struct {" ++ JS.nl ++ JS.tab ++ "Radius uint8"
                                     ++ JS.nl ++ "}") in
  visit node c = (c, Ok m)
  /\ nestedStruct c = nestedStruct c
  /\ (isTypeTree node = true -> parentName c = parentName c)
  /\ (parentName c = None -> parentName c = None)
  /\ (inlineStruct c = false -> inlineStruct c = false)
  /\ (parentSize c = PSNull -> parentSize c = PSNull)
  /\ (isOptionField c = false -> isOptionField c = false)
  /\ (forall name nested,
        isTypeTree node = true -> c = initCtx name nested -> c = c).
Proof.
  cbv zeta.
  assert (Hrun : visit (structTypeNode circleFields) (initCtx (Some "Circle") None)
                 = (initCtx (Some "Circle") None,
                    Ok (TypeManifest.mk ImportMap.new []
                          ("type Circle struct {" ++ JS.nl ++ JS.tab
                             ++ "Radius uint8" ++ JS.nl ++ "}"))))
    by (vm_compute; reflexivity).
  split; [exact Hrun |].
  exact (context_kept_on_normal_return _ _ _ _ Hrun).
Defined.

(** C9 fails as stated.  A fixed-size wrapper visited while [parentSize]
    is 4 returns with [parentSize] at [null], not back at 4; so in
    [fixedSize(4, tuple(fixedSize(8, string), string))] the second string
    is rendered without a size. *)
Lemma parentSize_cleared_not_restored :
  parentSize inFixedSize4 = PSNumber 4
  /\ visit (fixedSizeTypeNode bytesTypeNode 8) inFixedSize4
     = (mkCtx (Some "P") false false PSNull false,
        Ok (TypeManifest.mk ImportMap.new [] "[8]uint8"))
  /\ PSNull <> PSNumber 4
  /\ snd (visit (fixedSizeTypeNode
                   (tupleTypeNode [ fixedSizeTypeNode (stringTypeNode "utf8") 8;
                                    stringTypeNode "utf8" ])
                   4)
                (initCtx None None))
     = Ok (TypeManifest.mk ImportMap.new []
             ("struct {" ++ JS.nl
                ++ JS.tab ++ "Field0 [8]byte" ++ JS.nl
                ++ JS.tab ++ "Field1 string" ++ JS.nl
                ++ "}")).
Proof.
  split; [reflexivity |]. split; [vm_compute; reflexivity |].
  split; [discriminate | vm_compute; reflexivity].
Qed.

End Samples.

(* ===================================================================== *)
(** * Further properties of the embedded code *)
(* ===================================================================== *)

(** ** ImportMap: adding, removing, merging *)

Module ImportMapMore.

Import JS JSFacts ImportMap ImportMapFacts ImportMapText.

Lemma addAll_In (l s : list string) (x : string) :
  In x (fold_left (fun s i => Set_add i s) l s) <-> In x s \/ In x l.
Proof.
  revert s. induction l as [| i l IH]; intros s; simpl; [tauto |].
  rewrite IH, Set_add_In. intuition congruence.
Qed.

Lemma addAll_absorbed (l s : list string) :
  (forall x, In x l -> In x s) ->
  fold_left (fun s i => Set_add i s) l s = s.
Proof.
  induction l as [| i l IH]; intros Hsub; simpl; [reflexivity |].
  unfold Set_add at 2.
  rewrite (proj2 (includes_In s i)) by (apply Hsub; now left).
  apply IH. intros x Hx. apply Hsub. now right.
Qed.

Lemma addAll_NoDup_from_nil (l acc : list string) :
  NoDup (app acc l) -> fold_left (fun s i => Set_add i s) l acc = app acc l.
Proof.
  revert acc. induction l as [| i l IH]; intros acc Hnd; simpl.
  - now rewrite app_nil_r.
  - rewrite Set_add_fresh.
    + rewrite IH; now rewrite <- app_assoc.
    + apply NoDup_remove_2 in Hnd. intros Hin. apply Hnd, in_or_app. now left.
Qed.

Lemma setAll_from_nil (l acc : list (string * string)) :
  NoDup (map fst (app acc l)) -> setAll l acc = app acc l.
Proof.
  unfold setAll. revert acc. induction l as [| [k v] l IH]; intros acc Hnd; simpl.
  - now rewrite app_nil_r.
  - rewrite Map_set_fresh.
    + rewrite IH; now rewrite <- app_assoc.
    + rewrite map_app in Hnd. simpl in Hnd.
      apply NoDup_remove_2 in Hnd. intros Hin. apply Hnd, in_or_app. now left.
Qed.

Lemma remove_imports (this : t) (l : list string) :
  _imports (remove this l)
  = fold_left (fun s i => Set_delete i s) l (_imports this).
Proof.
  unfold remove. revert this. induction l as [| i l IH]; intros this; simpl;
    [reflexivity | now rewrite IH].
Qed.

Lemma remove_aliases (this : t) (l : list string) :
  _aliases (remove this l) = _aliases this.
Proof.
  unfold remove. revert this. induction l as [| i l IH]; intros this; simpl;
    [reflexivity | now rewrite IH].
Qed.

Lemma Set_delete_In (x y : string) (s : list string) :
  In y (Set_delete x s) <-> In y s /\ y <> x.
Proof.
  unfold Set_delete. rewrite filter_In. split; intros [H1 H2]; split; auto.
  - apply negb_true_iff, String.eqb_neq in H2. exact H2.
  - apply negb_true_iff, String.eqb_neq. exact H2.
Qed.

Lemma deleteAll_In (l s : list string) (x : string) :
  In x (fold_left (fun s i => Set_delete i s) l s) <-> In x s /\ ~ In x l.
Proof.
  revert s. induction l as [| i l IH]; intros s; simpl; [tauto |].
  rewrite IH, Set_delete_In. intuition congruence.
Qed.

Lemma Set_delete_NoDup (x : string) (s : list string) :
  NoDup s -> NoDup (Set_delete x s).
Proof. apply NoDup_filter. Qed.

Lemma Set_delete_absent (x : string) (s : list string) :
  ~ In x s -> Set_delete x s = s.
Proof.
  unfold Set_delete. induction s as [| y s IH]; simpl; intros Hn; [reflexivity |].
  destruct (String.eqb y x) eqn:E.
  - apply String.eqb_eq in E. subst. exfalso. apply Hn. now left.
  - simpl. rewrite IH; [reflexivity | intros H; apply Hn; now right].
Qed.

(** X1.  [add] makes exactly the given identifiers members, beside those
    already there; it leaves the aliases alone, keeps the identifiers
    already present in their place at the front, and adding the same
    identifiers a second time changes nothing. *)
Theorem add_is_set_insertion (this : t) (imports : list string) :
  (forall x, In x (_imports (add this imports))
             <-> In x (_imports this) \/ In x imports)
  /\ _aliases (add this imports) = _aliases this
  /\ (exists added, _imports (add this imports) = app (_imports this) added)
  /\ add (add this imports) imports = add this imports.
Proof.
  split; [| split; [| split]].
  - intros x. rewrite add_imports. apply addAll_In.
  - apply add_aliases.
  - rewrite add_imports. generalize (_imports this).
    induction imports as [| i l IH]; intros s; simpl.
    + exists []. now rewrite app_nil_r.
    + destruct (IH (Set_add i s)) as [added Hadded]. rewrite Hadded.
      unfold Set_add. destruct (includes s i).
      * now exists added.
      * exists (i :: added). now rewrite <- app_assoc.
  - destruct (add this imports) as [imps als] eqn:E.
    assert (Hin : forall x, In x imports -> In x imps).
    { intros x Hx. change imps with (_imports (mk imps als)). rewrite <- E.
      rewrite add_imports. apply addAll_In. now right. }
    pose proof (add_imports (mk imps als) imports) as Hi.
    pose proof (add_aliases (mk imps als) imports) as Ha.
    simpl in Hi, Ha. rewrite addAll_absorbed in Hi by assumption.
    destruct (add (mk imps als) imports). simpl in *. congruence.
Qed.

(** X2.  [remove] deletes exactly the given identifiers and leaves the
    aliases alone (an alias of a removed identifier stays); removing an
    identifier right after adding it to a map that did not have it gives
    the map back. *)
Theorem remove_is_set_deletion (this : t) (imports : list string) (x : string) :
  (forall y, In y (_imports (remove this imports))
             <-> In y (_imports this) /\ ~ In y imports)
  /\ _aliases (remove this imports) = _aliases this
  /\ (~ In x (_imports this) -> remove (add this [x]) [x] = this).
Proof.
  split; [| split].
  - intros y. rewrite remove_imports. apply deleteAll_In.
  - apply remove_aliases.
  - intros Hfresh. destruct this as [imps als]. unfold add, remove. simpl in *.
    f_equal. rewrite Set_add_fresh by assumption.
    unfold Set_delete. rewrite filter_app. simpl. rewrite String.eqb_refl. simpl.
    rewrite app_nil_r. now apply Set_delete_absent.
Qed.

Lemma mergeWith_imports_In (others : list t) (this : t) (x : string) :
  In x (_imports (mergeWith this others))
  <-> In x (_imports this) \/ exists o, In o others /\ In x (_imports o).
Proof.
  revert this. induction others as [| o os IH]; intros this.
  - simpl. split; [now left | intros [H | (o & [] & _)]; exact H].
  - change (mergeWith this (o :: os)) with (mergeWith this (app [o] os)).
    rewrite mergeWith_app, IH, mergeWith_one_imports, addAll_In. split.
    + intros [[H | H] | (o' & Ho' & Hx)].
      * now left.
      * right. exists o. split; [now left | exact H].
      * right. exists o'. split; [now right | exact Hx].
    + intros [H | (o' & [<- | Ho'] & Hx)].
      * left. now left.
      * left. now right.
      * right. now exists o'.
Qed.

(** X3.  After [mergeWith], the identifiers are the union of those of the
    receiver and of every merged map; as sets of identifiers, merging is
    commutative and associative. *)
Theorem mergeWith_is_union (a b c : t) (others : list t) (x : string) :
  (In x (_imports (mergeWith a others))
   <-> In x (_imports a) \/ exists o, In o others /\ In x (_imports o))
  /\ (In x (_imports (mergeWith a [b])) <-> In x (_imports (mergeWith b [a])))
  /\ (In x (_imports (mergeWith (mergeWith a [b]) [c]))
      <-> In x (_imports (mergeWith a [mergeWith b [c]]))).
Proof.
  assert (one : forall p q, In x (_imports (mergeWith p [q]))
                            <-> In x (_imports p) \/ In x (_imports q)).
  { intros p q. rewrite mergeWith_imports_In. split.
    - intros [H | (o & [Ho | []] & H)]; [now left | subst o; now right].
    - intros [H | H]; [now left | right; exists q; split; [now left | exact H]]. }
  split; [apply mergeWith_imports_In | split].
  - rewrite !one. tauto.
  - rewrite !one. tauto.
Qed.

Lemma Map_get_None_iff (m : list (string * string)) (k : string) :
  Map_get m k = None <-> ~ In k (map fst m).
Proof.
  split; [| apply Map_get_None].
  induction m as [| [k0 v0] m IH]; simpl; intros H; [tauto |].
  destruct (String.eqb k0 k) eqn:E; [discriminate |].
  apply String.eqb_neq in E. intros [Hk | Hin]; [contradiction | now apply IH].
Qed.

(** X4.  The alias [a.mergeWith(b)] gives an identifier is the one [b]
    gives it when [b] has one, and the one [a] had otherwise. *)
Theorem mergeWith_alias_lookup (a b : t) (id : string) :
  wf b ->
  Map_get (_aliases (mergeWith a [b])) id
  = match Map_get (_aliases b) id with
    | Some alias => Some alias
    | None => Map_get (_aliases a) id
    end.
Proof.
  intros [_ Hb]. rewrite mergeWith_one_aliases.
  destruct (Map_get (_aliases b) id) as [alias |] eqn:E.
  - now apply setAll_get.
  - apply setAll_other. now apply Map_get_None_iff.
Qed.

(** ** ImportMap: resolution *)

Lemma resolveDependency_default_matched (i : string) :
  matchesKey DEFAULT_MODULE_MAP i = true ->
  resolveDependency DEFAULT_MODULE_MAP i = "".
Proof.
  unfold matchesKey, resolveDependency. intros Hm.
  destruct (find (fun key => startsWith i (key ++ "::"))
                 (map fst DEFAULT_MODULE_MAP)) as [k |] eqn:F.
  - apply find_some in F. destruct F as [Hin _]. simpl in Hin.
    destruct Hin as [<- | [<- | [<- | [<- | [<- | [<- | []]]]]]]; reflexivity.
  - apply existsb_exists in Hm. destruct Hm as [k [Hin Hk]].
    pose proof (find_none _ _ F k Hin) as Hn. simpl in Hn. congruence.
Qed.

Lemma resolveImports_default_filter (l acc : list string) :
  NoDup (app acc l) ->
  resolveImports DEFAULT_MODULE_MAP l acc = app acc (filter keptByDefault l).
Proof.
  unfold resolveImports. revert acc.
  induction l as [| i l IH]; intros acc Hnd; simpl; [now rewrite app_nil_r |].
  unfold keptByDefault at 1.
  destruct (matchesKey DEFAULT_MODULE_MAP i) eqn:Hm; simpl.
  - rewrite resolveDependency_default_matched by assumption. simpl.
    apply IH. now apply NoDup_remove_1 in Hnd.
  - rewrite resolveDependency_unmatched by assumption.
    destruct (String.eqb i "") eqn:E; simpl.
    + apply IH. now apply NoDup_remove_1 in Hnd.
    + rewrite Set_add_fresh.
      * rewrite IH by (now rewrite <- app_assoc). now rewrite <- app_assoc.
      * apply NoDup_remove_2 in Hnd. intros Hin. apply Hnd, in_or_app. now left.
Qed.

Lemma resolveAliases_default_filter (l acc : list (string * string)) :
  NoDup (map fst (app acc l)) ->
  resolveAliases DEFAULT_MODULE_MAP l acc
  = app acc (filter (fun kv => keptByDefault (fst kv)) l).
Proof.
  unfold resolveAliases. revert acc.
  induction l as [| [i al] l IH]; intros acc Hnd; simpl; [now rewrite app_nil_r |].
  rewrite map_app in Hnd. simpl in Hnd.
  unfold keptByDefault at 1.
  destruct (matchesKey DEFAULT_MODULE_MAP i) eqn:Hm; simpl.
  - rewrite resolveDependency_default_matched by assumption. simpl.
    apply IH. rewrite map_app. now apply NoDup_remove_1 in Hnd.
  - rewrite resolveDependency_unmatched by assumption.
    destruct (String.eqb i "") eqn:E; simpl.
    + apply IH. rewrite map_app. now apply NoDup_remove_1 in Hnd.
    + rewrite Map_set_fresh.
      * rewrite IH; [now rewrite <- app_assoc |].
        rewrite <- app_assoc, map_app. exact Hnd.
      * apply NoDup_remove_2 in Hnd. intros Hin. apply Hnd, in_or_app. now left.
Qed.

(** X6.  Without a dependency map, resolution only deletes: it keeps, in
    order, the identifiers and the aliases whose identifier starts with no
    [generated...::] or [hooked::] prefix and is not empty, and drops the
    others; resolving the result again changes nothing. *)
Theorem default_resolution_filters (S : t) :
  wf S ->
  resolveDependencyMap S []
  = mk (filter keptByDefault (_imports S))
       (filter (fun kv => keptByDefault (fst kv)) (_aliases S))
  /\ resolveDependencyMap (resolveDependencyMap S []) [] = resolveDependencyMap S [].
Proof.
  intros [Hi Ha]. split; [| apply resolveDependencyMap_default_idempotent].
  rewrite resolveDependencyMap_fields.
  change (spread DEFAULT_MODULE_MAP []) with DEFAULT_MODULE_MAP.
  now rewrite (resolveImports_default_filter _ []), (resolveAliases_default_filter _ []).
Qed.

Lemma resolveImports_In (dm : Obj) (l acc : list string) (r : string) :
  In r (resolveImports dm l acc)
  <-> In r acc \/ (r <> "" /\ exists i, In i l /\ resolveDependency dm i = r).
Proof.
  unfold resolveImports. revert acc.
  induction l as [| i l IH]; intros acc; simpl.
  - split; [now left | intros [H | (_ & i & [] & _)]; exact H].
  - rewrite IH. destruct (String.eqb (resolveDependency dm i) "") eqn:E.
    + apply String.eqb_eq in E. split.
      * intros [H | (Hr & j & Hj & Hres)]; [now left |].
        right. split; [exact Hr |]. exists j. split; [now right | exact Hres].
      * intros [H | (Hr & j & [<- | Hj] & Hres)]; [now left | congruence |].
        right. split; [exact Hr |]. now exists j.
    + apply String.eqb_neq in E. rewrite Set_add_In. split.
      * intros [[-> | H] | (Hr & j & Hj & Hres)].
        -- right. split; [exact E |]. exists i. split; [now left | reflexivity].
        -- now left.
        -- right. split; [exact Hr |]. exists j. split; [now right | exact Hres].
      * intros [H | (Hr & j & [<- | Hj] & Hres)].
        -- left. now right.
        -- left. left. now symmetry.
        -- right. split; [exact Hr |]. now exists j.
Qed.

(** X7.  The identifiers of a resolved map are exactly the non-empty
    results of resolving the identifiers of the map: nothing else is
    added, and an identifier is lost only by resolving to the empty
    string. *)
Theorem resolved_imports_are_images (S : t) (dependencies : Obj) (r : string) :
  In r (_imports (resolveDependencyMap S dependencies))
  <-> r <> ""
      /\ exists i, In i (_imports S)
                   /\ resolveDependency (spread DEFAULT_MODULE_MAP dependencies) i = r.
Proof.
  rewrite resolveDependencyMap_fields. cbn [_imports].
  rewrite resolveImports_In. simpl. tauto.
Qed.

Lemma prefix_app (p s : string) : String.prefix p (p ++ s) = true.
Proof.
  induction p as [| c p IH]; simpl; [now destruct s |].
  destruct (ascii_dec c c); [exact IH | contradiction].
Qed.

Lemma slice_app (p s : string) : slice (p ++ s) (String.length p) = s.
Proof. induction p as [| c p IH]; simpl; [now destruct s | exact IH]. Qed.

Lemma Map_get_Some_In (m : list (string * string)) (k v : string) :
  Map_get m k = Some v -> In k (map fst m).
Proof.
  intros H. destruct (in_dec string_dec k (map fst m)) as [Hin | Hout];
    [exact Hin |].
  apply Map_get_None in Hout. congruence.
Qed.

(** X8.  How one identifier resolves.  An identifier that no key of the
    effective map starts (as [key::]) stays as it is.  An identifier
    [key::rest] whose [key] is not empty and is the only key that starts it
    is dropped (resolves to the empty string) when the key maps to the
    empty string, and otherwise becomes the mapped value followed by
    [::rest]: the [::] separator stays in the result. *)
Theorem resolveDependency_cases (dependencies : Obj) (key value rest i : string) :
  let dm := spread DEFAULT_MODULE_MAP dependencies in
  key <> "" ->
  Map_get dm key = Some value ->
  (forall other, In other (map fst dm) -> other <> key ->
                 startsWith (key ++ "::" ++ rest) (other ++ "::") = false) ->
  (matchesKey dm i = false -> resolveDependency dm i = i)
  /\ resolveDependency dm (key ++ "::" ++ rest)
     = (if String.eqb value "" then "" else value ++ "::" ++ rest).
Proof.
  intros dm Hkey Hget Honly. split; [apply resolveDependency_unmatched |].
  unfold resolveDependency.
  assert (Hstarts : startsWith (key ++ "::" ++ rest) (key ++ "::") = true).
  { unfold startsWith.
    replace (key ++ "::" ++ rest) with ((key ++ "::") ++ rest).
    - apply prefix_app.
    - clear. induction key as [| c k IH]; simpl; [reflexivity | now rewrite IH]. }
  destruct (find (fun k => startsWith (key ++ "::" ++ rest) (k ++ "::"))
                 (map fst dm)) as [found |] eqn:F.
  - apply find_some in F. destruct F as [Hin Hf].
    destruct (string_dec found key) as [-> | Hne].
    + apply String.eqb_neq in Hkey. rewrite Hkey, Hget.
      destruct (String.eqb value ""); [reflexivity |].
      now rewrite slice_app.
    + rewrite (Honly found Hin Hne) in Hf. discriminate.
  - pose proof (find_none _ _ F key (Map_get_Some_In _ _ _ Hget)) as Hn.
    cbv beta in Hn. rewrite Hstarts in Hn. discriminate.
Qed.

End ImportMapMore.

(** ** ImportMap: the import block *)

Module ImportBlockFacts.

Import JS ImportMap ImportMapText.

Lemma splitImportLines_from (resolvedMap : t) (l std ext : list string) :
  fold_left
    (fun (acc : list string * list string) imp =>
       let importLine := importLine resolvedMap imp in
       if isThirdParty imp
       then (fst acc, app (snd acc) [importLine])
       else (app (fst acc) [importLine], snd acc))
    l (std, ext)
  = (app std (map (importLine resolvedMap)
                  (filter (fun imp => negb (isThirdParty imp)) l)),
     app ext (map (importLine resolvedMap) (filter isThirdParty l))).
Proof.
  revert std ext. induction l as [| imp l IH]; intros std ext; simpl.
  - now rewrite !app_nil_r.
  - destruct (isThirdParty imp); simpl; rewrite IH; simpl;
      now rewrite <- app_assoc.
Qed.

Lemma splitImportLines_filter (resolvedMap : t) (l : list string) :
  splitImportLines resolvedMap l
  = (map (importLine resolvedMap) (filter (fun imp => negb (isThirdParty imp)) l),
     map (importLine resolvedMap) (filter isThirdParty l)).
Proof. unfold splitImportLines. now rewrite splitImportLines_from. Qed.

Lemma sort_nonempty (l : list string) : l <> [] -> StringSort.sort l <> [].
Proof.
  intros Hl Hs. pose proof (StringSort.Permuted_sort l) as Hp. rewrite Hs in Hp.
  apply Permutation_sym, Permutation_nil in Hp. contradiction.
Qed.

Lemma one_group_nonempty (resolvedMap : t) (l : list string) :
  l <> [] ->
  map (importLine resolvedMap) (filter (fun imp => negb (isThirdParty imp)) l) <> []
  \/ map (importLine resolvedMap) (filter isThirdParty l) <> [].
Proof.
  destruct l as [| imp l]; [congruence |]. intros _. simpl.
  destruct (isThirdParty imp); simpl; [right | left]; discriminate.
Qed.

(** X9.  The import block is the empty text exactly when nothing is
    imported once the map is resolved: aliases alone print nothing, and a
    non-empty resolved set never prints an empty text. *)
Theorem toString_empty_iff (this : t) (dependencies : Obj) :
  toString this dependencies = ""
  <-> _imports (resolveDependencyMap this dependencies) = [].
Proof.
  unfold toString. cbv zeta.
  set (resolvedMap := resolveDependencyMap this dependencies).
  unfold isEmpty. destruct (_imports resolvedMap) as [| imp imps] eqn:E.
  - split; reflexivity.
  - split; [| discriminate]. rewrite splitImportLines_filter.
    assert (Hs : StringSort.sort (imp :: imps) <> []) by (apply sort_nonempty; discriminate).
    destruct (one_group_nonempty resolvedMap _ Hs) as [H | H];
      destruct (map (importLine resolvedMap)
                    (filter (fun imp => negb (isThirdParty imp))
                            (StringSort.sort (imp :: imps)))) as [| s1 std];
      destruct (map (importLine resolvedMap)
                    (filter isThirdParty (StringSort.sort (imp :: imps))))
        as [| e1 ext];
      try congruence; simpl; discriminate.
Qed.

(** X10.  A non-empty resolved set prints as [import ( ... )] with one
    line per resolved identifier: the lines of the identifiers whose first
    path segment has no dot come first, then, after an empty line, those of
    the identifiers whose first segment has a dot; inside each group the
    identifiers are in sorted order. *)
Theorem toString_layout (this : t) (dependencies : Obj) :
  let resolvedMap := resolveDependencyMap this dependencies in
  _imports resolvedMap <> [] ->
  exists sorted,
    Permutation (_imports resolvedMap) sorted
    /\ LocallySorted (fun x y => String.leb x y = true) sorted
    /\ let std := map (importLine resolvedMap)
                      (filter (fun imp => negb (isThirdParty imp)) sorted) in
       let ext := map (importLine resolvedMap) (filter isThirdParty sorted) in
       toString this dependencies
       = "import (" ++ JS.nl
           ++ match std, ext with
              | [], _ => JS.join JS.nl ext
              | _, [] => JS.join JS.nl std
              | _, _ => JS.join JS.nl std ++ (JS.nl ++ JS.nl) ++ JS.join JS.nl ext
              end
           ++ JS.nl ++ ")".
Proof.
  intros resolvedMap Hne. exists (StringSort.sort (_imports resolvedMap)).
  split; [apply StringSort.Permuted_sort |].
  split; [apply StringSort.LocallySorted_sort |].
  cbv zeta. unfold toString. cbv zeta. fold resolvedMap.
  unfold isEmpty. destruct (_imports resolvedMap) as [| imp imps] eqn:E;
    [congruence |].
  rewrite splitImportLines_filter.
  assert (Hs : StringSort.sort (imp :: imps) <> []) by (apply sort_nonempty; discriminate).
  destruct (one_group_nonempty resolvedMap _ Hs) as [H | H];
    destruct (map (importLine resolvedMap)
                  (filter (fun imp => negb (isThirdParty imp))
                          (StringSort.sort (imp :: imps)))) as [| s1 std];
    destruct (map (importLine resolvedMap)
                  (filter isThirdParty (StringSort.sort (imp :: imps))))
      as [| e1 ext];
    try congruence; try reflexivity.
  all: cbn [nonEmpty app JS.join String.concat]; try reflexivity.
Qed.

End ImportBlockFacts.

(** ** Import maps without aliases *)

Module ImportsWithinFacts.

Import JS JSFacts ImportMap ImportMapFacts ImportMapMore.

Lemma within_new (packages : list string) : importsWithin packages new.
Proof. repeat split; [constructor | intros x []]. Qed.

Lemma within_add1 (packages : list string) (i : t) (x : string) :
  importsWithin packages i -> In x packages -> importsWithin packages (add1 i x).
Proof.
  intros (Hnd & Hal & Hin) Hx. unfold add1. repeat split.
  - rewrite add_imports. simpl. now apply Set_add_NoDup.
  - now rewrite add_aliases.
  - intros y Hy. rewrite add_imports in Hy. simpl in Hy.
    apply Set_add_In in Hy. destruct Hy as [-> | Hy]; auto.
Qed.

Lemma mergeWith_aliases_nil (others : list t) (this : t) :
  _aliases this = [] ->
  Forall (fun o => _aliases o = []) others ->
  _aliases (mergeWith this others) = [].
Proof.
  intros Hthis Hall. revert this Hthis.
  induction Hall as [| o os Ho _ IH]; intros this Hthis; [exact Hthis |].
  change (mergeWith this (o :: os)) with (mergeWith this (app [o] os)).
  rewrite mergeWith_app. apply IH.
  rewrite mergeWith_one_aliases, Ho. exact Hthis.
Qed.

Lemma within_mergeWith (packages : list string) (this : t) (others : list t) :
  importsWithin packages this ->
  Forall (importsWithin packages) others ->
  importsWithin packages (mergeWith this others).
Proof.
  intros (Hnd & Hal & Hin) Hall. repeat split.
  - apply (wf_mergeWith this others). split; [exact Hnd |].
    rewrite Hal. constructor.
  - apply mergeWith_aliases_nil; [exact Hal |].
    eapply Forall_impl; [| exact Hall]. intros o (_ & Ho & _). exact Ho.
  - intros x Hx. apply mergeWith_imports_In in Hx.
    destruct Hx as [Hx | (o & Ho & Hx)]; [now apply Hin |].
    rewrite Forall_forall in Hall. destruct (Hall o Ho) as (_ & _ & Hino).
    now apply Hino.
Qed.

(** Merging one map without aliases into an empty one gives that map. *)
Lemma mergeWith_new_one (packages : list string) (i : t) :
  importsWithin packages i -> mergeWith new [i] = i.
Proof.
  intros (Hnd & Hal & _). destruct i as [imps als]. simpl in *. subst als.
  unfold mergeWith. simpl.
  pose proof (add_imports new imps) as Hi. pose proof (add_aliases new imps) as Ha.
  simpl in Hi, Ha. rewrite (addAll_NoDup_from_nil imps []) in Hi by exact Hnd.
  destruct (add new imps). simpl in *. congruence.
Qed.

End ImportsWithinFacts.

(** ** The type manifest visitor: what it accepts and what it returns *)

Section TypeManifestMore.

Context {helpers : Helpers}.

Import JS JSFacts.

(** Splits a visitor run into its steps, whatever its outcome. *)
Ltac visitor_run H :=
  repeat match type of H with
         | bind _ _ _ = (_, Ok _) =>
             let c1 := fresh "c" in
             let a := fresh "a" in
             let Ha := fresh "Run" in
             apply bind_Ok in H; destruct H as (c1 & a & Ha & H);
             try (unfold gets, modify, set_parentName, set_nestedStruct,
                   set_inlineStruct, set_parentSize, set_isOptionField, ret in Ha;
                  injection Ha as <- <-)
         | (match ?x with _ => _ end) _ = (_, Ok _) => destruct x eqn:?
         | (if ?x then _ else _) _ = (_, Ok _) => destruct x eqn:?
         | throw _ _ = (_, Ok _) => discriminate H
         | ret _ _ = (_, Ok _) => unfold ret in H; injection H as <- <-
         end.

Ltac unfold_visitors H :=
  cbn [visit] in H;
  try (unfold visitAccount, visitArrayType, visitBooleanType, visitBytesType,
        visitDefinedType, visitDefinedTypeLink, visitEnumEmptyVariantType,
        visitEnumStructVariantType, visitEnumTupleVariantType, visitEnumType,
        visitFixedSizeType, visitMapType, visitNumberType, visitOptionType,
        visitPublicKeyType, visitRemainderOptionType, visitSetType,
        visitSizePrefixType, visitStringType, visitStructFieldType,
        visitStructType, visitTupleType, visitZeroableOptionType in H).

Lemma mapM_Ok_Forall2 (P : Node -> Ctx -> Ctx -> TypeManifest.t -> Prop)
    (l : list Node) :
  Forall (fun n => forall c c' m, visit n c = (c', Ok m) -> P n c c' m) l ->
  forall c c' ms,
    mapM visit l c = (c', Ok ms) ->
    Forall2 (fun n m => exists c1 c2, P n c1 c2 m) l ms.
Proof.
  intros Hall. induction Hall as [| x l Hx Hl IH]; intros c c' ms H; simpl in H.
  - injection H as <- <-. constructor.
  - apply bind_Ok in H. destruct H as (c1 & y & Hy & H).
    apply bind_Ok in H. destruct H as (c2 & ys & Hys & H).
    injection H as <- <-. constructor; [eauto | eapply IH; eassumption].
Qed.

Lemma visit_Ok_supported (node : Node) :
  forall c c' m, visit node c = (c', Ok m) -> supportedShapes node = true.
Proof.
  induction node using Node_nested_ind; intros c c' m Hrun; unfold_visitors Hrun.
  all: visitor_run Hrun.
  all: cbn [supportedShapes]; try reflexivity; eauto.
  all: try (apply forallb_forall; intros x Hx;
            match goal with
            | Hall : Forall _ ?l, R : mapM visit ?l _ = _ |- _ =>
                pose proof (mapM_Ok_Forall2 (fun n _ _ _ => supportedShapes n = true)
                              l Hall _ _ _ R) as H2
            end;
            clear - H2 Hx; induction H2 as [| n m0 l ms [c1 [c2 Hn]] _ IH];
            [contradiction | destruct Hx as [<- | Hx]; auto]).
  - erewrite IHnode1, IHnode2 by eassumption. reflexivity.
  - now rewrite Heqo.
Qed.

(** X11.  Whenever the visitor returns a manifest, no node it descends
    into is a number that is not little-endian or has an unknown format, a
    boolean whose size is not [u8] little-endian, a remainder option or a
    zeroable option: such a node in a visited position, however deep,
    aborts the visit.  The prefix of a size-prefix wrapper and the count of
    an array are not nodes the visitor descends into; nothing is said of
    them. *)
Theorem manifest_only_for_supported_shapes (node : Node) (c c' : Ctx)
    (m : TypeManifest.t) :
  visit node c = (c', Ok m) -> supportedShapes node = true.
Proof. apply visit_Ok_supported. Qed.

Lemma mapM_isOk (l : list Node) :
  Forall (fun n => nameFree n = true ->
                   forall c, isOk (snd (visit n c)) = supportedShapes n) l ->
  forallb nameFree l = true ->
  forall c, isOk (snd (mapM visit l c)) = forallb supportedShapes l.
Proof.
  intros Hall. induction Hall as [| x l Hx Hl IH]; intros Hnf c; simpl;
    [reflexivity |].
  simpl in Hnf. apply andb_prop in Hnf. destruct Hnf as [Hx' Hl'].
  specialize (Hx Hx' c). specialize (IH Hl').
  unfold bind. destruct (visit x c) as [c1 [m | e]]; simpl in Hx; rewrite <- Hx;
    [| reflexivity].
  specialize (IH c1). destruct (mapM visit l c1) as [c2 [ms | e]];
    simpl in IH; rewrite <- IH; reflexivity.
Qed.

Lemma visit_nameFree_isOk (node : Node) :
  nameFree node = true ->
  forall c, isOk (snd (visit node c)) = supportedShapes node.
Proof.
  induction node using Node_nested_ind; intros Hnf c;
    cbn [nameFree] in Hnf; try discriminate Hnf;
    cbn [visit supportedShapes].
  - (* array *)
    unfold visitArrayType, bind. specialize (IHnode Hnf c).
    destruct (visit node c) as [c1 [m | e]]; simpl in *; rewrite <- IHnode;
      [destruct count |]; reflexivity.
  - (* boolean *)
    unfold visitBooleanType.
    destruct (String.eqb (format size) "u8"); destruct (endian size); reflexivity.
  - (* bytes *)
    unfold visitBytesType, bind, gets. destruct (parentSize c); reflexivity.
  - (* link *)
    reflexivity.
  - (* fixed size *)
    unfold visitFixedSizeType, bind, set_parentSize, modify.
    specialize (IHnode Hnf (withParentSize (PSNumber size) c)).
    destruct (visit node _) as [c1 [m | e]]; simpl in *; rewrite <- IHnode;
      reflexivity.
  - (* map *)
    apply andb_prop in Hnf. destruct Hnf as [Hk Hv].
    unfold visitMapType, bind. specialize (IHnode1 Hk c).
    destruct (visit node1 c) as [c1 [m | e]]; simpl in *; rewrite <- IHnode1;
      [| reflexivity].
    specialize (IHnode2 Hv c1).
    destruct (visit node2 c1) as [c2 [m2 | e]]; simpl in *; rewrite <- IHnode2;
      reflexivity.
  - (* number *)
    unfold visitNumberType.
    match goal with |- context [match ?e with le => _ | be => _ end] =>
      destruct e end; [| reflexivity].
    match goal with |- context [Map_get NUMBER_FORMAT_MAP ?f] =>
      destruct (Map_get NUMBER_FORMAT_MAP f) end; reflexivity.
  - (* option *)
    unfold visitOptionType, bind, set_isOptionField, modify.
    specialize (IHnode Hnf (withIsOptionField true c)).
    destruct (visit node _) as [c1 [m | e]]; simpl in *; rewrite <- IHnode;
      reflexivity.
  - (* public key *)
    reflexivity.
  - (* remainder option *)
    reflexivity.
  - (* set *)
    unfold visitSetType, bind. specialize (IHnode Hnf c).
    destruct (visit node c) as [c1 [m | e]]; simpl in *; rewrite <- IHnode;
      reflexivity.
  - (* size prefix *)
    unfold visitSizePrefixType, bind, set_parentSize, modify.
    specialize (IHnode Hnf (withParentSize (PSNode prefix) c)).
    destruct (visit node _) as [c1 [m | e]]; simpl in *; rewrite <- IHnode;
      reflexivity.
  - (* string *)
    unfold visitStringType, bind, gets.
    destruct (parentSize c) as [| n |]; try reflexivity.
    destruct (N.eqb n 0); reflexivity.
  - (* tuple *)
    unfold visitTupleType, bind.
    pose proof (mapM_isOk items H Hnf c) as Hl.
    destruct (mapM visit items c) as [c1 [ms | e]]; simpl in *; rewrite <- Hl;
      [| reflexivity].
    destruct ms as [| m0 [| m1 ms]]; reflexivity.
  - (* zeroable option *)
    reflexivity.
Qed.

(** X12.  For a tree with no struct, enum, field or variant (and no
    account or defined type), so with no need of a parent name, the
    visitor returns a manifest exactly when the tree has only supported
    shapes, in every context. *)
Theorem nameFree_visit_succeeds_iff_supported (node : Node) (c : Ctx) :
  nameFree node = true ->
  isOk (snd (visit node c)) = supportedShapes node.
Proof. intros Hnf. now apply visit_nameFree_isOk. Qed.

Import ImportsWithinFacts.

Lemma mergeManifests_within (ms : list TypeManifest.t) :
  Forall (fun m => importsWithin manifestPackages (TypeManifest.imports m)) ms ->
  importsWithin manifestPackages (fst (TypeManifest.mergeManifests ms)).
Proof.
  intros Hall. unfold TypeManifest.mergeManifests. cbn [fst].
  apply within_mergeWith; [apply within_new |].
  induction Hall; constructor; assumption.
Qed.

Lemma mapM_within (l : list Node) :
  Forall (fun n => forall c c' m,
            visit n c = (c', Ok m) ->
            importsWithin manifestPackages (TypeManifest.imports m)) l ->
  forall c c' ms,
    mapM visit l c = (c', Ok ms) ->
    Forall (fun m => importsWithin manifestPackages (TypeManifest.imports m)) ms.
Proof.
  intros Hall c c' ms Hrun.
  pose proof (mapM_Ok_Forall2
                (fun _ _ _ m => importsWithin manifestPackages (TypeManifest.imports m))
                l Hall c c' ms Hrun) as H2.
  clear - H2. induction H2 as [| n m l ms [c1 [c2 Hm]] _ IH]; constructor; auto.
Qed.

Lemma visit_importsWithin (node : Node) :
  forall c c' m,
    visit node c = (c', Ok m) ->
    importsWithin manifestPackages (TypeManifest.imports m).
Proof.
  induction node using Node_nested_ind; intros c c' m Hrun; unfold_visitors Hrun.
  all: visitor_run Hrun.
  all: cbn [TypeManifest.imports TypeManifest.withType emptyManifest].
  all: try solve [apply within_new | eauto].
  all: try solve [apply mergeManifests_within; eapply mapM_within; eassumption].
  all: try match goal with
           | R : mapM visit _ _ = (_, Ok ?ms) |- importsWithin _ (fold_left _ _ _) =>
               change (importsWithin manifestPackages
                         (fst (TypeManifest.mergeManifests ms)));
               apply mergeManifests_within; eapply mapM_within; eassumption
           | R : mapM visit _ _ = (_, Ok ?ms) |- importsWithin _ (ImportMap.mergeWith _ _) =>
               change (importsWithin manifestPackages
                         (fst (TypeManifest.mergeManifests ms)));
               apply mergeManifests_within; eapply mapM_within; eassumption
           end.
  - (* bytes *)
    unfold visitArrayType, visitNumberType in Hrun. simpl in Hrun.
    visitor_run Hrun; apply within_new.
  - (* data enum *)
    apply within_add1; [| simpl; auto].
    apply mergeManifests_within. eapply mapM_within; eassumption.
  - (* map *)
    change (importsWithin manifestPackages
              (fst (TypeManifest.mergeManifests [a; a0]))).
    apply mergeManifests_within.
    constructor; [eauto | constructor; [eauto | constructor]].
  - (* number *)
    destruct (startsWith _ _); [| apply within_new].
    apply within_add1; [apply within_new | simpl; auto].
  - (* public key *)
    apply within_add1; [apply within_new | simpl; auto].
Qed.

(** X13.  The import map of every manifest the visitor returns has no
    alias and no repeated identifier, and names no package other than
    [github.com/gagliardetto/binary] and
    [github.com/gagliardetto/solana-go]; a link to a defined type adds no
    import. *)
Theorem manifest_imports_are_the_two_packages (node : Node) (c c' : Ctx)
    (m : TypeManifest.t) :
  visit node c = (c', Ok m) ->
  NoDup (ImportMap._imports (TypeManifest.imports m))
  /\ ImportMap._aliases (TypeManifest.imports m) = []
  /\ (forall x, In x (ImportMap._imports (TypeManifest.imports m)) ->
                x = "github.com/gagliardetto/binary"
                \/ x = "github.com/gagliardetto/solana-go")
  /\ forall name, snd (visit (definedTypeLinkNode name) c)
                  = Ok (TypeManifest.mk ImportMap.new [] (pascalCase name)).
Proof.
  intros Hrun. destruct (visit_importsWithin node c c' m Hrun) as (Hnd & Hal & Hin).
  repeat split; try assumption.
  intros x Hx. apply Hin in Hx. simpl in Hx. intuition.
Qed.

(** X14.  A tuple of one item is visited exactly as the item is: same
    manifest (type, hoisted declarations and imports), same context
    afterwards, same error. *)
Theorem single_item_tuple_is_its_item (item : Node) (c : Ctx) :
  visit (tupleTypeNode [item]) c = visit item c.
Proof.
  cbn [visit mapM]. unfold visitTupleType, bind.
  destruct (visit item c) as [c1 [m | e]] eqn:Hrun; [| reflexivity].
  unfold ret. f_equal. f_equal.
  pose proof (visit_importsWithin item c c1 m Hrun) as Hw.
  unfold TypeManifest.mergeManifests. cbn [fst snd map flat_map].
  rewrite (mergeWith_new_one manifestPackages _ Hw), app_nil_r.
  now destruct m.
Qed.

(** X15.  How an enclosing size shapes strings and bytes, for every size
    and prefix.  A string under a fixed size [n] is [[n]byte], except that
    the size 0 gives a plain [string]; under a size prefix or with no
    enclosing size it is [string].  Bytes under a fixed size [n] are
    [[n]uint8] (also for 0), and [[]uint8] under a size prefix or with no
    enclosing size.  The prefix number is never visited: its endianness
    and format are not checked. *)
Theorem sized_strings_and_bytes (n : N) (prefix : NumberTypeNode)
    (encoding : string) (c : Ctx) :
  visit (fixedSizeTypeNode (stringTypeNode encoding) n) c
  = (withParentSize PSNull c,
     Ok (emptyManifest (if N.eqb n 0 then "string"
                        else "[" ++ N_toString n ++ "]byte")))
  /\ visit (sizePrefixTypeNode (stringTypeNode encoding) prefix) c
     = (withParentSize PSNull c, Ok (emptyManifest "string"))
  /\ visit (stringTypeNode encoding) (withParentSize PSNull c)
     = (withParentSize PSNull c, Ok (emptyManifest "string"))
  /\ visit (fixedSizeTypeNode bytesTypeNode n) c
     = (withParentSize PSNull c,
        Ok (emptyManifest ("[" ++ N_toString n ++ "]" ++ "uint8")))
  /\ visit (sizePrefixTypeNode bytesTypeNode prefix) c
     = (withParentSize PSNull c, Ok (emptyManifest "[]uint8"))
  /\ visit bytesTypeNode (withParentSize PSNull c)
     = (withParentSize PSNull c, Ok (emptyManifest "[]uint8")).
Proof.
  repeat split; try reflexivity.
  cbn [visit]. unfold visitFixedSizeType, visitStringType, bind, set_parentSize,
    modify, gets. cbn [parentSize withParentSize].
  destruct (N.eqb n 0); reflexivity.
Qed.

(** X16.  A struct, an enum, a field and a payload variant visited while
    [parentName] is [null] or the empty string throw at once, before any
    child is visited and with the context untouched; and a defined type
    whose name PascalCases to the empty string cannot hold a struct. *)
Theorem parent_name_required (c : Ctx) (children : list Node) (child : Node)
    (name definedName : string) (docs : list string) :
  truthyName (parentName c) = None ->
  pascalCase definedName = "" ->
  visit (structTypeNode children) c
  = (c, Throw (JsError "Struct type must have a parent name."))
  /\ visit (enumTypeNode children) c
     = (c, Throw (JsError "Enum type must have a parent name."))
  /\ visit (structFieldTypeNode name docs child) c
     = (c, Throw (JsError "Struct field type must have a parent name."))
  /\ visit (enumStructVariantTypeNode name child) c
     = (c, Throw (JsError "Enum struct variant type must have a parent name."))
  /\ visit (enumTupleVariantTypeNode name child) c
     = (c, Throw (JsError "Enum tuple variant type must have a parent name."))
  /\ snd (visit (definedTypeNode definedName (structTypeNode children)) c)
     = Throw (JsError "Struct type must have a parent name.").
Proof.
  intros Hnone Hempty.
  repeat split; cbn [visit];
    unfold visitStructType, visitEnumType, visitStructFieldType,
      visitEnumStructVariantType, visitEnumTupleVariantType, visitDefinedType,
      bind, gets, set_parentName, modify;
    try (rewrite Hnone; reflexivity).
  cbn [parentName withParentName]. rewrite Hempty. reflexivity.
Qed.

Lemma mapM_keeps_option_flag (l : list Node) (c c' : Ctx) (ms : list TypeManifest.t) :
  mapM visit l c = (c', Ok ms) ->
  isOptionField c = false -> isOptionField c' = false.
Proof.
  intros Hrun.
  assert (Hall : Forall Framed l)
    by (apply Forall_forall; intros n _; apply visit_framed).
  destruct (mapM_framed l Hall c c' ms Hrun) as [K _].
  unfold keepsDefaults in K. tauto.
Qed.

(** X17.  A field whose type is a struct is always hoisted, whatever the
    flags of the enclosing context: the fields of the inner struct are
    visited under the name [Parent + Field], the inner struct becomes the
    last hoisted declaration, named by the PascalCase of that name, after
    the declarations its own fields hoist, and the field refers to it by
    that name.  The field line ends with the [bin:"optional"] tag exactly
    when [isOptionField] is still set once the inner fields are visited,
    which takes that it was set on entry. *)
Theorem struct_typed_field_is_hoisted (name parent : string) (docs : list string)
    (fields : list Node) (c c' : Ctx) (m : TypeManifest.t) :
  truthyName (parentName c) = Some parent ->
  forallb isStructField fields = true ->
  visit (structFieldTypeNode name docs (structTypeNode fields)) c = (c', Ok m) ->
  let nestedName := pascalCase (pascalCase parent ++ pascalCase name) in
  exists fs c1,
    mapM visit fields
         (withInlineStruct false
            (withNestedStruct true
               (withParentName (Some (pascalCase parent ++ pascalCase name)) c)))
    = (c1, Ok fs)
    /\ TypeManifest.type m
       = goDocComment docs ++ tab ++ pascalCase name ++ " " ++ nestedName
           ++ (if isOptionField c1
               then " `" ++ ("bin:" ++ dq ++ "optional" ++ dq) ++ "`"
               else "")
    /\ (isOptionField c = false -> isOptionField c1 = false)
    /\ TypeManifest.nestedStructs m
       = app (flat_map TypeManifest.nestedStructs fs)
             ["type " ++ nestedName ++ " struct {" ++ nl
                      ++ join nl (map TypeManifest.type fs) ++ nl ++ "}"].
Proof.
  intros Hparent Hfields Hrun nestedName.
  cbn [visit] in Hrun. unfold visitStructFieldType in Hrun.
  apply bind_Ok in Hrun. destruct Hrun as (c0 & opn & Hget & Hrun).
  unfold gets in Hget. injection Hget as <- <-.
  apply bind_Ok in Hrun. destruct Hrun as (c0 & oi & Hget & Hrun).
  unfold gets in Hget. injection Hget as <- <-.
  apply bind_Ok in Hrun. destruct Hrun as (c0 & on & Hget & Hrun).
  unfold gets in Hget. injection Hget as <- <-.
  rewrite Hparent in Hrun.
  apply bind_Ok in Hrun. destruct Hrun as (c0 & u & Hset & Hrun).
  unfold set_parentName, modify in Hset. injection Hset as <- _.
  apply bind_Ok in Hrun. destruct Hrun as (c0 & u1 & Hset & Hrun).
  unfold set_nestedStruct, modify in Hset. injection Hset as <- _.
  apply bind_Ok in Hrun. destruct Hrun as (c0 & u2 & Hset & Hrun).
  unfold set_inlineStruct, modify in Hset. injection Hset as <- _.
  apply bind_Ok in Hrun. destruct Hrun as (c2 & inner & Hinner & Hrun).
  unfold visitStructType in Hinner.
  apply bind_Ok in Hinner. destruct Hinner as (c3 & opn2 & Hget & Hinner).
  unfold gets in Hget. injection Hget as <- <-.
  destruct (truthyName _) as [innerName |] eqn:Hname in Hinner;
    [| discriminate Hinner].
  cbn in Hname. apply truthyName_Some in Hname. subst innerName.
  apply bind_Ok in Hinner. destruct Hinner as (c1 & fs & Hfs & Hinner).
  exists fs, c1. split; [exact Hfs |].
  destruct (struct_fields_restore fields Hfields _ _ _ Hfs) as (_ & Hn & _).
  pose proof (mapM_keeps_option_flag _ _ _ _ Hfs) as Hflag.
  cbn in Hn.
  unfold bind, gets in Hinner. rewrite Hn in Hinner.
  unfold ret in Hinner. injection Hinner as <- <-.
  unfold bind, set_parentName, set_inlineStruct, set_nestedStruct, modify, gets
    in Hrun.
  cbn in Hrun.
  split; [| split; [exact Hflag |]].
  - destruct (isOptionField c1); cbn in Hrun; unfold ret in Hrun;
      injection Hrun as _ <-; reflexivity.
  - destruct (isOptionField c1); cbn in Hrun; unfold ret in Hrun;
      injection Hrun as _ <-; reflexivity.
Qed.

Lemma mapM_hoisted_shape (P : string -> Prop) (l : list Node) :
  Forall (fun n => forall c c' m,
            visit n c = (c', Ok m) -> Forall P (TypeManifest.nestedStructs m)) l ->
  forall c c' ms,
    mapM visit l c = (c', Ok ms) ->
    Forall P (flat_map TypeManifest.nestedStructs ms).
Proof.
  intros Hall c c' ms Hrun.
  pose proof (mapM_Ok_Forall2
                (fun _ _ _ m => Forall P (TypeManifest.nestedStructs m))
                l Hall c c' ms Hrun) as H2.
  clear - H2. induction H2 as [| n m l ms [c1 [c2 Hm]] _ IH]; simpl;
    [constructor | apply Forall_app; split; assumption].
Qed.

Lemma visit_hoists_declarations (node : Node) :
  forall c c' m,
    visit node c = (c', Ok m) ->
    Forall isStructDeclaration (TypeManifest.nestedStructs m).
Proof.
  induction node using Node_nested_ind; intros c c' m Hrun; unfold_visitors Hrun.
  all: visitor_run Hrun.
  all: cbn [TypeManifest.nestedStructs TypeManifest.withType emptyManifest].
  all: try solve [constructor | eauto].
  all: try match goal with
           | R : mapM visit ?l _ = (_, Ok ?ms), Hall : Forall _ ?l |- _ =>
               change (Forall isStructDeclaration
                         (flat_map TypeManifest.nestedStructs ms));
               apply (mapM_hoisted_shape isStructDeclaration l Hall _ _ _ R)
           end.
  - (* bytes *)
    unfold visitArrayType, visitNumberType in Hrun. simpl in Hrun.
    visitor_run Hrun; constructor.
  - (* map *)
    change (Forall isStructDeclaration
              (app (TypeManifest.nestedStructs a)
                   (app (TypeManifest.nestedStructs a0) []))).
    rewrite app_nil_r. apply Forall_app. split; eauto.
  - (* nested struct *)
    apply Forall_app. split.
    + apply (mapM_hoisted_shape isStructDeclaration fields H _ _ _ Run).
    + constructor; [| constructor]. now eexists _, _.
Qed.

(** X18.  Every hoisted declaration of a manifest is a named struct
    declaration, [type Name struct { ... }]: nothing else is ever put among
    the nested declarations. *)
Theorem hoisted_declarations_are_structs (node : Node) (c c' : Ctx)
    (m : TypeManifest.t) (d : string) :
  visit node c = (c', Ok m) ->
  In d (TypeManifest.nestedStructs m) ->
  isStructDeclaration d.
Proof.
  intros Hrun Hd.
  exact (proj1 (Forall_forall _ _) (visit_hoists_declarations node c c' m Hrun) d Hd).
Qed.

(** X19.  A little-endian number imports [github.com/gagliardetto/binary]
    exactly when its format is [i128] or [u128]; every other known format
    imports nothing. *)
Theorem number_imports_binary_iff_128 (fmt : string) (c c' : Ctx)
    (m : TypeManifest.t) :
  visit (numberTypeNode fmt le) c = (c', Ok m) ->
  (In "github.com/gagliardetto/binary" (ImportMap._imports (TypeManifest.imports m))
   <-> fmt = "i128" \/ fmt = "u128")
  /\ (fmt <> "i128" -> fmt <> "u128" -> TypeManifest.imports m = ImportMap.new).
Proof.
  intros Hrun. cbn [visit] in Hrun. unfold visitNumberType in Hrun.
  cbn [Map_get NUMBER_FORMAT_MAP] in Hrun.
  repeat match type of Hrun with
         | context [String.eqb ?k fmt] =>
             let E := fresh "E" in
             destruct (String.eqb k fmt) eqn:E;
             [apply String.eqb_eq in E; subst fmt;
              unfold ret in Hrun; injection Hrun as _ <-;
              split; [split; [intros Hin; simpl in Hin; intuition discriminate
                             | intros [Hf | Hf]; try discriminate Hf;
                               simpl; auto]
                     | intros H1 H2; try reflexivity; congruence]
             | apply String.eqb_neq in E]
         end.
  discriminate Hrun.
Qed.

(** X27.  An account whose data is a struct (or an enum) is visited
    exactly as the defined type of the same name over that data: same
    manifest, same context afterwards, same error. *)
Theorem account_is_defined_type_of_its_data (name : string) (data : Node) (c : Ctx) :
  isEnumOrStruct data = true ->
  visit (accountNode name data) c = visit (definedTypeNode name data) c.
Proof.
  intros Hdata. cbn [visit]. unfold visitAccount, visitDefinedType, bind,
    set_parentName, modify, ret. rewrite Hdata.
  destruct (visit data (withParentName (Some (pascalCase name)) c)) as [c1 [m | e]];
    [| reflexivity].
  now destruct m.
Qed.

End TypeManifestMore.

(** ** The value renderer *)

(** Induction on value trees, the children held in lists and options
    included. *)
Section ValueInduction.

Variable P : ValueNode -> Prop.

Hypothesis V_array : forall items, Forall P items -> P (arrayValueNode items).
Hypothesis V_boolean : forall b, P (booleanValueNode b).
Hypothesis V_bytes : forall encoding data, P (bytesValueNode encoding data).
Hypothesis V_constant : forall ty v, P v -> P (constantValueNode ty v).
Hypothesis V_enum_none : forall enum variant, P (enumValueNode enum variant None).
Hypothesis V_enum_some :
  forall enum variant v, P v -> P (enumValueNode enum variant (Some v)).
Hypothesis V_entry : forall k v, P k -> P v -> P (mapEntryValueNode k v).
Hypothesis V_map : forall entries, Forall P entries -> P (mapValueNode entries).
Hypothesis V_none : P noneValueNode.
Hypothesis V_number : forall n, P (numberValueNode n).
Hypothesis V_publicKey : forall pk, P (publicKeyValueNode pk).
Hypothesis V_set : forall items, Forall P items -> P (setValueNode items).
Hypothesis V_some : forall v, P v -> P (someValueNode v).
Hypothesis V_string : forall s, P (stringValueNode s).
Hypothesis V_field : forall name v, P v -> P (structFieldValueNode name v).
Hypothesis V_struct : forall fields, Forall P fields -> P (structValueNode fields).
Hypothesis V_tuple : forall items, Forall P items -> P (tupleValueNode items).

Lemma ValueNode_nested_ind : forall value, P value.
Proof.
  fix IH 1. intros value.
  assert (all : forall l : list ValueNode, Forall P l).
  { induction l as [| x l IHl]; constructor; [apply IH | exact IHl]. }
  destruct value as [items | b | encoding data | ty v | enum variant [v |] | k v
                    | entries | | n | pk | items | v | s | name v | fields | items].
  - apply V_array, all.
  - apply V_boolean.
  - apply V_bytes.
  - apply V_constant, IH.
  - apply V_enum_some, IH.
  - apply V_enum_none.
  - apply V_entry; apply IH.
  - apply V_map, all.
  - apply V_none.
  - apply V_number.
  - apply V_publicKey.
  - apply V_set, all.
  - apply V_some, IH.
  - apply V_string.
  - apply V_field, IH.
  - apply V_struct, all.
  - apply V_tuple, all.
Qed.

End ValueInduction.

Section RenderValueMore.

Context {helpers : Helpers}.

Import JS JSFacts ImportsWithinFacts.

Lemma mapR_isOk (l : list ValueNode) :
  Forall (fun v => isOk (renderValueNode v) = supportedValue v) l ->
  isOk (mapR renderValueNode l) = forallb supportedValue l.
Proof.
  intros Hall. induction Hall as [| v l Hv _ IH]; simpl; [reflexivity |].
  rewrite <- Hv, <- IH.
  destruct (renderValueNode v); simpl; [| reflexivity].
  destruct (mapR renderValueNode l); reflexivity.
Qed.

Lemma visitBytesValue_isOk (encoding data : string) :
  isOk (visitBytesValue encoding data) = decodes encoding data.
Proof.
  unfold visitBytesValue, decodes.
  destruct (getBytesFromBytesValueNode encoding data); reflexivity.
Qed.

Lemma renderValueNode_isOk (value : ValueNode) :
  isOk (renderValueNode value) = supportedValue value.
Proof.
  induction value using ValueNode_nested_ind;
    cbn [renderValueNode supportedValue option_map].
  all: try reflexivity.
  all: try (match goal with
            | Hall : Forall _ ?l |- _ =>
                rewrite <- (mapR_isOk l Hall);
                destruct (mapR renderValueNode l); reflexivity
            end).
  - (* bytes *)
    apply visitBytesValue_isOk.
  - (* constant *)
    unfold visitConstantValue, supportedConstant.
    destruct value; try reflexivity; try apply visitBytesValue_isOk;
      destruct ty; try reflexivity; apply visitBytesValue_isOk.
  - (* enum with a payload *)
    unfold visitEnumValue. rewrite <- IHvalue.
    destruct (renderValueNode value); reflexivity.
  - (* map entry *)
    rewrite <- IHvalue1, <- IHvalue2.
    destruct (renderValueNode value1); simpl; [| reflexivity].
    destruct (renderValueNode value2); reflexivity.
  - (* some *)
    rewrite <- IHvalue. destruct (renderValueNode value); reflexivity.
  - (* field *)
    rewrite <- IHvalue. destruct (renderValueNode value); reflexivity.
Qed.

(** X20.  Rendering a value returns a literal exactly when every constant
    it reaches is a bytes value, a string under a string type or a number
    under a number type, and every text it has to decode (a bytes value,
    the bytes value of a constant, the string of a string constant) is one
    the decoder accepts in its encoding.  Any other constant, and any text
    the decoder throws at, however deep in arrays, maps, sets, structs,
    tuples, options or enum payloads, makes the whole rendering throw; and
    nothing else does. *)
Theorem render_succeeds_iff_constants_supported (value : ValueNode) :
  isOk (renderValueNode value) = supportedValue value.
Proof. apply renderValueNode_isOk. Qed.

Lemma mapR_Ok_Forall (P : ValueManifest.t -> Prop) (l : list ValueNode) :
  Forall (fun v => forall vm, renderValueNode v = Ok vm -> P vm) l ->
  forall vms, mapR renderValueNode l = Ok vms -> Forall P vms.
Proof.
  intros Hall. induction Hall as [| v l Hv _ IH]; intros vms Hrun; simpl in Hrun.
  - injection Hrun as <-. constructor.
  - destruct (renderValueNode v) as [vm | e]; simpl in Hrun; [| discriminate].
    destruct (mapR renderValueNode l) as [rest | e]; simpl in Hrun; [| discriminate].
    injection Hrun as <-. constructor; auto.
Qed.

Lemma mergedImports_within (vms : list ValueManifest.t) :
  Forall (fun vm => importsWithin valuePackages (ValueManifest.imports vm)) vms ->
  importsWithin valuePackages (mergedImports vms).
Proof.
  intros Hall. unfold mergedImports. apply within_mergeWith; [apply within_new |].
  induction Hall; constructor; assumption.
Qed.

Lemma bytes_imports (bytes : list N) :
  mergedImports (map visitNumberValue (map Z.of_N bytes)) = ImportMap.new.
Proof.
  unfold mergedImports. apply mergeWith_new_all.
  rewrite !map_map. simpl. induction bytes; constructor; auto.
Qed.

Lemma bytes_renders (bytes : list N) :
  map ValueManifest.render (map visitNumberValue (map Z.of_N bytes))
  = map N_toString bytes.
Proof.
  rewrite !map_map. apply map_ext. intros b. simpl. apply Z_toString_of_N.
Qed.

Lemma visitBytesValue_eq (encoding data : string) (bytes : list N) :
  getBytesFromBytesValueNode encoding data = Ok bytes ->
  visitBytesValue encoding data
  = Ok (ValueManifest.mk ImportMap.new
          ("[]byte{" ++ join ", " (map N_toString bytes) ++ "}")).
Proof.
  intros Hbytes. unfold visitBytesValue, visitArrayValue. rewrite Hbytes.
  cbn [rbind]. now rewrite bytes_imports, bytes_renders.
Qed.

Lemma visitBytesValue_within (encoding data : string) (vm : ValueManifest.t) :
  visitBytesValue encoding data = Ok vm ->
  importsWithin valuePackages (ValueManifest.imports vm).
Proof.
  intros Hrun.
  destruct (getBytesFromBytesValueNode encoding data) as [bytes | e] eqn:Hbytes.
  - rewrite (visitBytesValue_eq _ _ _ Hbytes) in Hrun. injection Hrun as <-.
    apply within_new.
  - unfold visitBytesValue in Hrun. rewrite Hbytes in Hrun. discriminate Hrun.
Qed.

Lemma renderValueNode_within (value : ValueNode) :
  forall vm, renderValueNode value = Ok vm ->
             importsWithin valuePackages (ValueManifest.imports vm).
Proof.
  induction value using ValueNode_nested_ind; intros vm Hrun;
    cbn [renderValueNode option_map] in Hrun.
  all: try (injection Hrun as <-; first [apply within_new | idtac]).
  all: try (match goal with
            | Hall : Forall _ ?l |- _ =>
                destruct (mapR renderValueNode l) as [vms |] eqn:Hl;
                cbn [rbind] in Hrun; [| discriminate Hrun];
                injection Hrun as <-; cbn [ValueManifest.imports];
                apply mergedImports_within;
                exact (mapR_Ok_Forall _ l Hall vms Hl)
            end).
  - (* bytes *)
    now apply (visitBytesValue_within encoding data).
  - (* constant *)
    unfold visitConstantValue in Hrun.
    destruct value; try discriminate Hrun; try destruct ty; try discriminate Hrun;
      try (eapply visitBytesValue_within; eassumption).
    injection Hrun as <-.
    unfold visitConstantNumber.
    destruct (String.eqb _ "u8"); cbn [ValueManifest.imports visitNumberValue];
      [apply within_new |].
    apply within_add1; [apply within_new | simpl; auto].
  - (* enum with a payload *)
    unfold visitEnumValue in Hrun.
    destruct (renderValueNode value) as [ev |] eqn:Hv; cbn [rbind] in Hrun;
      [| discriminate Hrun].
    injection Hrun as <-.
    change (importsWithin valuePackages
              (ImportMap.mergeWith ImportMap.new [ValueManifest.imports ev])).
    apply within_mergeWith; [apply within_new |].
    constructor; [now apply IHvalue | constructor].
  - (* map entry *)
    destruct (renderValueNode value1) as [k |] eqn:Hk; cbn [rbind] in Hrun;
      [| discriminate Hrun].
    destruct (renderValueNode value2) as [v |] eqn:Hv; cbn [rbind] in Hrun;
      [| discriminate Hrun].
    injection Hrun as <-.
    change (importsWithin valuePackages
              (ImportMap.mergeWith (ValueManifest.imports k)
                                   [ValueManifest.imports v])).
    apply within_mergeWith; [now apply IHvalue1 |].
    constructor; [now apply IHvalue2 | constructor].
  - (* public key *)
    apply within_add1; [apply within_new | simpl; auto].
  - (* some *)
    destruct (renderValueNode value) as [child |] eqn:Hv; cbn [rbind] in Hrun;
      [| discriminate Hrun].
    injection Hrun as <-. unfold visitSomeValue, visitStructFieldValue.
    cbn [ValueManifest.imports]. now apply IHvalue.
  - (* field *)
    destruct (renderValueNode value) as [child |] eqn:Hv; cbn [rbind] in Hrun;
      [| discriminate Hrun].
    injection Hrun as <-. unfold visitSomeValue, visitStructFieldValue.
    cbn [ValueManifest.imports]. now apply IHvalue.
Qed.

(** X21.  The import map of every rendered value has no alias and no
    repeated identifier, and names no package other than
    [github.com/gagliardetto/solana-go] (public keys) and
    [encoding/binary] (folded number constants). *)
Theorem value_imports_are_the_two_packages (value : ValueNode)
    (vm : ValueManifest.t) :
  renderValueNode value = Ok vm ->
  NoDup (ImportMap._imports (ValueManifest.imports vm))
  /\ ImportMap._aliases (ValueManifest.imports vm) = []
  /\ forall x, In x (ImportMap._imports (ValueManifest.imports vm)) ->
               x = "github.com/gagliardetto/solana-go" \/ x = "encoding/binary".
Proof.
  intros Hrun. destruct (renderValueNode_within value vm Hrun) as (Hnd & Hal & Hin).
  repeat split; try assumption.
  intros x Hx. apply Hin in Hx. simpl in Hx. intuition.
Qed.

(** X22.  A bytes value whose text decodes renders as [[]byte{...}]
    listing every decoded byte in decimal, in order ([[]byte{}] for no
    byte), and imports nothing; one whose text the decoder throws at
    throws that error.  A constant over a bytes value renders as that
    value whatever its type, and a constant string under a string type
    renders as the bytes of the string read in the encoding of the type. *)
Theorem bytes_literals (encoding data : string) (ty : Node) (encoding' s : string) :
  (forall bytes,
     getBytesFromBytesValueNode encoding data = Ok bytes ->
     renderValueNode (bytesValueNode encoding data)
     = Ok (ValueManifest.mk ImportMap.new
             ("[]byte{" ++ join ", " (map N_toString bytes) ++ "}")))
  /\ (forall e,
        getBytesFromBytesValueNode encoding data = Throw e ->
        renderValueNode (bytesValueNode encoding data) = Throw e)
  /\ renderValueNode (constantValueNode ty (bytesValueNode encoding data))
     = renderValueNode (bytesValueNode encoding data)
  /\ renderValueNode (constantValueNode (stringTypeNode encoding') (stringValueNode s))
     = renderValueNode (bytesValueNode encoding' s).
Proof.
  repeat split; cbn [renderValueNode]; try reflexivity.
  - intros bytes Hbytes. now apply visitBytesValue_eq.
  - intros e Hbytes. unfold visitBytesValue. now rewrite Hbytes.
Qed.

(** X23.  A tuple value of one item renders exactly as the item: same
    literal, same imports, same error. *)
Theorem single_item_tuple_value_is_its_item (item : ValueNode) :
  renderValueNode (tupleValueNode [item]) = renderValueNode item.
Proof.
  cbn [renderValueNode mapR].
  destruct (renderValueNode item) as [vm | e] eqn:Hrun; [| reflexivity].
  cbn [rbind]. unfold visitTupleValue, mergedImports. cbn [map].
  rewrite (mergeWith_new_one valuePackages _ (renderValueNode_within item vm Hrun)).
  now destruct vm.
Qed.

End RenderValueMore.

(** ** Instructions: conflicts, arguments and imports *)

Module ConflictMore.

Import JS JSFacts ConflictFacts.

Lemma repeated_iff_count (l : list string) (n : string) :
  (exists s1 s2, l = app s1 (n :: s2) /\ In n s1)
  <-> 2 <= count_occ string_dec l n.
Proof.
  split.
  - intros (s1 & s2 & -> & Hin). rewrite count_occ_app, count_occ_cons_eq by reflexivity.
    apply (count_occ_In string_dec) in Hin. lia.
  - induction l as [| x l IH]; simpl; [lia |].
    destruct (string_dec x n) as [-> | Hne]; intros Hc.
    + assert (Hin : In n l) by (apply (count_occ_In string_dec); lia).
      apply in_split in Hin. destruct Hin as (a & b & ->).
      exists (n :: a), b. split; [reflexivity | now left].
    + destruct (IH Hc) as (s1 & s2 & -> & Hin).
      exists (x :: s1), s2. split; [reflexivity | now right].
Qed.

Lemma uniq_from_NoDup (xs acc : list string) :
  NoDup acc -> NoDup (fold_left (fun s x => Set_add x s) xs acc).
Proof.
  revert acc. induction xs as [| x xs IH]; intros acc Hacc; simpl; [assumption |].
  apply IH. now apply Set_add_NoDup.
Qed.

(** X24.  For every instruction, a name is among the reported conflicts
    exactly when it occurs at least twice among the account names followed
    by the argument names; no name is reported twice; and nothing is
    reported exactly when all these names are pairwise distinct. *)
Theorem conflicts_are_the_repeated_names (node : InstructionNode) :
  (forall n, In n (getConflictsForInstructionAccountsAndArgs node)
             <-> 2 <= count_occ string_dec (allNames node) n)
  /\ NoDup (getConflictsForInstructionAccountsAndArgs node)
  /\ (getConflictsForInstructionAccountsAndArgs node = [] <-> NoDup (allNames node)).
Proof.
  assert (Hiff : forall n, In n (getConflictsForInstructionAccountsAndArgs node)
                           <-> 2 <= count_occ string_dec (allNames node) n).
  { intros n. rewrite conflicts_In. apply repeated_iff_count. }
  split; [exact Hiff | split].
  - unfold getConflictsForInstructionAccountsAndArgs, uniq.
    apply uniq_from_NoDup. constructor.
  - rewrite (NoDup_count_occ string_dec). split.
    + intros Hnil n. destruct (le_lt_dec 2 (count_occ string_dec (allNames node) n))
        as [H2 | H2]; [| lia].
      apply Hiff in H2. rewrite Hnil in H2. contradiction.
    + intros Hall.
      destruct (getConflictsForInstructionAccountsAndArgs node) as [| n rest] eqn:E;
        [reflexivity |].
      assert (Hin : In n (n :: rest)) by now left.
      apply Hiff in Hin. specialize (Hall n). lia.
Qed.

End ConflictMore.

Section InstructionMore.

Context {helpers : Helpers}.

Variable getDiscriminatorConstants :
  list DiscriminatorNode -> list InstructionArgumentNode -> string ->
  result ValueManifest.t.

Import JS JSFacts ImportMapMore ImportsWithinFacts.

Lemma slice_star (s : string) : slice ("*" ++ s) 1 = s.
Proof. destruct s; reflexivity. Qed.

Lemma argumentStep_rendered (nodeName : string) (conflicts : list string)
    (acc acc' : ArgsLoop) (a : InstructionArgumentNode) :
  argumentStep nodeName conflicts acc a = Ok acc' ->
  exists r,
    loop_instructionArgs acc' = app (loop_instructionArgs acc) [r]
    /\ renderedFrom a r
    /\ loop_hasArgs acc'
       = (loop_hasArgs acc || negb (isOmitted (argument_defaultValueStrategy a)))%bool
    /\ loop_hasOptional acc'
       = (loop_hasOptional acc
          || (hasValueDefault a
              && negb (isOmitted (argument_defaultValueStrategy a))))%bool.
Proof.
  unfold argumentStep, renderedFrom, hasValueDefault.
  destruct (visit (argument_type a) _) as [c1 [manifest | e]] eqn:Hvisit;
    cbn [snd]; [| discriminate].
  assert (Hopt : if isOptionTypeNode (argument_type a)
                 then exists inner, TypeManifest.type manifest = "*" ++ inner
                 else True).
  { destruct (argument_type a); cbn [isOptionTypeNode]; try exact I.
    cbn [visit] in Hvisit. apply visitOptionType_Ok in Hvisit.
    destruct Hvisit as [_ [child Hchild]]. eauto. }
  destruct (argument_defaultValue a) as [[v | kind] |];
    try destruct (renderValueNode v) as [vm | e]; cbn [rbind];
    try discriminate; intros [= <-]; eexists; cbn;
    (split; [reflexivity |]); (split; [| split; reflexivity]);
    repeat split; try reflexivity;
    destruct (isOptionTypeNode (argument_type a)); try reflexivity;
    destruct Hopt as [inner Hinner]; exists inner; rewrite Hinner;
    cbn [arg_type arg_innerOptionType]; rewrite slice_star;
    split; reflexivity.
Qed.

Lemma forEachArgument_rendered (nodeName : string) (conflicts : list string)
    (arguments : list InstructionArgumentNode) (acc loop : ArgsLoop) :
  forEachArgument nodeName conflicts arguments acc = Ok loop ->
  exists rs,
    loop_instructionArgs loop = app (loop_instructionArgs acc) rs
    /\ Forall2 renderedFrom arguments rs
    /\ loop_hasArgs loop
       = (loop_hasArgs acc
          || existsb (fun a => negb (isOmitted (argument_defaultValueStrategy a)))
                     arguments)%bool
    /\ loop_hasOptional loop
       = (loop_hasOptional acc
          || existsb (fun a => hasValueDefault a
                               && negb (isOmitted (argument_defaultValueStrategy a)))
                     arguments)%bool.
Proof.
  revert acc. induction arguments as [| a rest IH]; intros acc; simpl.
  - intros [= <-]. exists []. rewrite app_nil_r, !orb_false_r.
    repeat split. constructor.
  - destruct (argumentStep nodeName conflicts acc a) as [acc' |] eqn:Hstep;
      cbn [rbind]; [| discriminate].
    intros Hrest. destruct (argumentStep_rendered _ _ _ _ _ Hstep)
      as (r & Hr & Hfrom & Hargs & Hoptional).
    destruct (IH _ Hrest) as (rs & Hrs & Hall & Hargs' & Hoptional').
    exists (r :: rs). rewrite Hrs, Hr, <- app_assoc. split; [reflexivity |].
    split; [now constructor |].
    rewrite Hargs', Hoptional', Hargs, Hoptional, !orb_assoc. split; reflexivity.
Qed.

(** X25.  When an instruction is rendered, [instructionArgs] has one entry
    per argument, in order.  An entry is [default] when its argument has a
    value default and the strategy [omitted], [optional] when it has a
    value default and another strategy, so never both; it carries a
    rendered value exactly when the argument has a value default.  For an
    argument of option type the entry's type is [*T] and its
    [innerOptionType] is [T]; for any other argument [innerOptionType] is
    [null].  [hasArgs] holds when some argument is not [omitted], and
    [hasOptional] when some entry is [optional]. *)
Theorem instruction_arguments_rendered (node : InstructionNode) (page : InstructionPage) :
  snd (visitInstruction getDiscriminatorConstants node) = Ok page ->
  Forall2 renderedFrom (instruction_arguments node) (page_instructionArgs page)
  /\ Forall (fun r => (arg_default r && arg_optional r)%bool = false
                      /\ isSome (arg_value r) = (arg_default r || arg_optional r)%bool)
            (page_instructionArgs page)
  /\ page_hasArgs page
     = existsb (fun a => negb (isOmitted (argument_defaultValueStrategy a)))
               (instruction_arguments node)
  /\ page_hasOptional page = existsb arg_optional (page_instructionArgs page).
Proof.
  intros Hpage. unfold visitInstruction in Hpage. cbn [snd] in Hpage.
  destruct (getDiscriminatorConstants _ _ _) as [dc | e]; [| discriminate].
  cbn [rbind] in Hpage.
  destruct (forEachArgument _ _ _ _) as [loop | e] eqn:Hloop; [| discriminate].
  cbn [rbind] in Hpage.
  destruct (snd (visit _ _)) as [tm | e]; [| discriminate].
  injection Hpage as <-.
  cbn [page_instructionArgs page_hasArgs page_hasOptional].
  destruct (forEachArgument_rendered _ _ _ _ _ Hloop)
    as (rs & Hrs & Hall & Hargs & Hoptional).
  cbn [loop_instructionArgs loop_hasArgs loop_hasOptional app orb] in *.
  rewrite Hrs. split; [exact Hall |]. split; [| split].
  - clear - Hall. induction Hall as [| a r l rs (Hd & Ho & Hv & _) _ IH];
      constructor; [| exact IH].
    rewrite Hd, Ho, Hv.
    destruct (hasValueDefault a), (isOmitted (argument_defaultValueStrategy a));
      split; reflexivity.
  - exact Hargs.
  - rewrite Hoptional. clear - Hall.
    induction Hall as [| a r l rs (_ & Ho & _) _ IH]; [reflexivity |].
    simpl. now rewrite IH, Ho.
Qed.

#[local] Arguments ImportMap.mergeWith : simpl never.

Lemma add1_In (i : ImportMap.t) (x y : string) :
  In x (ImportMap._imports (ImportMap.add1 i y))
  <-> x = y \/ In x (ImportMap._imports i).
Proof.
  unfold ImportMap.add1. rewrite ImportMapFacts.add_imports. simpl.
  apply Set_add_In.
Qed.

Lemma mergeOne_In (a b : ImportMap.t) (x : string) :
  In x (ImportMap._imports (ImportMap.mergeWith a [b]))
  <-> In x (ImportMap._imports a) \/ In x (ImportMap._imports b).
Proof.
  rewrite mergeWith_imports_In. split.
  - intros [H | (o & [Ho | []] & H)]; [now left | subst o; now right].
  - intros [H | H]; [now left | right; exists b; split; [now left | exact H]].
Qed.

Lemma argumentStep_imports (nodeName : string) (conflicts : list string)
    (acc acc' : ArgsLoop) (a : InstructionArgumentNode) (x : string) :
  argumentStep nodeName conflicts acc a = Ok acc' ->
  (In x (ImportMap._imports (loop_imports acc)) ->
   In x (ImportMap._imports (loop_imports acc')))
  /\ (In x (ImportMap._imports (loop_imports acc')) ->
      In x (ImportMap._imports (loop_imports acc)) \/ In x instructionPackages).
Proof.
  unfold argumentStep.
  destruct (visit (argument_type a) _) as [c1 [manifest | e]] eqn:Hvisit;
    cbn [snd]; [| discriminate].
  destruct (visit_importsWithin _ _ _ _ Hvisit) as (_ & _ & Hm).
  destruct (argument_defaultValue a) as [[v | kind] |];
    try destruct (renderValueNode v) as [vm | e] eqn:Hv; cbn [rbind];
    try discriminate; intros [= <-]; cbn [loop_imports];
    rewrite ?mergeOne_In; (split; [tauto |]).
  - destruct (renderValueNode_within v vm Hv) as (_ & _ & Hvm).
    intros [[H | H] | H]; [now left | right | right].
    + apply Hm in H. simpl in H. simpl. tauto.
    + apply Hvm in H. simpl in H. simpl. tauto.
  - intros [H | H]; [now left | right]. apply Hm in H. simpl in H. simpl. tauto.
  - intros [H | H]; [now left | right]. apply Hm in H. simpl in H. simpl. tauto.
Qed.

Lemma forEachArgument_imports (nodeName : string) (conflicts : list string)
    (arguments : list InstructionArgumentNode) (acc loop : ArgsLoop) (x : string) :
  forEachArgument nodeName conflicts arguments acc = Ok loop ->
  (In x (ImportMap._imports (loop_imports acc)) ->
   In x (ImportMap._imports (loop_imports loop)))
  /\ (In x (ImportMap._imports (loop_imports loop)) ->
      In x (ImportMap._imports (loop_imports acc)) \/ In x instructionPackages).
Proof.
  revert acc. induction arguments as [| a rest IH]; intros acc; simpl.
  - intros [= <-]. tauto.
  - destruct (argumentStep nodeName conflicts acc a) as [acc' |] eqn:Hstep;
      cbn [rbind]; [| discriminate].
    intros Hrest. destruct (argumentStep_imports _ _ _ _ _ x Hstep) as [S1 S2].
    destruct (IH _ Hrest) as [R1 R2]. tauto.
Qed.

(** X26.  A rendered instruction always imports
    [github.com/gagliardetto/solana-go] and
    [github.com/gagliardetto/binary], and [fmt] as soon as it has an
    account; apart from what its discriminator constants import, it imports
    nothing outside these three and [encoding/binary]. *)
Theorem instruction_imports (node : InstructionNode) (page : InstructionPage) :
  snd (visitInstruction getDiscriminatorConstants node) = Ok page ->
  In "github.com/gagliardetto/solana-go" (ImportMap._imports (page_imports page))
  /\ In "github.com/gagliardetto/binary" (ImportMap._imports (page_imports page))
  /\ (instruction_accounts node <> [] ->
      In "fmt" (ImportMap._imports (page_imports page)))
  /\ forall x,
       In x (ImportMap._imports (page_imports page)) ->
       In x instructionPackages
       \/ exists constants,
            getDiscriminatorConstants (instruction_discriminators node)
              (instruction_arguments node) (instruction_name node)
            = Ok constants
            /\ In x (ImportMap._imports (ValueManifest.imports constants)).
Proof.
  intros Hpage. unfold visitInstruction in Hpage. cbn [snd] in Hpage.
  destruct (getDiscriminatorConstants _ _ _) as [dc | e] eqn:Hdc; [| discriminate].
  cbn [rbind] in Hpage.
  destruct (forEachArgument _ _ _ _) as [loop | e] eqn:Hloop; [| discriminate].
  cbn [rbind] in Hpage.
  destruct (snd (visit _ _)) as [tm | e]; [| discriminate].
  injection Hpage as <-. cbn [page_imports].
  assert (Hstart : forall x,
             In x (ImportMap._imports
                     (loop_imports
                        (mkArgsLoop
                           (if Nat.ltb 0 (List.length (instruction_accounts node))
                            then ImportMap.add1
                                   (ImportMap.add1
                                      (ImportMap.add1 ImportMap.new
                                         "github.com/gagliardetto/solana-go")
                                      "github.com/gagliardetto/binary") "fmt"
                            else ImportMap.add1
                                   (ImportMap.add1 ImportMap.new
                                      "github.com/gagliardetto/solana-go")
                                   "github.com/gagliardetto/binary")
                           [] false false)))
             <-> x = "github.com/gagliardetto/solana-go"
                 \/ x = "github.com/gagliardetto/binary"
                 \/ (x = "fmt" /\ instruction_accounts node <> [])).
  { intros x. cbn [loop_imports].
    destruct (instruction_accounts node) as [| acct accts]; cbn [List.length Nat.ltb Nat.leb];
      rewrite ?add1_In; simpl; intuition congruence. }
  repeat split.
  - apply mergeOne_In. left.
    apply (proj1 (forEachArgument_imports _ _ _ _ _ _ Hloop)). apply Hstart. tauto.
  - apply mergeOne_In. left.
    apply (proj1 (forEachArgument_imports _ _ _ _ _ _ Hloop)). apply Hstart. tauto.
  - intros Hacc. apply mergeOne_In. left.
    apply (proj1 (forEachArgument_imports _ _ _ _ _ _ Hloop)). apply Hstart. tauto.
  - intros x Hx. apply mergeOne_In in Hx. destruct Hx as [Hx | Hx].
    + apply (proj2 (forEachArgument_imports _ _ _ _ _ _ Hloop)) in Hx.
      destruct Hx as [Hx | Hx]; [| now left].
      apply Hstart in Hx. left. simpl. intuition.
    + right. exists dc. split; [reflexivity | exact Hx].
Qed.

End InstructionMore.

(** ** The further properties at sample inputs *)

Module MoreSamples.

Import Examples.

#[local] Existing Instance GoHelpers.instance.

Lemma remove_is_set_deletion_witness :
  let this := ImportMap.mk ["fmt"] [("fmt", "f")] in
  ~ In "os" (ImportMap._imports this)
  /\ ImportMap.remove (ImportMap.add this ["os"]) ["os"] = this
  /\ ImportMap._aliases (ImportMap.remove this ["fmt"]) = [("fmt", "f")].
Proof.
  cbv zeta.
  destruct (ImportMapMore.remove_is_set_deletion
              (ImportMap.mk ["fmt"] [("fmt", "f")]) ["fmt"] "os") as (_ & Hal & Hrt).
  assert (Hfresh : ~ In "os" ["fmt"]) by (simpl; intuition discriminate).
  split; [exact Hfresh |]. split; [exact (Hrt Hfresh) | exact Hal].
Defined.

Lemma mergeWith_alias_lookup_witness :
  let a := ImportMap.mk ["fmt"; "os"] [("fmt", "f"); ("os", "o")] in
  let b := ImportMap.mk ["fmt"] [("fmt", "format")] in
  ImportMap.wf b
  /\ JS.Map_get (ImportMap._aliases (ImportMap.mergeWith a [b])) "fmt" = Some "format"
  /\ JS.Map_get (ImportMap._aliases (ImportMap.mergeWith a [b])) "os" = Some "o".
Proof.
  cbv zeta.
  assert (Hwf : ImportMap.wf (ImportMap.mk ["fmt"] [("fmt", "format")]))
    by (split; simpl; repeat constructor; simpl; tauto).
  split; [exact Hwf |].
  split; rewrite (ImportMapMore.mergeWith_alias_lookup _ _ _ Hwf); reflexivity.
Defined.

Lemma default_resolution_filters_witness :
  let S := ImportMap.mk ["generatedTypes::Foo"; "fmt"; "hooked::Bar"]
                        [("generatedTypes::Foo", "foo"); ("fmt", "f")] in
  ImportMap.wf S
  /\ ImportMap.resolveDependencyMap S [] = ImportMap.mk ["fmt"] [("fmt", "f")].
Proof.
  cbv zeta.
  assert (Hwf : ImportMap.wf
                  (ImportMap.mk ["generatedTypes::Foo"; "fmt"; "hooked::Bar"]
                                [("generatedTypes::Foo", "foo"); ("fmt", "f")])).
  { split; simpl; repeat constructor; simpl; intuition discriminate. }
  split; [exact Hwf |].
  destruct (ImportMapMore.default_resolution_filters _ Hwf) as [Hfilter _].
  rewrite Hfilter. reflexivity.
Defined.

Lemma resolveDependency_cases_witness :
  let dependencies := [("generatedTypes", "github.com/acme/client/types")] in
  let dm := ImportMap.spread ImportMap.DEFAULT_MODULE_MAP dependencies in
  "generatedTypes" <> ""
  /\ JS.Map_get dm "generatedTypes" = Some "github.com/acme/client/types"
  /\ ImportMap.resolveDependency dm "generatedTypes::Foo"
     = "github.com/acme/client/types::Foo"
  /\ ImportMap.resolveDependency dm "fmt" = "fmt".
Proof.
  cbv zeta.
  assert (Hkey : "generatedTypes" <> "") by discriminate.
  assert (Hget : JS.Map_get
                   (ImportMap.spread ImportMap.DEFAULT_MODULE_MAP
                      [("generatedTypes", "github.com/acme/client/types")])
                   "generatedTypes"
                 = Some "github.com/acme/client/types") by reflexivity.
  assert (Honly : forall other,
             In other
                (map fst (ImportMap.spread ImportMap.DEFAULT_MODULE_MAP
                            [("generatedTypes", "github.com/acme/client/types")])) ->
             other <> "generatedTypes" ->
             JS.startsWith ("generatedTypes" ++ "::" ++ "Foo") (other ++ "::") = false).
  { intros other Hin Hne. simpl in Hin.
    destruct Hin as [<- | [<- | [<- | [<- | [<- | [<- | []]]]]]];
      try reflexivity; contradiction. }
  destruct (ImportMapMore.resolveDependency_cases
              [("generatedTypes", "github.com/acme/client/types")]
              "generatedTypes" "github.com/acme/client/types" "Foo" "fmt"
              Hkey Hget Honly) as [Hkeep Hrewrite].
  split; [exact Hkey |]. split; [exact Hget |].
  split; [exact Hrewrite | apply Hkeep; reflexivity].
Defined.

Lemma toString_layout_witness :
  let this := ImportMap.mk ["github.com/gagliardetto/solana-go"; "fmt";
                            "generatedTypes::Foo"]
                           [] in
  let resolvedMap := ImportMap.resolveDependencyMap this [] in
  ImportMap._imports resolvedMap <> []
  /\ exists sorted,
       Permutation (ImportMap._imports resolvedMap) sorted
       /\ LocallySorted (fun x y => String.leb x y = true) sorted
       /\ let std := map (ImportMapText.importLine resolvedMap)
                         (filter (fun imp => negb (ImportMapText.isThirdParty imp))
                                 sorted) in
          let ext := map (ImportMapText.importLine resolvedMap)
                         (filter ImportMapText.isThirdParty sorted) in
          ImportMapText.toString this []
          = "import (" ++ JS.nl
              ++ match std, ext with
                 | [], _ => JS.join JS.nl ext
                 | _, [] => JS.join JS.nl std
                 | _, _ => JS.join JS.nl std ++ (JS.nl ++ JS.nl) ++ JS.join JS.nl ext
                 end
              ++ JS.nl ++ ")".
Proof.
  cbv zeta.
  assert (Hne : ImportMap._imports
                  (ImportMap.resolveDependencyMap
                     (ImportMap.mk ["github.com/gagliardetto/solana-go"; "fmt";
                                    "generatedTypes::Foo"] []) []) <> [])
    by (vm_compute; discriminate).
  split; [exact Hne |].
  exact (ImportBlockFacts.toString_layout _ [] Hne).
Defined.

(** The import block of a sample map, as text. *)
Example import_block_rendered :
  ImportMapText.toString
    (ImportMap.mk ["github.com/gagliardetto/solana-go"; "fmt"; "encoding/binary";
                   "generatedTypes::Foo"; "github.com/acme/x"]
                  [("github.com/acme/x", "acme")]) []
  = "import (" ++ JS.nl
      ++ JS.tab ++ JS.dq ++ "encoding/binary" ++ JS.dq ++ JS.nl
      ++ JS.tab ++ JS.dq ++ "fmt" ++ JS.dq ++ JS.nl
      ++ JS.nl
      ++ JS.tab ++ "acme " ++ JS.dq ++ "github.com/acme/x" ++ JS.dq ++ JS.nl
      ++ JS.tab ++ "ag_solanago " ++ JS.dq ++ "github.com/gagliardetto/solana-go"
                ++ JS.dq ++ JS.nl
      ++ ")".
Proof. vm_compute. reflexivity. Qed.

Lemma manifest_only_for_supported_shapes_witness :
  visit point (initCtx None None)
  = (initCtx None None,
     Ok (TypeManifest.mk ImportMap.new []
           ("type Point struct {" ++ JS.nl ++ JS.tab ++ "X uint8" ++ JS.nl
              ++ JS.tab ++ "Y *uint8" ++ JS.nl ++ "}")))
  /\ supportedShapes point = true.
Proof.
  assert (Hrun : visit point (initCtx None None)
                 = (initCtx None None,
                    Ok (TypeManifest.mk ImportMap.new []
                          ("type Point struct {" ++ JS.nl ++ JS.tab ++ "X uint8"
                             ++ JS.nl ++ JS.tab ++ "Y *uint8" ++ JS.nl ++ "}"))))
    by (vm_compute; reflexivity).
  split; [exact Hrun |].
  exact (manifest_only_for_supported_shapes _ _ _ _ Hrun).
Defined.

Lemma nameFree_visit_succeeds_iff_supported_witness :
  let node := mapTypeNode (stringTypeNode "utf8")
                          (arrayTypeNode (numberTypeNode "u64" be) remainderCountNode) in
  nameFree node = true
  /\ isOk (snd (visit node (initCtx None None))) = false.
Proof.
  cbv zeta. split; [reflexivity |].
  rewrite nameFree_visit_succeeds_iff_supported by reflexivity. reflexivity.
Defined.

Lemma manifest_imports_witness :
  let node := structTypeNode
                [ structFieldTypeNode "owner" [] publicKeyTypeNode;
                  structFieldTypeNode "amount" [] (numberTypeNode "u128" le);
                  structFieldTypeNode "delegate" [] publicKeyTypeNode ] in
  let c := initCtx (Some "Vault") None in
  let m := TypeManifest.mk
             (ImportMap.mk ["github.com/gagliardetto/solana-go";
                            "github.com/gagliardetto/binary"] [])
             []
             ("type Vault struct {" ++ JS.nl
                ++ JS.tab ++ "Owner ag_solanago.PublicKey" ++ JS.nl
                ++ JS.tab ++ "Amount ag_binary.Uint128" ++ JS.nl
                ++ JS.tab ++ "Delegate ag_solanago.PublicKey" ++ JS.nl
                ++ "}") in
  visit node c = (c, Ok m)
  /\ NoDup (ImportMap._imports (TypeManifest.imports m))
  /\ ImportMap._aliases (TypeManifest.imports m) = [].
Proof.
  cbv zeta.
  match goal with
  | |- ?run /\ _ => assert (Hrun : run) by (vm_compute; reflexivity)
  end.
  split; [exact Hrun |].
  destruct (manifest_imports_are_the_two_packages _ _ _ _ Hrun) as (Hnd & Hal & _).
  split; [exact Hnd | exact Hal].
Defined.

Lemma parent_name_required_witness :
  truthyName (parentName (initCtx None None)) = None
  /\ pascalCase "_" = ""
  /\ visit (structTypeNode circleFields) (initCtx None None)
     = (initCtx None None, Throw (JsError "Struct type must have a parent name."))
  /\ snd (visit (definedTypeNode "_" (structTypeNode circleFields)) (initCtx None None))
     = Throw (JsError "Struct type must have a parent name.").
Proof.
  assert (H1 : truthyName (parentName (initCtx None None)) = None) by reflexivity.
  assert (H2 : pascalCase "_" = "") by reflexivity.
  destruct (parent_name_required (initCtx None None) circleFields u8 "x" "_" []
              H1 H2) as (Hs & _ & _ & _ & _ & Hd).
  split; [exact H1 |]. split; [exact H2 |]. split; [exact Hs | exact Hd].
Defined.

Lemma struct_typed_field_is_hoisted_witness :
  let node := structFieldTypeNode "centre" [] (structTypeNode circleFields) in
  let c := initCtx (Some "Shape") None in
  let m := TypeManifest.mk ImportMap.new
             ["type ShapeCentre struct {" ++ JS.nl ++ JS.tab ++ "Radius uint8"
                                          ++ JS.nl ++ "}"]
             (JS.tab ++ "Centre ShapeCentre") in
  truthyName (parentName c) = Some "Shape"
  /\ forallb isStructField circleFields = true
  /\ visit node c = (c, Ok m)
  /\ exists fs c1,
       mapM visit circleFields
            (withInlineStruct false
               (withNestedStruct true
                  (withParentName (Some (pascalCase "Shape" ++ pascalCase "centre")) c)))
       = (c1, Ok fs)
       /\ TypeManifest.type m
          = goDocComment [] ++ JS.tab ++ pascalCase "centre" ++ " "
              ++ pascalCase (pascalCase "Shape" ++ pascalCase "centre")
              ++ (if isOptionField c1
                  then " `" ++ ("bin:" ++ JS.dq ++ "optional" ++ JS.dq) ++ "`"
                  else "")
       /\ (isOptionField c = false -> isOptionField c1 = false)
       /\ TypeManifest.nestedStructs m
          = app (flat_map TypeManifest.nestedStructs fs)
                ["type " ++ pascalCase (pascalCase "Shape" ++ pascalCase "centre")
                         ++ " struct {" ++ JS.nl
                         ++ JS.join JS.nl (map TypeManifest.type fs) ++ JS.nl ++ "}"].
Proof.
  cbv zeta.
  assert (H1 : truthyName (parentName (initCtx (Some "Shape") None)) = Some "Shape")
    by reflexivity.
  assert (H3 : forallb isStructField circleFields = true) by reflexivity.
  match goal with
  | |- _ /\ _ /\ ?run /\ _ => assert (H4 : run) by (vm_compute; reflexivity)
  end.
  split; [exact H1 |]. split; [exact H3 |].
  split; [exact H4 |].
  exact (struct_typed_field_is_hoisted "centre" "Shape" [] circleFields _ _ _
           H1 H3 H4).
Defined.

(** Under an option flag still set, a field over an empty struct is hoisted
    all the same and carries the tag; over a struct with a field, the first
    inner field takes the tag. *)
Example flagged_struct_field_hoisted :
  snd (visit (structFieldTypeNode "centre" [] (structTypeNode []))
             (mkCtx (Some "Shape") false false PSNull true))
  = Ok (TypeManifest.mk ImportMap.new
          ["type ShapeCentre struct {" ++ JS.nl ++ JS.nl ++ "}"]
          (JS.tab ++ "Centre ShapeCentre `bin:" ++ JS.dq ++ "optional" ++ JS.dq ++ "`"))
  /\ snd (visit (structFieldTypeNode "centre" [] (structTypeNode circleFields))
                (mkCtx (Some "Shape") false false PSNull true))
     = Ok (TypeManifest.mk ImportMap.new
             ["type ShapeCentre struct {" ++ JS.nl ++ JS.tab
                ++ "Radius uint8 `bin:" ++ JS.dq ++ "optional" ++ JS.dq ++ "`"
                ++ JS.nl ++ "}"]
             (JS.tab ++ "Centre ShapeCentre")).
Proof. split; vm_compute; reflexivity. Qed.

Lemma hoisted_declarations_are_structs_witness :
  let d := "type HolderInner struct {" ++ JS.nl
             ++ JS.tab ++ "A uint8 `bin:" ++ JS.dq ++ "optional" ++ JS.dq ++ "`" ++ JS.nl
             ++ JS.tab ++ "B uint8" ++ JS.nl ++ "}" in
  let m := TypeManifest.mk ImportMap.new [d]
             ("type Holder struct {" ++ JS.nl ++ JS.tab ++ "Inner *HolderInner"
                                     ++ JS.nl ++ "}") in
  visit holder (initCtx None None) = (initCtx None None, Ok m)
  /\ In d (TypeManifest.nestedStructs m)
  /\ isStructDeclaration d.
Proof.
  cbv zeta.
  match goal with
  | |- ?run /\ ?mem /\ _ =>
      assert (Hrun : run) by (vm_compute; reflexivity);
      assert (Hin : mem) by (now left)
  end.
  split; [exact Hrun |]. split; [exact Hin |].
  exact (hoisted_declarations_are_structs _ _ _ _ _ Hrun Hin).
Defined.

Lemma number_imports_binary_iff_128_witness :
  let c := initCtx None None in
  let m := TypeManifest.mk (ImportMap.mk ["github.com/gagliardetto/binary"] []) []
                           "ag_binary.Int128" in
  visit (numberTypeNode "i128" le) c = (c, Ok m)
  /\ (In "github.com/gagliardetto/binary" (ImportMap._imports (TypeManifest.imports m))
      <-> "i128" = "i128" \/ "i128" = "u128").
Proof.
  cbv zeta.
  match goal with
  | |- ?run /\ _ => assert (Hrun : run) by (vm_compute; reflexivity)
  end.
  split; [exact Hrun |].
  exact (proj1 (number_imports_binary_iff_128 _ _ _ _ Hrun)).
Defined.

Lemma bytes_literals_witness :
  getBytesFromBytesValueNode "base16" "01020aff" = Ok [1; 2; 10; 255]%N
  /\ renderValueNode (bytesValueNode "base16" "01020aff")
     = Ok (ValueManifest.mk ImportMap.new "[]byte{1, 2, 10, 255}")
  /\ getBytesFromBytesValueNode "base16" "0g" = Throw (JsError "Invalid value for base 16.")
  /\ renderValueNode (bytesValueNode "base16" "0g")
     = Throw (JsError "Invalid value for base 16.")
  /\ supportedValue (arrayValueNode [bytesValueNode "base16" "0g"]) = false.
Proof.
  destruct (bytes_literals "base16" "01020aff" bytesTypeNode "utf8" "")
    as (Hok & _ & _ & _).
  destruct (bytes_literals "base16" "0g" bytesTypeNode "utf8" "")
    as (_ & Hthrow & _ & _).
  split; [reflexivity |]. split; [exact (Hok _ eq_refl) |].
  split; [reflexivity |]. split; [exact (Hthrow _ eq_refl) | reflexivity].
Defined.

Lemma value_imports_witness :
  let value := structValueNode
                 [ structFieldValueNode "owner" (publicKeyValueNode "11111111");
                   structFieldValueNode "seed"
                     (constantValueNode (numberTypeNode "u32" le) (numberValueNode 1)) ] in
  let vm := ValueManifest.mk
              (ImportMap.mk ["github.com/gagliardetto/solana-go"; "encoding/binary"] [])
              ("{Owner: ag_solanago.MustPublicKeyFromBase58(" ++ JS.dq ++ "11111111"
                 ++ JS.dq ++ "), Seed: binary.LittleEndian.AppendUint32(nil, 1)}") in
  renderValueNode value = Ok vm
  /\ NoDup (ImportMap._imports (ValueManifest.imports vm))
  /\ ImportMap._aliases (ValueManifest.imports vm) = [].
Proof.
  cbv zeta.
  match goal with
  | |- ?run /\ _ => assert (Hrun : run) by (vm_compute; reflexivity)
  end.
  split; [exact Hrun |].
  destruct (value_imports_are_the_two_packages _ _ Hrun) as (Hnd & Hal & _).
  split; [exact Hnd | exact Hal].
Defined.

Lemma instruction_arguments_rendered_witness :
  exists page,
    snd (visitInstruction GoHelpers.noDiscriminatorConstants depositInstruction)
    = Ok page
    /\ map arg_name (page_instructionArgs page) = ["amount"; "memo"; "version"]
    /\ map arg_innerOptionType (page_instructionArgs page) = [None; Some "uint8"; None]
    /\ map arg_value (page_instructionArgs page) = [None; Some "nil"; Some "1"]
    /\ Forall2 renderedFrom (instruction_arguments depositInstruction)
               (page_instructionArgs page)
    /\ page_hasArgs page = true
    /\ page_hasOptional page = existsb arg_optional (page_instructionArgs page).
Proof.
  eexists. split; [vm_compute; reflexivity |].
  split; [reflexivity |]. split; [reflexivity |]. split; [reflexivity |].
  match goal with
  | |- Forall2 _ _ (page_instructionArgs ?page) /\ _ =>
      destruct (instruction_arguments_rendered GoHelpers.noDiscriminatorConstants
                  depositInstruction page) as (Hall & _ & Hargs & Hopt);
      [vm_compute; reflexivity |]
  end.
  split; [exact Hall |]. split; [rewrite Hargs; reflexivity | exact Hopt].
Defined.

Lemma instruction_imports_witness :
  exists page,
    snd (visitInstruction GoHelpers.noDiscriminatorConstants depositInstruction)
    = Ok page
    /\ ImportMap._imports (page_imports page)
       = ["github.com/gagliardetto/solana-go"; "github.com/gagliardetto/binary"; "fmt"]
    /\ In "github.com/gagliardetto/solana-go" (ImportMap._imports (page_imports page))
    /\ In "github.com/gagliardetto/binary" (ImportMap._imports (page_imports page))
    /\ (instruction_accounts depositInstruction <> [] ->
        In "fmt" (ImportMap._imports (page_imports page))).
Proof.
  eexists. split; [vm_compute; reflexivity |]. split; [reflexivity |].
  match goal with
  | |- In _ (ImportMap._imports (page_imports ?page)) /\ _ =>
      destruct (instruction_imports GoHelpers.noDiscriminatorConstants
                  depositInstruction page) as (Hs & Hb & Hf & _);
      [vm_compute; reflexivity |]
  end.
  split; [exact Hs |]. split; [exact Hb | exact Hf].
Defined.

Lemma account_is_defined_type_witness :
  isEnumOrStruct (structTypeNode circleFields) = true
  /\ visit (accountNode "circle" (structTypeNode circleFields)) (initCtx None None)
     = visit (definedTypeNode "circle" (structTypeNode circleFields)) (initCtx None None)
  /\ snd (visit (accountNode "circle" (structTypeNode circleFields)) (initCtx None None))
     = Ok (TypeManifest.mk ImportMap.new []
             ("type Circle struct {" ++ JS.nl ++ JS.tab ++ "Radius uint8"
                                     ++ JS.nl ++ "}")).
Proof.
  split; [reflexivity |].
  split; [apply account_is_defined_type_of_its_data; reflexivity |].
  vm_compute. reflexivity.
Defined.

End MoreSamples.
